(** * Exchequer: the Gauss-Seidel period solver of the OBR model

    A shallow embedding of [src/solver.py] (class [GaussSeidelSolver]), of
    the parts of [src/config.py] and [src/equations/group07_prices.py] it
    relies on, of the reader and the guarded logarithm of the equation
    modules ([src/eviews_functions.py]) and of the entry point
    [OBRModel.solve] ([src/model.py]), followed by the properties of the
    solver stated in the specification and by further properties of the
    code.

    - Python floats are IEEE binary64 numbers: they are Rocq's primitive
      floats ([PrimFloat]), so every definition below runs ([vm_compute])
      and gives the very bits CPython gives.
    - The arithmetic kernels (the damping blend, the cost block) are
      written once over an interface [Arith] with two instances: [binary64],
      which the solver uses, and the rationals [Q], which read the same
      expressions in exact arithmetic.
    - The pandas [DataFrame] is a table with a row index (periods), a set of
      columns and a cell function; [data.at] raises [KeyError] on a missing
      label when read and enlarges the table when written.
    - Mutation of the shared table, [print] and exceptions are threaded by a
      small state-and-exception monad [M]. *)

From Stdlib Require Import ZArith QArith Qabs Qminmax Floats Lia Lqa String List
  FunctionalExtensionality.
From stdpp Require Import base gmap strings.

Set Warnings "-inexact-float".

Local Open Scope string_scope.
Local Open Scope Z_scope.

(** ** Arithmetic interface *)

Class Arith (F : Type) := {
  of_int : Z -> F;          (* an integer literal or an int used as a float *)
  fadd : F -> F -> F;
  fsub : F -> F -> F;
  fmul : F -> F -> F;
  fdiv : F -> F -> F;
  fopp : F -> F;
  fabs : F -> F;
  fltb : F -> F -> bool;    (* x < y *)
  feqb : F -> F -> bool     (* x == y *)
}.

Declare Scope arith_scope.
Delimit Scope arith_scope with A.
Notation "x + y" := (fadd x y) : arith_scope.
Notation "x - y" := (fsub x y) : arith_scope.
Notation "x * y" := (fmul x y) : arith_scope.
Notation "x / y" := (fdiv x y) : arith_scope.
Notation "- x" := (fopp x) : arith_scope.

(** The int to float conversion of CPython (exact below 2^53). *)
Definition float_of_int (z : Z) : float :=
  if z <? 0 then PrimFloat.opp (PrimFloat.of_uint63 (Uint63.of_Z (- z)))
  else PrimFloat.of_uint63 (Uint63.of_Z z).

#[global] Instance binary64 : Arith float := {
  of_int := float_of_int;
  fadd := PrimFloat.add;
  fsub := PrimFloat.sub;
  fmul := PrimFloat.mul;
  fdiv := PrimFloat.div;
  fopp := PrimFloat.opp;
  fabs := PrimFloat.abs;
  fltb := PrimFloat.ltb;
  feqb := PrimFloat.eqb
}.

#[global] Instance exact : Arith Q := {
  of_int := inject_Z;
  fadd := Qplus;
  fsub := Qminus;
  fmul := Qmult;
  fdiv := Qdiv;
  fopp := Qopp;
  fabs := Qabs;
  fltb := fun x y => negb (Qle_bool y x);
  feqb := Qeq_bool
}.

(** A decimal literal [m * 10^-e] of the source, e.g. [70.54] is [lit 7054 2].
    Both operands are exact in binary64 and IEEE division rounds correctly,
    so on [binary64] this is the double nearest to the decimal, which is
    what the Python parser produces. *)
Definition lit {F} `{Arith F} (m : Z) (e : nat) : F :=
  (of_int m / of_int (10 ^ Z.of_nat e))%A.

Definition is_nan (x : float) : bool := negb (PrimFloat.eqb x x).          (* np.isnan, pd.isna *)
Definition is_inf (x : float) : bool :=                                     (* np.isinf *)
  PrimFloat.eqb x infinity || PrimFloat.eqb x neg_infinity.
Definition is_finite (x : float) : bool := negb (is_nan x) && negb (is_inf x).

(** ** src/config.py *)

Definition SOLVER_MAX_ITER : Z := 200.
Definition SOLVER_TOLERANCE {F} `{Arith F} : F := lit 1 8.     (* 1e-8 *)
Definition SOLVER_DAMPING {F} `{Arith F} : F := lit 7 1.       (* 0.7 *)

Definition ADDITIVE_ADJUSTMENTS : list (string * string) :=
  [ ("PRMIP", "PRMIP_A");
    ("PSNBCY", "PSNBCY_A");
    ("SBHH", "SBHH_A");
    ("TYWHH", "TYWHH_A");
    ("EESC", "EESC_A");
    ("MGDPNSA", "MGDPNSA_A") ].

(** ** Arithmetic kernels of src/solver.py *)

Section Kernels.
Context {F : Type} `{Arith F}.
Local Open Scope arith_scope.

(** [self.damping * new_val + (1 - self.damping) * old_val] *)
Definition damped_val (damping new_val old_val : F) : F :=
  damping * new_val + (of_int 1 - damping) * old_val.

(** [abs((damped_val - old_val) / old_val)] *)
Definition rel_change (damped old_val : F) : F :=
  fabs ((damped - old_val) / old_val).

(** The fourteen cells [_pre_solve_cost_block] reads at period [t]. *)
Record cost_inputs := {
  ULCMS : F; PMNOG : F; PMS : F; PBRENT : F; RXD : F; BPAPS : F; GVA : F;
  PPIY : F;
  ULCMSBASE : F; PMNOGBASE : F; PMSBASE : F; OILBASE : F; TXRATEBASE : F;
  PPIYBASE : F
}.

Definition ulc_r (i : cost_inputs) := ULCMS i / ULCMSBASE i.
Definition pmn_r (i : cost_inputs) := PMNOG i / PMNOGBASE i.
Definition pms_r (i : cost_inputs) := PMS i / PMSBASE i.
Definition oil_r (i : cost_inputs) := (PBRENT i / RXD i) / OILBASE i.
Definition tx_r (i : cost_inputs) := (BPAPS i / GVA i) / TXRATEBASE i.
Definition ppiy_r (i : cost_inputs) := PPIY i / PPIYBASE i.

(** Exogenous parts of the three cost equations. *)
Definition a1 (i : cost_inputs) : F :=
  lit 7054 2 * ulc_r i + lit 693 2 * pmn_r i + lit 641 2 * pms_r i
  + lit 9 2 * oil_r i + lit 352 2 * tx_r i + lit 978 2 * ppiy_r i.
Definition a2 (i : cost_inputs) : F :=
  lit 4025 2 * ulc_r i + lit 280 2 * pmn_r i + lit 90 2 * pms_r i
  + lit 3 2 * oil_r i + lit 51 2 * tx_r i + lit 2706 2 * ppiy_r i.
Definition a3 (i : cost_inputs) : F :=
  lit 1485 2 * ulc_r i + lit 304 2 * pmn_r i + lit 51 2 * pms_r i
  + lit 5152 2 * oil_r i + lit 290 2 * tx_r i + lit 824 2 * ppiy_r i.

Definition vec3 : Type := F * F * F.
Definition mat3 : Type := vec3 * vec3 * vec3.

(** The coefficient matrix [A] of [_pre_solve_cost_block]. *)
Definition cost_matrix : mat3 :=
  ( (lit 10 1, - lit 164 2 / of_int 100, - lit 109 2 / of_int 100),
    (- lit 2813 2 / of_int 100, lit 10 1, - lit 34 2 / of_int 100),
    (- lit 1600 2 / of_int 100, - lit 295 2 / of_int 100, lit 10 1) ).

(** [b = np.array([a1, a2, a3])] *)
Definition cost_rhs (i : cost_inputs) : vec3 := (a1 i, a2 i, a3 i).

(** The original cost equations, [compute_SCOST], [compute_CCOST] and
    [compute_UTCOST] of src/equations/group07_prices.py, as functions of
    the inputs and of the three cost indices they read back. *)
Definition compute_SCOST (i : cost_inputs) (CCOST UTCOST : F) : F :=
  lit 7054 2 * (ULCMS i / ULCMSBASE i)
  + lit 693 2 * (PMNOG i / PMNOGBASE i)
  + lit 641 2 * (PMS i / PMSBASE i)
  + lit 9 2 * ((PBRENT i / RXD i) / OILBASE i)
  + lit 352 2 * ((BPAPS i / GVA i) / TXRATEBASE i)
  + lit 978 2 * (PPIY i / PPIYBASE i)
  + lit 164 2 * (CCOST / of_int 100)
  + lit 109 2 * (UTCOST / of_int 100).
Definition compute_CCOST (i : cost_inputs) (SCOST UTCOST : F) : F :=
  lit 4025 2 * (ULCMS i / ULCMSBASE i)
  + lit 280 2 * (PMNOG i / PMNOGBASE i)
  + lit 90 2 * (PMS i / PMSBASE i)
  + lit 3 2 * ((PBRENT i / RXD i) / OILBASE i)
  + lit 51 2 * ((BPAPS i / GVA i) / TXRATEBASE i)
  + lit 2706 2 * (PPIY i / PPIYBASE i)
  + lit 2813 2 * (SCOST / of_int 100)
  + lit 34 2 * (UTCOST / of_int 100).
Definition compute_UTCOST (i : cost_inputs) (SCOST CCOST : F) : F :=
  lit 1485 2 * (ULCMS i / ULCMSBASE i)
  + lit 304 2 * (PMNOG i / PMNOGBASE i)
  + lit 51 2 * (PMS i / PMSBASE i)
  + lit 5152 2 * ((PBRENT i / RXD i) / OILBASE i)
  + lit 290 2 * ((BPAPS i / GVA i) / TXRATEBASE i)
  + lit 824 2 * (PPIY i / PPIYBASE i)
  + lit 1600 2 * (SCOST / of_int 100)
  + lit 295 2 * (CCOST / of_int 100).
End Kernels.

Arguments cost_inputs F : clear implicits.
Arguments vec3 F : clear implicits.
Arguments mat3 F : clear implicits.

(** ** numpy.linalg.solve on a 3x3 system

    numpy is not part of the repository.  [np.linalg.solve(A, b)] calls
    LAPACK's [gesv]: an LU factorisation of [A] with partial pivoting (row
    interchanges, [getrf]), and then a forward and a backward substitution
    on [b] ([getrs]); it raises [LinAlgError] exactly when a pivot is zero.
    The model below is that algorithm; [None] stands for [LinAlgError].
    (LAPACK may order the floating-point operations differently, so on
    [binary64] the last bits of a result can differ from numpy's: what the
    pre-solver writes is stated for any solver, see
    [_pre_solve_cost_block_with].) *)

Inductive row_index := Row0 | Row1 | Row2.

Section Linalg.
Context {F : Type} `{Arith F}.
Local Open Scope arith_scope.

Definition pick (b : vec3 F) (i : row_index) : F :=
  let '(b0, b1, b2) := b in
  match i with Row0 => b0 | Row1 => b1 | Row2 => b2 end.

(** the second row goes first when its pivot candidate is strictly larger *)
Definition pivot2 {R : Type} (key : R -> F) (r s : R) : R * R :=
  if fltb (fabs (key r)) (fabs (key s)) then (s, r) else (r, s).

(** the first row whose leading entry has the largest magnitude is
    exchanged with row 0 *)
Definition pivot3 {R : Type} (key : R -> F) (r0 r1 r2 : R) : R * R * R :=
  if fltb (fabs (key r0)) (fabs (key r1)) then
    if fltb (fabs (key r1)) (fabs (key r2)) then (r2, r1, r0) else (r1, r0, r2)
  else
    if fltb (fabs (key r0)) (fabs (key r2)) then (r2, r1, r0) else (r0, r1, r2).

(** [P A = L U]: the row order, the multipliers below the diagonal of [L]
    and the rows of [U]. *)
Record lu := {
  lu_perm : row_index * row_index * row_index;
  lu_l10 : F; lu_l20 : F; lu_l21 : F;
  lu_u00 : F; lu_u01 : F; lu_u02 : F;
  lu_u11 : F; lu_u12 : F;
  lu_u22 : F
}.

Definition lu_factor (A : mat3 F) : option lu :=
  let '((a00, a01, a02), (a10, a11, a12), (a20, a21, a22)) := A in
  let col0 := fun r : row_index * F * F * F => let '(_, x, _, _) := r in x in
  (* column 0 *)
  let '(p, q1, q2) :=
    pivot3 col0 (Row0, a00, a01, a02) (Row1, a10, a11, a12) (Row2, a20, a21, a22) in
  let '(ip, p0, p1, p2) := p in
  if feqb p0 (of_int 0) then None else
  let elim0 := fun r : row_index * F * F * F =>
    let '(i, x0, x1, x2) := r in
    let l := x0 / p0 in
    (i, l, x1 - l * p1, x2 - l * p2) in
  let col1 := fun r : row_index * F * F * F => let '(_, _, x, _) := r in x in
  (* column 1 *)
  let '(u, w) := pivot2 col1 (elim0 q1) (elim0 q2) in
  let '(iu, lu0, u1, u2) := u in
  if feqb u1 (of_int 0) then None else
  let '(iw, lw0, w1, w2) := w in
  let l := w1 / u1 in
  let v2 := w2 - l * u2 in
  (* column 2 *)
  if feqb v2 (of_int 0) then None else
  Some {| lu_perm := (ip, iu, iw);
          lu_l10 := lu0; lu_l20 := lw0; lu_l21 := l;
          lu_u00 := p0; lu_u01 := p1; lu_u02 := p2;
          lu_u11 := u1; lu_u12 := u2;
          lu_u22 := v2 |}.

Definition lu_solve (f : lu) (b : vec3 F) : vec3 F :=
  let '(i0, i1, i2) := lu_perm f in
  (* forward substitution on the permuted right-hand side *)
  let y0 := pick b i0 in
  let y1 := pick b i1 - lu_l10 f * y0 in
  let y2 := pick b i2 - lu_l20 f * y0 - lu_l21 f * y1 in
  (* backward substitution *)
  let x2 := y2 / lu_u22 f in
  let x1 := (y1 - lu_u12 f * x2) / lu_u11 f in
  let x0 := (y0 - lu_u01 f * x1 - lu_u02 f * x2) / lu_u00 f in
  (x0, x1, x2).

Definition linalg_solve (A : mat3 F) (b : vec3 F) : option (vec3 F) :=
  match lu_factor A with
  | None => None
  | Some f => Some (lu_solve f b)
  end.

End Linalg.

Arguments lu F : clear implicits.

(** ** The time-series store: a pandas DataFrame

    Rows are quarterly periods ([pd.Period], here the quarter's ordinal in
    [Z], so that [t - 1] and [t + 1] are the neighbouring quarters), columns
    are variable names and every cell is a float64; an undefined cell holds
    NaN. *)

Record DataFrame := {
  df_index : gset Z;
  df_columns : gset string;
  df_cells : Z -> string -> float
}.

(** [name in data.columns] *)
Definition has_column (df : DataFrame) (name : string) : bool :=
  bool_decide (name ∈ df_columns df).

Definition has_row (df : DataFrame) (t : Z) : bool :=
  bool_decide (t ∈ df_index df).

(** [data.at[t, name]] read: [None] is the [KeyError] of a missing label. *)
Definition df_at (df : DataFrame) (t : Z) (name : string) : option float :=
  if has_row df t && has_column df name then Some (df_cells df t name) else None.

(** [data[name] = v]: the whole column is (re)assigned. *)
Definition df_set_column (df : DataFrame) (name : string) (v : float) : DataFrame :=
  {| df_index := df_index df;
     df_columns := {[ name ]} ∪ df_columns df;
     df_cells := fun t' n' => if decide (n' = name) then v else df_cells df t' n' |}.

(** [data.at[t, name] = v]: the cell is overwritten; a label that is missing
    is added, and the other cells of the new row or column are NaN. *)
Definition df_set_at (df : DataFrame) (t : Z) (name : string) (v : float) : DataFrame :=
  {| df_index := {[ t ]} ∪ df_index df;
     df_columns := {[ name ]} ∪ df_columns df;
     df_cells := fun t' n' =>
       if decide (t' = t ∧ n' = name) then v
       else if has_row df t' && has_column df n' then df_cells df t' n'
       else nan |}.

(** ** Equations: the registry's triples [(name, func, eq_type)] *)

(** What a call [func(data, t)] can do: raise, return [None], or return a
    float (possibly NaN or infinite).  The functions are pure: they read the
    table and never write it.  A return value of another type (on which
    [np.isnan], outside the [try], would raise) is not modelled. *)
Inductive eval_result :=
  | Raises (msg : string)
  | ReturnsNone
  | Returns (x : float).

Record Equation := {
  eq_name : string;
  eq_func : DataFrame -> Z -> eval_result;
  eq_type : string
}.

(** ** Effects: the shared table, standard output and exceptions *)

Inductive exn :=
  | KeyError (t : Z) (name : string)
  | LinAlgError
  | UnboundLocalError (var : string).

(** One constructor per [print] call of the solver, holding the values the
    f-string formats. *)
Inductive event :=
  | PrintSolving (t : Z)
  | PrintConverged (iters : Z)
  | PrintError (name msg : string)
  | PrintIteration (iteration : Z) (max_change : float) (worst_var : string)
  | PrintWarning (t max_iter : Z) (max_change : float) (worst_var : string).

Record state := {
  data : DataFrame;
  stdout : list event
}.

Inductive result (A : Type) :=
  | Ok (a : A)
  | Raise (e : exn).
Arguments Ok {A} a.
Arguments Raise {A} e.

Definition M (A : Type) : Type := state -> result A * state.

#[global] Instance M_ret : MRet M := λ A a s, (Ok a, s).
#[global] Instance M_bind : MBind M := λ A B k m s,
  match m s with
  | (Ok a, s') => k a s'
  | (Raise e, s') => (Raise e, s')
  end.

Definition raise {A} (e : exn) : M A := λ s, (Raise e, s).

(** [try: body except Exception: handler]; what [body] wrote before it
    raised stays written. *)
Definition try_except {A} (body : M A) (handler : exn -> M A) : M A := λ s,
  match body s with
  | (Ok a, s') => (Ok a, s')
  | (Raise e, s') => handler e s'
  end.

Definition get_data : M DataFrame := λ s, (Ok (data s), s).
Definition put_data (df : DataFrame) : M unit :=
  λ s, (Ok (), {| data := df; stdout := stdout s |}).
Definition print (e : event) : M unit :=
  λ s, (Ok (), {| data := data s; stdout := stdout s ++ [e] |}).

Definition at_get (t : Z) (name : string) : M float :=
  df ← get_data;
  match df_at df t name with
  | Some x => mret x
  | None => raise (KeyError t name)
  end.
Definition at_set (t : Z) (name : string) (v : float) : M unit :=
  df ← get_data; put_data (df_set_at df t name v).
Definition set_column (name : string) (v : float) : M unit :=
  df ← get_data; put_data (df_set_column df name v).

(** [for x in l: body(x)] *)
Fixpoint for_each {A} (l : list A) (body : A -> M unit) : M unit :=
  match l with
  | [] => mret ()
  | x :: xs => body x;; for_each xs body
  end.

(** ** src/solver.py: class GaussSeidelSolver *)

Record GaussSeidelSolver := {
  equations : list Equation;
  max_iter : Z;
  tol : float;
  damping : float
}.

(** [x or default] of Python: [None], [0] and [0.0] are falsy. *)
Definition int_or (x : option Z) (default : Z) : Z :=
  match x with
  | Some n => if n =? 0 then default else n
  | None => default
  end.
Definition float_or (x : option float) (default : float) : float :=
  match x with
  | Some v => if PrimFloat.eqb v 0 then default else v
  | None => default
  end.

Definition __init__ (equations : list Equation)
    (max_iter : option Z) (tolerance damping : option float) : GaussSeidelSolver :=
  {| equations := equations;
     max_iter := int_or max_iter SOLVER_MAX_ITER;
     tol := float_or tolerance SOLVER_TOLERANCE;
     damping := float_or damping SOLVER_DAMPING |}.

(** [self.endogenous_vars = [name for name, _, _ in equations]] *)
Definition endogenous_vars (self : GaussSeidelSolver) : list string :=
  map eq_name (equations self).

Section Methods.
Variable self : GaussSeidelSolver.

(** The body of the loop of [_initialise_period]. *)
Definition initialise_var (t : Z) (name : string) : M unit :=
  df ← get_data;
  (if has_column df name then mret () else set_column name nan);;
  x ← at_get t name;
  if is_nan x then
    prev_val ← at_get (t - 1) name;
    if negb (is_nan prev_val) then at_set t name prev_val
    else at_set t name (lit 10 1)
  else mret ().

Definition _initialise_period (t : Z) : M unit :=
  for_each (endogenous_vars self) (initialise_var t).

(** The fourteen reads of [_pre_solve_cost_block], in source order. *)
Definition read_cost_inputs (t : Z) : M (cost_inputs float) :=
  ULCMS ← at_get t "ULCMS";
  PMNOG ← at_get t "PMNOG";
  PMS ← at_get t "PMS";
  PBRENT ← at_get t "PBRENT";
  RXD ← at_get t "RXD";
  BPAPS ← at_get t "BPAPS";
  GVA ← at_get t "GVA";
  PPIY ← at_get t "PPIY";
  ULCMSBASE ← at_get t "ULCMSBASE";
  PMNOGBASE ← at_get t "PMNOGBASE";
  PMSBASE ← at_get t "PMSBASE";
  OILBASE ← at_get t "OILBASE";
  TXRATEBASE ← at_get t "TXRATEBASE";
  PPIYBASE ← at_get t "PPIYBASE";
  mret {| ULCMS := ULCMS; PMNOG := PMNOG; PMS := PMS; PBRENT := PBRENT;
          RXD := RXD; BPAPS := BPAPS; GVA := GVA; PPIY := PPIY;
          ULCMSBASE := ULCMSBASE; PMNOGBASE := PMNOGBASE;
          PMSBASE := PMSBASE; OILBASE := OILBASE;
          TXRATEBASE := TXRATEBASE; PPIYBASE := PPIYBASE |}.

Definition _pre_solve_cost_block (t : Z) : M unit :=
  df ← get_data;
  if negb (has_column df "SCOST") then mret ()
  else
    try_except
      (i ← read_cost_inputs t;
       match linalg_solve cost_matrix (cost_rhs i) with
       | None => raise LinAlgError
       | Some (x0, x1, x2) =>
           at_set t "SCOST" x0;;
           at_set t "CCOST" x1;;
           at_set t "UTCOST" x2
       end)
      (λ _, mret ()).

(** The same method with [np.linalg.solve] as a parameter [solve], for
    what the method writes whatever the bits numpy returns;
    [_pre_solve_cost_block] is its instance at [linalg_solve]. *)
Definition _pre_solve_cost_block_with
    (solve : mat3 float -> vec3 float -> option (vec3 float)) (t : Z) : M unit :=
  df ← get_data;
  if negb (has_column df "SCOST") then mret ()
  else
    try_except
      (i ← read_cost_inputs t;
       match solve cost_matrix (cost_rhs i) with
       | None => raise LinAlgError
       | Some (x0, x1, x2) =>
           at_set t "SCOST" x0;;
           at_set t "CCOST" x1;;
           at_set t "UTCOST" x2
       end)
      (λ _, mret ()).

(** The body of the loop of [_apply_additive_adjustments]. *)
Definition adjust (t : Z) (pair : string * string) : M unit :=
  let '(var, adj_var) := pair in
  df ← get_data;
  if has_column df var && has_column df adj_var then
    adj_val ← at_get t adj_var;
    if negb (is_nan adj_val) then
      cur ← at_get t var;
      at_set t var (cur + adj_val)%float
    else mret ()
  else mret ().

Definition _apply_additive_adjustments (t : Z) : M unit :=
  for_each ADDITIVE_ADJUSTMENTS (adjust t).

(** The local variables [max_change] and [worst_var] of [solve_period]. *)
Record tracker := {
  max_change : float;
  worst_var : string
}.

(** The body of the inner loop of [solve_period]: one equation of one sweep. *)
Definition sweep_equation (t : Z) (verbose : bool) (eq : Equation) (tr : tracker)
    : M tracker :=
  let name := eq_name eq in
  old ← at_get t name;
  let old_val := if is_nan old then 0%float else old in
  df ← get_data;
  match eq_func eq df t with
  | Raises msg =>
      (if verbose then print (PrintError name msg) else mret ());;
      mret tr
  | ReturnsNone => mret tr
  | Returns new_val =>
      if is_nan new_val || is_inf new_val then mret tr
      else
        let damped := damped_val (damping self) new_val old_val in
        at_set t name damped;;
        if PrimFloat.ltb (lit 1 10) (PrimFloat.abs old_val) then
          let rel := rel_change damped old_val in
          if PrimFloat.ltb (max_change tr) rel
          then mret {| max_change := rel; worst_var := name |}
          else mret tr
        else mret tr
  end.

(** [for name, func, eq_type in self.equations: ...] *)
Fixpoint sweep_equations (t : Z) (verbose : bool) (eqs : list Equation) (tr : tracker)
    : M tracker :=
  match eqs with
  | [] => mret tr
  | eq :: rest =>
      tr' ← sweep_equation t verbose eq tr;
      sweep_equations t verbose rest tr'
  end.

(** One pass of the outer loop up to the convergence test. *)
Definition sweep (t : Z) (verbose : bool) (iteration : Z) : M tracker :=
  tr ← sweep_equations t verbose (equations self)
         {| max_change := 0%float; worst_var := "" |};
  (if verbose && ((iteration + 1) mod 10 =? 0)
   then print (PrintIteration (iteration + 1) (max_change tr) (worst_var tr))
   else mret ());;
  mret tr.

(** [for iteration in range(self.max_iter): ...] and what follows the loop.
    [remaining] counts the passes left; [last] holds [max_change] and
    [worst_var] as the previous pass left them ([None]: still unbound). *)
Fixpoint sweep_loop (t : Z) (verbose : bool) (remaining : nat) (iteration : Z)
    (last : option tracker) : M Z :=
  match remaining with
  | S k =>
      tr ← sweep t verbose iteration;
      if PrimFloat.ltb (max_change tr) (tol self) then
        _apply_additive_adjustments t;;
        mret (iteration + 1)
      else sweep_loop t verbose k (iteration + 1) (Some tr)
  | O =>
      match last with
      | None => raise (UnboundLocalError "max_change")
      | Some tr =>
          print (PrintWarning t (max_iter self) (max_change tr) (worst_var tr));;
          _apply_additive_adjustments t;;
          mret (max_iter self)
      end
  end.

Definition solve_period (t : Z) (verbose : bool) : M Z :=
  _initialise_period t;;
  _pre_solve_cost_block t;;
  sweep_loop t verbose (Z.to_nat (max_iter self)) 0 None.

(** [while t <= end_period: ...]; [fuel] bounds the number of passes. *)
Fixpoint solve_range_loop (fuel : nat) (t end_period : Z) (verbose : bool)
    (results : list (Z * Z)) : M (list (Z * Z)) :=
  match fuel with
  | O => mret results
  | S k =>
      if t <=? end_period then
        (if verbose then print (PrintSolving t) else mret ());;
        iters ← solve_period t verbose;
        (if verbose then print (PrintConverged iters) else mret ());;
        solve_range_loop k (t + 1) end_period verbose (results ++ [(t, iters)])
      else mret results
  end.

Definition solve_range (start_period end_period : Z) (verbose : bool)
    : M (list (Z * Z)) :=
  solve_range_loop (Z.to_nat (end_period - start_period + 1))
    start_period end_period verbose [].
End Methods.

(** ** src/eviews_functions.py and the reader of the equation modules *)

Module eviews_functions.

(** [v(data, t, var, lag=0)], and the local
    [v = lambda var, lag=0: data.at[t - lag, var] if lag > 0 else data.at[t, var]]
    every equation function defines: the value of [var] [lag] quarters
    before [t]. *)
Definition v (data : DataFrame) (t : Z) (var : string) (lag : Z) : result float :=
  let period := if 0 <? lag then t - lag else t in
  match df_at data period var with
  | Some x => Ok x
  | None => Raise (KeyError period var)
  end.

(** The builtin [max(a, b)] on two floats: [b] when [b > a], else [a]. *)
Definition py_max (a b : float) : float :=
  if PrimFloat.ltb a b then b else a.

Section SafeLog.
(** [np.log] is numpy's; it is left abstract. *)
Variable np_log : float -> float.

(** [safe_log(x) = np.log(max(x, 1e-10))] *)
Definition safe_log (x : float) : float := np_log (py_max x (lit 1 10)).
End SafeLog.

End eviews_functions.

(** ** src/model.py: class OBRModel *)

(** A quarterly [pd.Period] as the number of quarters since 1970Q1, the
    ordinal pandas gives it. *)
Definition quarter (year q : Z) : Z := (year - 1970) * 4 + (q - 1).

(** [config.FORECAST_START] and [config.FORECAST_END] *)
Definition FORECAST_START : Z := quarter 2025 1.
Definition FORECAST_END : Z := quarter 2030 4.

(** What [solve] accepts for [start] and [end]: [None], a string or a
    [pd.Period]. *)
Inductive period_arg :=
  | ArgNone
  | ArgStr (s : string)
  | ArgPeriod (p : Z).

Inductive model_exn :=
  | RuntimeError (msg : string)
  | PeriodParseError (s : string)      (* pandas could not read the string *)
  | SolverRaised (e : exn).

(** The lines [solve] prints itself, and the solver's lines. *)
Inductive model_event :=
  | PrintSolvingQuarters (n_quarters start_p end_p : Z)
  | PrintEquations (n : nat)
  | PrintMaxIterations (n : Z)
  | PrintTolerance (x : float)
  | PrintDamping (x : float)
  | PrintBlank
  | SolverPrinted (e : event).

Record OBRModel := {
  model_data : option DataFrame;          (* [self.data], [None] until loaded *)
  model_equations : list Equation;
  solver : GaussSeidelSolver
}.

(** [OBRModel.__init__]; [registry] is what [get_all_equations()] returns. *)
Definition OBRModel__init__ (registry : list Equation)
    (max_iter : option Z) (tolerance damping : option float) : OBRModel :=
  {| model_data := None;
     model_equations := registry;
     solver := __init__ registry max_iter tolerance damping |}.

Section Solve.
(** [pd.Period(s, freq='Q')] on a string is pandas'; it is left abstract
    ([None]: it raises). *)
Variable pd_Period : string -> option Z.

(** [pd.Period(x, freq='Q') if x else default] *)
Definition period_or (x : period_arg) (default : Z) : model_exn + Z :=
  match x with
  | ArgNone => inr default
  | ArgStr s =>
      if decide (s = "") then inr default
      else match pd_Period s with
           | Some p => inr p
           | None => inl (PeriodParseError s)
           end
  | ArgPeriod p => inr p
  end.

(** [OBRModel.solve]: the result or the exception, the model afterwards
    (the solver works on [self.data] in place) and the output. *)
Definition solve (self : OBRModel) (start end_ : period_arg) (verbose : bool)
    (out : list model_event)
    : (model_exn + list (Z * Z)) * OBRModel * list model_event :=
  match model_data self with
  | None =>
      (inl (RuntimeError
              "No data loaded. Call generate_synthetic_data() or load_data() first."),
       self, out)
  | Some df =>
      match period_or start FORECAST_START with
      | inl e => (inl e, self, out)
      | inr start_p =>
          match period_or end_ FORECAST_END with
          | inl e => (inl e, self, out)
          | inr end_p =>
              let out1 :=
                if verbose then
                  (out ++ [ PrintSolvingQuarters (end_p - start_p + 1) start_p end_p;
                            PrintEquations (length (model_equations self));
                            PrintMaxIterations (max_iter (solver self));
                            PrintTolerance (tol (solver self));
                            PrintDamping (damping (solver self));
                            PrintBlank ])%list
                else out in
              let run := solve_range (solver self) start_p end_p verbose
                           {| data := df; stdout := [] |} in
              (match run.1 with
               | Ok results => inr results
               | Raise e => inl (SolverRaised e)
               end,
               {| model_data := Some (data run.2);
                  model_equations := model_equations self;
                  solver := solver self |},
               (out1 ++ map SolverPrinted (stdout run.2))%list)
          end
      end
  end.
End Solve.

(** ** Reading floats as numbers *)

(** [x == y] of Python, with the two NaNs identified. *)
Definition same_number (x y : float) : bool :=
  PrimFloat.eqb x y || (is_nan x && is_nan y).

(** [lo <= v <= hi] or [hi <= v <= lo] *)
Definition between (lo hi v : float) : bool :=
  (PrimFloat.leb lo v && PrimFloat.leb v hi)
  || (PrimFloat.leb hi v && PrimFloat.leb v lo).

(** [abs((x - rhs) / rhs) <= 1e-9]: [x] reproduces [rhs] to within 1e-9
    relative error. *)
Definition within_1e9 (x rhs : float) : bool :=
  PrimFloat.leb (PrimFloat.abs ((x - rhs) / rhs)) (lit 1 9).

(** ** Specification-level readings of a sweep *)

(** An evaluation the sweep skips: an exception, [None], NaN or an infinity. *)
Definition failed (r : eval_result) : bool :=
  match r with
  | Raises _ | ReturnsNone => true
  | Returns x => is_nan x || is_inf x
  end.

(** The old value as the sweep uses it: an undefined cell counts as [0.0]. *)
Definition old_val_of (old : float) : float :=
  if is_nan old then 0%float else old.

(** The update an equation makes on a table at period [t]: the old value
    and the damped value that is stored, or nothing when it is skipped. *)
Definition update_of (self : GaussSeidelSolver) (t : Z) (eq : Equation)
    (df : DataFrame) : option (float * float) :=
  match df_at df t (eq_name eq) with
  | None => None
  | Some old =>
      match eq_func eq df t with
      | Returns new_val =>
          if is_nan new_val || is_inf new_val then None
          else Some (old_val_of old,
                     damped_val (damping self) new_val (old_val_of old))
      | _ => None
      end
  end.

(** The successful updates of one sweep, in registry order: variable, old
    value, stored value.  Each equation sees the updates made before it. *)
Fixpoint sweep_updates (self : GaussSeidelSolver) (t : Z) (eqs : list Equation)
    (df : DataFrame) : list (string * float * float) :=
  match eqs with
  | [] => []
  | eq :: rest =>
      match update_of self t eq df with
      | Some (old_val, damped) =>
          (eq_name eq, old_val, damped)
            :: sweep_updates self t rest (df_set_at df t (eq_name eq) damped)
      | None => sweep_updates self t rest df
      end
  end.

Definition store_update (t : Z) (df : DataFrame) (u : string * float * float)
    : DataFrame :=
  let '(name, _, damped) := u in df_set_at df t name damped.

(** An update enters the convergence metric when [abs(old_val) > 1e-10]. *)
Definition tracked (u : string * float * float) : bool :=
  let '(_, old_val, _) := u in PrimFloat.ltb (lit 1 10) (PrimFloat.abs old_val).

Definition rel_change_of (u : string * float * float) : float :=
  let '(_, old_val, damped) := u in rel_change damped old_val.

(** [if rel_change > max_change: max_change = rel_change; worst_var = name] *)
Definition track (tr : tracker) (u : string * float * float) : tracker :=
  if PrimFloat.ltb (max_change tr) (rel_change_of u)
  then {| max_change := rel_change_of u; worst_var := fst (fst u) |}
  else tr.

Definition tracker0 : tracker := {| max_change := 0%float; worst_var := "" |}.

(** Every equation of the registry has a cell at period [t]. *)
Definition cells_exist (df : DataFrame) (t : Z) (eqs : list Equation) : Prop :=
  t ∈ df_index df /\ forall eq, In eq eqs -> eq_name eq ∈ df_columns df.

(** The table after one sweep, and the tracker the sweep leaves. *)
Definition sweep_data (self : GaussSeidelSolver) (t : Z) (df : DataFrame) : DataFrame :=
  fold_left (store_update t) (sweep_updates self t (equations self) df) df.

Definition sweep_tracker (self : GaussSeidelSolver) (t : Z) (df : DataFrame) : tracker :=
  fold_left track (List.filter tracked (sweep_updates self t (equations self) df)) tracker0.

(** The table on which the equation that follows [eqs1] in the registry is
    evaluated, in a pass that starts from [df]: [df] with the updates of
    [eqs1] stored. *)
Definition evaluated_on (self : GaussSeidelSolver) (t : Z) (eqs1 : list Equation)
    (df : DataFrame) : DataFrame :=
  fold_left (store_update t) (sweep_updates self t eqs1 df) df.

(** The table from which pass number [k] (counted from 0) of a period
    starts, when the first pass starts from [df]. *)
Definition pass_start (self : GaussSeidelSolver) (t : Z) (k : nat) (df : DataFrame)
    : DataFrame :=
  Nat.iter k (sweep_data self t) df.

(** Pass number [k] is run: every pass before it missed the tolerance. *)
Definition pass_reached (self : GaussSeidelSolver) (t : Z) (k : nat) (df : DataFrame)
    : Prop :=
  forall j, (j < k)%nat ->
    PrimFloat.ltb (max_change (sweep_tracker self t (pass_start self t j df))) (tol self)
    = false.

Definition is_warning (e : event) : bool :=
  match e with PrintWarning _ _ _ _ => true | _ => false end.

(** The registry with other equations, the settings unchanged. *)
Definition with_equations (self : GaussSeidelSolver) (eqs : list Equation)
    : GaussSeidelSolver :=
  {| equations := eqs; max_iter := max_iter self; tol := tol self;
     damping := damping self |}.

(** ** Specification-level reading of the post-processor *)

(** What one pair of the table does to a table in which period [t] is a row. *)
Definition adjust_data (t : Z) (df : DataFrame) (pair : string * string) : DataFrame :=
  let '(var, adj_var) := pair in
  if has_column df var && has_column df adj_var then
    match df_at df t adj_var, df_at df t var with
    | Some adj_val, Some cur =>
        if is_nan adj_val then df else df_set_at df t var (cur + adj_val)%float
    | _, _ => df
    end
  else df.

Definition adjustments_data (t : Z) (df : DataFrame) : DataFrame :=
  fold_left (adjust_data t) ADDITIVE_ADJUSTMENTS df.

(** The adjustment variable of a target, [table.get(name)]. *)
Fixpoint adjustment_of (table : list (string * string)) (name : string) : option string :=
  match table with
  | [] => None
  | (var, adj_var) :: rest =>
      if decide (name = var) then Some adj_var else adjustment_of rest name
  end.

(** The cell [(t', name)] after the post-processor ran at period [t]. *)
Definition adjusted_cell (table : list (string * string)) (df : DataFrame)
    (t t' : Z) (name : string) : option float :=
  match (if decide (t' = t) then adjustment_of table name else None) with
  | Some adj_var =>
      match df_at df t adj_var, df_at df t name with
      | Some adj_val, Some cur =>
          if is_nan adj_val then Some cur else Some (cur + adj_val)%float
      | _, _ => df_at df t' name
      end
  | None => df_at df t' name
  end.

(** ** The table through a period *)

(** Rows and columns are only ever added. *)
Definition df_le (df df' : DataFrame) : Prop :=
  df_index df ⊆ df_index df' /\ df_columns df ⊆ df_columns df'.

(** [df'] has the labels of [df] and the same cells outside row [t]. *)
Definition row_frame (t : Z) (df df' : DataFrame) : Prop :=
  df_index df' = df_index df
  /\ df_columns df' = df_columns df
  /\ forall t' name, t' <> t -> df_at df' t' name = df_at df t' name.

(** The columns [_pre_solve_cost_block] reads. *)
Definition COST_INPUT_COLUMNS : list string :=
  [ "ULCMS"; "PMNOG"; "PMS"; "PBRENT"; "RXD"; "BPAPS"; "GVA"; "PPIY";
    "ULCMSBASE"; "PMNOGBASE"; "PMSBASE"; "OILBASE"; "TXRATEBASE"; "PPIYBASE" ].

(** The pre-solver has no column left to create: when it can run (its
    guard column and its inputs exist), the two other columns it writes
    exist too. *)
Definition cost_columns_closed (df : DataFrame) : Prop :=
  "SCOST" ∈ df_columns df ->
  (forall c, In c COST_INPUT_COLUMNS -> c ∈ df_columns df) ->
  "CCOST" ∈ df_columns df /\ "UTCOST" ∈ df_columns df.

(** A table on which solving a period creates no column. *)
Definition settled (self : GaussSeidelSolver) (df : DataFrame) : Prop :=
  (forall name, In name (endogenous_vars self) -> name ∈ df_columns df)
  /\ cost_columns_closed df.

(** The table as the sweep loop of [solve_period] finds it: after
    [_initialise_period] and [_pre_solve_cost_block]. *)
Definition prepared (self : GaussSeidelSolver) (t : Z) (df : DataFrame) : DataFrame :=
  data ((_initialise_period self t;; _pre_solve_cost_block t)
          {| data := df; stdout := [] |}).2.

(** [_initialise_period] and [_pre_solve_cost_block] raise nothing, so that
    [solve_period] gets to its sweep loop. *)
Definition reaches_loop (self : GaussSeidelSolver) (t : Z) (df : DataFrame) : Prop :=
  ((_initialise_period self t;; _pre_solve_cost_block t)
     {| data := df; stdout := [] |}).1 = Ok ().

(** ** Reasoning about monadic code *)

(** [wp m Q st]: running [m] from [st] ends, normally or by an exception,
    in a result and a state that satisfy [Q]. *)
Definition wp {A} (m : M A) (Q : result A -> state -> Prop) (st : state) : Prop :=
  Q (m st).1 (m st).2.

(** A state with [pre] printed before everything else. *)
Definition prefixed (pre : list event) (st : state) : state :=
  {| data := data st; stdout := pre ++ stdout st |}.

(** [m] neither reads standard output nor erases it. *)
Definition uniform {A} (m : M A) : Prop :=
  forall pre st, m (prefixed pre st) = ((m st).1, prefixed pre (m st).2).

(** ** Sample data for the worked instances

    A table over the quarters 0..3 with a variable [X] (2.0 everywhere), an
    adjustment column [PRMIP_A] (0.5 everywhere) and two undefined columns
    [Y] and [PRMIP]; three equations: [X] grows by half from the previous
    quarter, [Y] is never defined, [PRMIP = X + 1]. *)

Definition sample_df : DataFrame :=
  {| df_index := {[ 0; 1; 2; 3 ]};
     df_columns := {[ "X"; "Y"; "PRMIP"; "PRMIP_A" ]};
     df_cells := fun _ n =>
       if decide (n = "X") then 2%float
       else if decide (n = "PRMIP_A") then 0.5%float
       else nan |}.

Definition sample_state : state := {| data := sample_df; stdout := [] |}.

Definition eq_X : Equation :=
  {| eq_name := "X";
     eq_func := fun df t =>
       match df_at df (t - 1) "X" with
       | Some x => Returns (x * 1.5)%float
       | None => Raises "KeyError"
       end;
     eq_type := "ratio" |}.

Definition eq_Y : Equation :=
  {| eq_name := "Y"; eq_func := fun _ _ => Returns nan; eq_type := "identity" |}.

Definition eq_PRMIP : Equation :=
  {| eq_name := "PRMIP";
     eq_func := fun df t =>
       match df_at df t "X" with
       | Some x => Returns (x + 1)%float
       | None => Raises "KeyError"
       end;
     eq_type := "identity" |}.

Definition sample_solver : GaussSeidelSolver :=
  __init__ [eq_X; eq_Y; eq_PRMIP] None None None.

(** The sample registry with a budget of three passes. *)
Definition sample_solver_short : GaussSeidelSolver :=
  __init__ [eq_X; eq_Y; eq_PRMIP] (Some 3) None None.

(** An equation that reads the table: [Y = Y(-1) * 2].  On the sample
    table [Y] has no history, so the product is NaN at period 1. *)
Definition eq_Y_lagged : Equation :=
  {| eq_name := "Y";
     eq_func := fun df t =>
       match df_at df (t - 1) "Y" with
       | Some y => Returns (y * 2)%float
       | None => Raises "KeyError"
       end;
     eq_type := "identity" |}.

Definition sample_solver_lagged : GaussSeidelSolver :=
  __init__ [eq_X; eq_Y_lagged; eq_PRMIP] (Some 3) None None.

(** ** Sample data for the cost block

    Every input of the pre-solver is 1.0 at every period, except [ULCMS]
    and [ULCMSBASE], which are 0.0: all fourteen inputs are defined, and the
    ratio [ULCMS / ULCMSBASE] is [0.0 / 0.0]. *)



(** Inputs at their base values. *)
Definition cost_base_inputs : cost_inputs float :=
  {| ULCMS := 1%float; PMNOG := 1%float; PMS := 1%float; PBRENT := 1%float;
     RXD := 1%float; BPAPS := 1%float; GVA := 1%float; PPIY := 1%float;
     ULCMSBASE := 1%float; PMNOGBASE := 1%float; PMSBASE := 1%float;
     OILBASE := 1%float; TXRATEBASE := 1%float; PPIYBASE := 1%float |}.


(** ** Which exceptions a piece of code lets out *)

(** Every exception [m] raises satisfies [P]. *)
Definition raises_only {A} (P : exn -> Prop) (m : M A) : Prop :=
  forall st, match (m st).1 with Raise e => P e | Ok _ => True end.

(** A [KeyError] for a label of row [t] or of the row before it. *)
Definition key_error_near (t : Z) (e : exn) : Prop :=
  exists name, e = KeyError t name \/ e = KeyError (t - 1) name.

(** The periods [start_period .. end_period], in order. *)
Definition period_range (t0 t1 : Z) : list Z :=
  map (fun k => t0 + Z.of_nat k) (seq 0 (Z.to_nat (t1 - t0 + 1))).

(** ** The starting guess of a period *)

(** The value [_initialise_period] leaves for [name] at period [t]: the
    stored value when it is defined, else the previous quarter's when that
    is defined, else [1.0]. *)
Definition seed_value (df : DataFrame) (t : Z) (name : string) : float :=
  let prev_or_one :=
    match df_at df (t - 1) name with
    | Some prev_val => if is_nan prev_val then 1%float else prev_val
    | None => 1%float
    end in
  match df_at df t name with
  | Some x => if is_nan x then prev_or_one else x
  | None => prev_or_one
  end.

(** The cell [(t, name)] holds a number. *)
Definition defined_at (df : DataFrame) (t : Z) (name : string) : Prop :=
  exists x, df_at df t name = Some x /\ is_nan x = false.

(** ** What a quiet run prints *)

(** The warning of a period between [t0] and [t1], for this solver's budget. *)
Definition is_warning_of (self : GaussSeidelSolver) (t0 t1 : Z) (e : event) : bool :=
  match e with
  | PrintWarning t n _ _ => (t0 <=? t) && (t <=? t1) && (n =? max_iter self)
  | _ => false
  end.

(** The period a warning is about. *)
Definition warning_period (e : event) : option Z :=
  match e with PrintWarning t _ _ _ => Some t | _ => None end.

(** The periods [ts] lie within [lo .. hi] and increase strictly. *)
Fixpoint increasing_within (lo hi : Z) (ts : list Z) : Prop :=
  match ts with
  | [] => True
  | t :: rest => lo <= t <= hi /\ increasing_within (t + 1) hi rest
  end.

(** ** Values that stay as they are *)

(** Labels are only added, and every cell that exists outside the rows
    [t0 .. t1] keeps its value. *)
Definition keeps_outside (t0 t1 : Z) (df df' : DataFrame) : Prop :=
  df_le df df'
  /\ forall t' name x,
       ~ (t0 <= t' <= t1) -> df_at df t' name = Some x -> df_at df' t' name = Some x.

(** ** Tables that agree up to a period *)

(** [df] and [df'] cannot be told apart by reading rows up to [t]: they
    have the same columns, the same rows up to [t] and the same cells
    there. *)
Definition agree_upto (t : Z) (df df' : DataFrame) : Prop :=
  df_columns df = df_columns df'
  /\ (forall t', t' <= t -> (t' ∈ df_index df <-> t' ∈ df_index df'))
  /\ (forall t' name, t' <= t -> df_at df t' name = df_at df' t' name).

(** Evaluated at period [t], the equation reads no later period. *)
Definition no_lookahead_at (t : Z) (eq : Equation) : Prop :=
  forall df df', agree_upto t df df' -> eq_func eq df t = eq_func eq df' t.

(** Run from two states that agree up to [t], [m] and [m'] end alike: same
    result, same output, and tables that still agree up to [t]. *)
Definition respects {A} (t : Z) (m m' : M A) : Prop :=
  forall st st',
    agree_upto t (data st) (data st') -> stdout st = stdout st' ->
    (m st).1 = (m' st').1
    /\ agree_upto t (data (m st).2) (data (m' st').2)
    /\ stdout (m st).2 = stdout (m' st').2.

(** A table that differs from [sample_df] in its last row only. *)
Definition sample_df_later : DataFrame :=
  {| df_index := {[ 0; 1; 2; 3 ]};
     df_columns := {[ "X"; "Y"; "PRMIP"; "PRMIP_A" ]};
     df_cells := fun t n =>
       if decide (n = "X") then (if decide (t = 3) then 9%float else 2%float)
       else if decide (n = "PRMIP_A") then 0.5%float
       else nan |}.

(** A table over the quarters 2024Q4 to 2030Q4 with the one variable [X]
    (2.0 everywhere). *)
Definition forecast_df : DataFrame :=
  {| df_index := list_to_set (period_range (quarter 2024 4) (quarter 2030 4));
     df_columns := {[ "X" ]};
     df_cells := fun _ _ => 2%float |}.

(* ================================================================== *)
(** * Properties *)
(* ================================================================== *)

(** ** binary64 facts, from the specification of the primitive floats *)

Lemma SFltb_irrefl (x : spec_float) : SFltb x x = false.
Proof.
  unfold SFltb, SFcompare.
  destruct x as [[]|[]| |[] m e]; try reflexivity;
    rewrite Z.compare_refl;
    change (Pos.compare_cont Eq m m) with (Pos.compare m m);
    rewrite Pos.compare_refl; reflexivity.
Qed.

Lemma SFltb_trans (x y z : spec_float) :
  SFltb x y = true -> SFltb y z = true -> SFltb x z = true.
Proof.
  unfold SFltb, SFcompare.
  destruct x as [[]|[]| |[] m1 e1], y as [[]|[]| |[] m2 e2],
           z as [[]|[]| |[] m3 e3];
    try discriminate; try reflexivity;
    change (Pos.compare_cont Eq m1 m2) with (Pos.compare m1 m2);
    change (Pos.compare_cont Eq m2 m3) with (Pos.compare m2 m3);
    change (Pos.compare_cont Eq m1 m3) with (Pos.compare m1 m3);
    destruct (Z.compare_spec e1 e2), (Z.compare_spec e2 e3),
             (Z.compare_spec e1 e3);
    destruct (Pos.compare_spec m1 m2), (Pos.compare_spec m2 m3),
             (Pos.compare_spec m1 m3);
    simpl; try discriminate; try reflexivity; lia.
Qed.

Lemma ltb_irrefl (x : float) : PrimFloat.ltb x x = false.
Proof. rewrite FloatAxioms.ltb_spec. apply SFltb_irrefl. Qed.

Lemma ltb_trans (x y z : float) :
  PrimFloat.ltb x y = true -> PrimFloat.ltb y z = true -> PrimFloat.ltb x z = true.
Proof. rewrite !FloatAxioms.ltb_spec. apply SFltb_trans. Qed.

Lemma SFeqb_refl (x : spec_float) : x <> S754_nan -> SFeqb x x = true.
Proof.
  unfold SFeqb, SFcompare.
  destruct x as [[]|[]| |[] m e]; try reflexivity; try congruence; intros _;
    rewrite Z.compare_refl;
    change (Pos.compare_cont Eq m m) with (Pos.compare m m);
    rewrite Pos.compare_refl; reflexivity.
Qed.

Lemma is_nan_spec (x : float) : is_nan x = true <-> Prim2SF x = S754_nan.
Proof.
  unfold is_nan. rewrite FloatAxioms.eqb_spec. split.
  - intros E. destruct (Prim2SF x) eqn:Ex; try reflexivity;
      rewrite SFeqb_refl in E; discriminate.
  - intros ->. reflexivity.
Qed.

Lemma is_finite_spec (x : float) :
  is_finite x = true ->
  (exists s, Prim2SF x = S754_zero s) \/ (exists s m e, Prim2SF x = S754_finite s m e).
Proof.
  unfold is_finite, is_nan, is_inf. rewrite !FloatAxioms.eqb_spec.
  change (Prim2SF infinity) with (S754_infinity false).
  change (Prim2SF neg_infinity) with (S754_infinity true).
  destruct (Prim2SF x) as [s|[]| |s m e]; try discriminate; eauto.
Qed.

(** Adding a zero of either sign leaves the number unchanged. *)
Lemma add_zero_same_number (p z : float) (s : bool) :
  Prim2SF z = S754_zero s -> same_number (p + z)%float p = true.
Proof.
  intros Ez. unfold same_number, is_nan. rewrite !FloatAxioms.eqb_spec, add_spec, Ez.
  destruct (Prim2SF p) as [[]|[]| |sp m e] eqn:Ep; destruct s; cbn;
    try reflexivity;
    unfold SFeqb, SFcompare;
    rewrite Z.compare_refl;
    change (Pos.compare_cont Eq m m) with (Pos.compare m m);
    rewrite Pos.compare_refl; destruct sp; reflexivity.
Qed.

(** A finite number times [0.0] is a zero. *)
Lemma mul_zero_is_zero (w : float) :
  is_finite w = true -> exists s, Prim2SF (w * 0)%float = S754_zero s.
Proof.
  intros Hw. rewrite mul_spec.
  change (Prim2SF 0) with (S754_zero false).
  destruct (is_finite_spec w Hw) as [[s ->]|(s & m & e & ->)]; cbn; eauto.
Qed.

(** ** The constructor *)

Lemma float_or_nonzero (x : option float) (default : float) :
  PrimFloat.eqb default 0 = false -> PrimFloat.eqb (float_or x default) 0 = false.
Proof.
  intros Hd. destruct x as [v|]; simpl; [|exact Hd].
  destruct (PrimFloat.eqb v 0) eqn:Ev; [exact Hd|exact Ev].
Qed.

(** C9. Passing [0] for [max_iter], or a float equal to zero ([0.0] or
    [-0.0]) for [tolerance] or [damping], configures the default 200, 1e-8 or
    0.7: the constructor's [x or default] treats a falsy argument as absent.
    Whatever is passed, the configured damping factor is never zero. *)
Theorem C9_falsy_arguments_give_defaults
    (eqs : list Equation) (mi : option Z) (tl dm : option float) (z : float) :
  PrimFloat.eqb z 0 = true ->
  max_iter (__init__ eqs (Some 0) tl dm) = 200
  /\ tol (__init__ eqs mi (Some z) dm) = 1e-8%float
  /\ damping (__init__ eqs mi tl (Some z)) = 0.7%float
  /\ PrimFloat.eqb (damping (__init__ eqs mi tl dm)) 0 = false.
Proof.
  intros Hz. unfold __init__; simpl. rewrite Hz.
  repeat split; try reflexivity.
  apply float_or_nonzero. reflexivity.
Qed.

Lemma C9_witness :
  max_iter (__init__ [] (Some 0) None None) = 200
  /\ tol (__init__ [] None (Some (-0)%float) None) = 1e-8%float
  /\ damping (__init__ [] None None (Some (-0)%float)) = 0.7%float
  /\ PrimFloat.eqb (damping (__init__ [] None None None)) 0 = false.
Proof.
  apply (C9_falsy_arguments_give_defaults [] None None None (-0)%float).
  reflexivity.
Defined.

(** ** The damping blend *)

(** C7, as stated, fails on binary64: with the default damping 0.7 and an
    equation that returns exactly the old value, the stored blend is one
    unit in the last place above both the old and the computed value. *)
Lemma C7_counterexample :
  let d := SOLVER_DAMPING in
  let old := 0x1.722c06a33558dp+0%float in
  let computed := 0x1.722c06a33558dp+0%float in
  PrimFloat.leb 0 d = true /\ PrimFloat.leb d 1 = true
  /\ damped_val d computed old = 0x1.722c06a33558ep+0%float
  /\ between old computed (damped_val d computed old) = false.
Proof. vm_compute. repeat split. Qed.

(** C7 (amended). Read in exact arithmetic, the blend
    [d * computed + (1 - d) * old] with [0 <= d <= 1] lies between the old
    and the computed value, inclusive. *)
Theorem C7_damping_bound_exact (d old computed : Q) :
  (0 <= d)%Q -> (d <= 1)%Q ->
  (Qmin old computed <= damped_val d computed old)%Q
  /\ (damped_val d computed old <= Qmax old computed)%Q.
Proof.
  intros Hd0 Hd1.
  unfold damped_val; cbn [fadd fsub fmul of_int exact].
  change (inject_Z 1) with 1%Q.
  destruct (Qlt_le_dec old computed) as [Hlt|Hle].
  - apply Qlt_le_weak in Hlt.
    rewrite (Q.min_l _ _ Hlt), (Q.max_r _ _ Hlt). split; nra.
  - rewrite (Q.min_r _ _ Hle), (Q.max_l _ _ Hle). split; nra.
Qed.

Lemma C7_witness :
  (Qmin 2 4 <= damped_val (7 # 10) 4 2)%Q
  /\ (damped_val (7 # 10) 4 2 <= Qmax 2 4)%Q.
Proof.
  apply (C7_damping_bound_exact (7 # 10) 2 4); unfold Qle; simpl; lia.
Defined.

(** ** Stepping through monadic code *)

Lemma bind_Ok {A B} (m : M A) (k : A -> M B) (s s' : state) (a : A) :
  m s = (Ok a, s') -> (m ≫= k) s = k a s'.
Proof. intros E. unfold mbind, M_bind. rewrite E. reflexivity. Qed.

Lemma bind_Raise {A B} (m : M A) (k : A -> M B) (s s' : state) (e : exn) :
  m s = (Raise e, s') -> (m ≫= k) s = (Raise e, s').
Proof. intros E. unfold mbind, M_bind. rewrite E. reflexivity. Qed.

Lemma at_get_Some (s : state) (t : Z) (name : string) (x : float) :
  df_at (data s) t name = Some x -> at_get t name s = (Ok x, s).
Proof. intros E. unfold at_get, get_data, mbind, M_bind. rewrite E. reflexivity. Qed.

Lemma at_get_None (s : state) (t : Z) (name : string) :
  df_at (data s) t name = None -> at_get t name s = (Raise (KeyError t name), s).
Proof. intros E. unfold at_get, get_data, mbind, M_bind. rewrite E. reflexivity. Qed.

Lemma df_at_Some_iff (df : DataFrame) (t : Z) (name : string) :
  (t ∈ df_index df /\ name ∈ df_columns df) <-> df_at df t name = Some (df_cells df t name).
Proof.
  unfold df_at, has_row, has_column. split.
  - intros [Ht Hn]. rewrite !bool_decide_eq_true_2 by assumption. reflexivity.
  - destruct (bool_decide (t ∈ df_index df)) eqn:E1; [|discriminate].
    destruct (bool_decide (name ∈ df_columns df)) eqn:E2; [|discriminate].
    intros _. split; eapply bool_decide_eq_true_1; eassumption.
Qed.

Lemma df_set_at_index df t name v : df_index (df_set_at df t name v) = {[ t ]} ∪ df_index df.
Proof. reflexivity. Qed.

Lemma cells_exist_set_at df t eqs name v :
  cells_exist df t eqs -> cells_exist (df_set_at df t name v) t eqs.
Proof.
  intros [Ht Hc]. split; cbn.
  - apply elem_of_union_r, Ht.
  - intros eq Hin. apply elem_of_union_r, Hc, Hin.
Qed.

Lemma sweep_equation_spec self t verbose eq tr st :
  t ∈ df_index (data st) -> eq_name eq ∈ df_columns (data st) ->
  exists out,
    sweep_equation self t verbose eq tr st =
      (Ok (match update_of self t eq (data st) with
           | Some (o, v) => if tracked (eq_name eq, o, v) then track tr (eq_name eq, o, v) else tr
           | None => tr
           end),
       {| data := match update_of self t eq (data st) with
                  | Some (o, v) => df_set_at (data st) t (eq_name eq) v
                  | None => data st
                  end;
          stdout := stdout st ++ out |})
    /\ forallb (fun e => negb (is_warning e)) out = true.
Proof.
  intros Ht Hn.
  pose proof (proj1 (df_at_Some_iff _ _ _) (conj Ht Hn)) as Hat.
  unfold sweep_equation, update_of. rewrite Hat.
  rewrite (bind_Ok _ _ _ _ _ (at_get_Some _ _ _ _ Hat)).
  unfold get_data at 1. unfold mbind at 1, M_bind at 1.
  destruct (eq_func eq (data st) t) as [msg| |new_val].
  - destruct verbose.
    + exists [PrintError (eq_name eq) msg]. split; reflexivity.
    + exists []. split; [|reflexivity].
      unfold mbind, M_bind, mret, M_ret. rewrite app_nil_r. destruct st; reflexivity.
  - exists []. split; [|reflexivity].
    unfold mret, M_ret. rewrite app_nil_r. destruct st; reflexivity.
  - exists []. split; [|reflexivity]. rewrite app_nil_r.
    destruct (is_nan new_val || is_inf new_val).
    + unfold mret, M_ret. destruct st; reflexivity.
    + unfold at_set, put_data, get_data, mbind, M_bind, mret, M_ret. simpl.
      unfold tracked, track, rel_change_of, old_val_of. simpl.
      destruct (PrimFloat.ltb _ (PrimFloat.abs _)); [|reflexivity].
      destruct (PrimFloat.ltb (max_change tr) _); reflexivity.
Qed.

Lemma sweep_equations_spec self t verbose eqs :
  forall tr st,
    cells_exist (data st) t eqs ->
    exists out,
      sweep_equations self t verbose eqs tr st =
        (Ok (fold_left track (List.filter tracked (sweep_updates self t eqs (data st))) tr),
         {| data := fold_left (store_update t) (sweep_updates self t eqs (data st)) (data st);
            stdout := stdout st ++ out |})
      /\ forallb (fun e => negb (is_warning e)) out = true.
Proof.
  induction eqs as [|eq rest IH]; intros tr st Hc.
  - exists []. split; [|reflexivity].
    cbn. unfold mret, M_ret. rewrite app_nil_r. destruct st; reflexivity.
  - destruct Hc as [Ht Hcols].
    destruct (sweep_equation_spec self t verbose eq tr st Ht) as (out1 & E1 & Hw1).
    { apply Hcols. left. reflexivity. }
    cbn [sweep_equations sweep_updates].
    rewrite (bind_Ok _ _ _ _ _ E1). clear E1.
    destruct (update_of self t eq (data st)) as [[o v]|].
    + cbn [List.filter fold_left store_update].
      match goal with |- context [sweep_equations _ _ _ _ ?tr' ?st'] =>
        destruct (IH tr' st') as (out2 & E2 & Hw2) end.
      { cbn [data]. apply cells_exist_set_at. split; [exact Ht|].
        intros eq' Hin. apply Hcols. right. exact Hin. }
      exists (out1 ++ out2)%list. rewrite E2. cbn [data stdout].
      rewrite <- app_assoc, forallb_app, Hw1, Hw2.
      destruct (tracked (eq_name eq, o, v)); split; reflexivity.
    + match goal with |- context [sweep_equations _ _ _ _ ?tr' ?st'] =>
        destruct (IH tr' st') as (out2 & E2 & Hw2) end.
      { cbn [data]. split; [exact Ht|]. intros eq' Hin. apply Hcols. right. exact Hin. }
      exists (out1 ++ out2)%list. rewrite E2. cbn [data stdout].
      rewrite <- app_assoc, forallb_app, Hw1, Hw2. split; reflexivity.
Qed.

(** ** The running maximum kept by a sweep *)

Lemma track_keeps_bound (tr : tracker) (u : string * float * float) (x : float) :
  PrimFloat.ltb (max_change tr) x = false ->
  PrimFloat.ltb (max_change (track tr u)) x = false.
Proof.
  intros Hb. unfold track.
  destruct (PrimFloat.ltb (max_change tr) (rel_change_of u)) eqn:E; [|exact Hb].
  simpl. destruct (PrimFloat.ltb (rel_change_of u) x) eqn:E'; [|reflexivity].
  rewrite (ltb_trans _ _ _ E E') in Hb. discriminate.
Qed.

Lemma fold_track_keeps_bound (us : list (string * float * float)) :
  forall (tr : tracker) (x : float),
    PrimFloat.ltb (max_change tr) x = false ->
    PrimFloat.ltb (max_change (fold_left track us tr)) x = false.
Proof.
  induction us as [|u us IH]; intros tr x Hb; simpl; [exact Hb|].
  apply IH, track_keeps_bound, Hb.
Qed.

Lemma fold_track_upper_bound (us : list (string * float * float)) :
  forall (tr : tracker) (u : string * float * float),
    In u us ->
    PrimFloat.ltb (max_change (fold_left track us tr)) (rel_change_of u) = false.
Proof.
  induction us as [|u' us IH]; intros tr u Hin; [destruct Hin|].
  simpl. destruct Hin as [->|Hin]; [|apply IH, Hin].
  apply fold_track_keeps_bound. unfold track.
  destruct (PrimFloat.ltb (max_change tr) (rel_change_of u)) eqn:E; [|exact E].
  simpl. apply ltb_irrefl.
Qed.

Lemma fold_track_attained (us : list (string * float * float)) :
  forall tr : tracker,
    fold_left track us tr = tr
    \/ exists u, In u us
         /\ fold_left track us tr
            = {| max_change := rel_change_of u; worst_var := fst (fst u) |}.
Proof.
  induction us as [|u us IH]; intros tr; simpl; [left; reflexivity|].
  destruct (IH (track tr u)) as [E|(u' & Hin & E)].
  - rewrite E. unfold track.
    destruct (PrimFloat.ltb (max_change tr) (rel_change_of u)).
    + right. exists u. split; [left|]; reflexivity.
    + left. reflexivity.
  - right. exists u'. split; [right; exact Hin|exact E].
Qed.

(** ** Cells of the table *)

Lemma df_at_Some_inv (df : DataFrame) (t : Z) (name : string) (x : float) :
  df_at df t name = Some x ->
  t ∈ df_index df /\ name ∈ df_columns df /\ x = df_cells df t name.
Proof.
  unfold df_at, has_row, has_column.
  destruct (bool_decide (t ∈ df_index df)) eqn:E1; [|discriminate].
  destruct (bool_decide (name ∈ df_columns df)) eqn:E2; [|discriminate].
  intros [= <-]. apply bool_decide_eq_true_1 in E1, E2. auto.
Qed.

Lemma df_at_set_at_same (df : DataFrame) (t : Z) (name : string) (v : float) :
  df_at (df_set_at df t name v) t name = Some v.
Proof.
  unfold df_at, has_row, has_column, df_set_at. cbn.
  rewrite !bool_decide_eq_true_2 by (apply elem_of_union_l, elem_of_singleton; reflexivity).
  cbn. rewrite decide_True by auto. reflexivity.
Qed.

(** Membership after a label is added that was present already. *)
Lemma elem_of_add_present `{Countable K} (x y : K) (X : gset K) :
  y ∈ X -> x ∈ {[ y ]} ∪ X <-> x ∈ X.
Proof.
  intros Hy. rewrite elem_of_union, elem_of_singleton. split.
  - intros [->|Hx]; assumption.
  - intros Hx. right. exact Hx.
Qed.

Lemma bool_decide_add_present `{Countable K} (x y : K) (X : gset K) :
  y ∈ X -> bool_decide (x ∈ {[ y ]} ∪ X) = bool_decide (x ∈ X).
Proof. intros Hy. apply bool_decide_ext, elem_of_add_present, Hy. Qed.

(** Writing a cell that exists changes no other cell and adds no label. *)
Lemma df_at_set_at_other (df : DataFrame) (t t' : Z) (name name' : string) (v : float) :
  t ∈ df_index df -> name ∈ df_columns df ->
  ~ (t' = t /\ name' = name) ->
  df_at (df_set_at df t name v) t' name' = df_at df t' name'.
Proof.
  intros Ht Hn Hne. unfold df_at, df_set_at. cbn. unfold has_row, has_column. cbn.
  rewrite (decide_False (P := t' = t ∧ name' = name)) by exact Hne.
  rewrite (bool_decide_add_present _ _ _ Ht), (bool_decide_add_present _ _ _ Hn).
  destruct (bool_decide (t' ∈ df_index df) && bool_decide (name' ∈ df_columns df));
    reflexivity.
Qed.

(** A cell that exists keeps its value when another cell is written, also
    when the write adds a label. *)
Lemma df_at_set_at_preserved (df : DataFrame) (t t' : Z) (name name' : string)
    (v x : float) :
  df_at df t' name' = Some x ->
  ~ (t' = t /\ name' = name) ->
  df_at (df_set_at df t name v) t' name' = Some x.
Proof.
  intros Hx Hne. destruct (df_at_Some_inv _ _ _ _ Hx) as (Ht' & Hn' & ->).
  unfold df_at, df_set_at. cbn. unfold has_row, has_column. cbn.
  rewrite (decide_False (P := t' = t ∧ name' = name)) by exact Hne.
  rewrite (bool_decide_eq_true_2 (t' ∈ {[t]} ∪ df_index df)) by (apply elem_of_union_r, Ht').
  rewrite (bool_decide_eq_true_2 (name' ∈ {[name]} ∪ df_columns df))
    by (apply elem_of_union_r, Hn').
  rewrite (bool_decide_eq_true_2 _ Ht'), (bool_decide_eq_true_2 _ Hn'). reflexivity.
Qed.

(** ** One equation of a sweep *)

Lemma update_of_failed self t eq df :
  failed (eq_func eq df t) = true -> update_of self t eq df = None.
Proof.
  unfold update_of, failed. intros Hf.
  destruct (df_at df t (eq_name eq)); [|reflexivity].
  destruct (eq_func eq df t); try reflexivity.
  rewrite Hf. reflexivity.
Qed.

(** C8. An equation whose evaluation raises, or returns [None], NaN or an
    infinity, leaves the table unchanged and the tracker as it was, and the
    sweep goes on with the next equation of the registry: the sweep of
    [eq :: rest] is the sweep of [rest].  Only standard output can differ,
    by the error line printed in verbose mode. *)
Theorem C8_failing_equation_is_skipped
    self t verbose eq rest tr st old :
  df_at (data st) t (eq_name eq) = Some old ->
  failed (eq_func eq (data st) t) = true ->
  exists out,
    sweep_equation self t verbose eq tr st
      = (Ok tr, {| data := data st; stdout := stdout st ++ out |})
    /\ sweep_equations self t verbose (eq :: rest) tr st
       = sweep_equations self t verbose rest tr
           {| data := data st; stdout := stdout st ++ out |}
    /\ (verbose = false -> out = []).
Proof.
  intros Hat Hf.
  destruct (df_at_Some_inv _ _ _ _ Hat) as (Ht & Hn & _).
  assert (Hstep : exists out,
    sweep_equation self t verbose eq tr st
      = (Ok tr, {| data := data st; stdout := stdout st ++ out |})
    /\ (verbose = false -> out = [])).
  { unfold sweep_equation.
    rewrite (bind_Ok _ _ _ _ _ (at_get_Some _ _ _ _ Hat)).
    unfold get_data at 1. unfold mbind at 1, M_bind at 1.
    unfold failed in Hf.
    destruct (eq_func eq (data st) t) as [msg| |x].
    - destruct verbose.
      + exists [PrintError (eq_name eq) msg]. split; [reflexivity|discriminate].
      + exists []. rewrite app_nil_r. split; [destruct st; reflexivity|reflexivity].
    - exists []. rewrite app_nil_r. split; [destruct st; reflexivity|reflexivity].
    - exists []. rewrite app_nil_r, Hf. split; [destruct st; reflexivity|reflexivity]. }
  destruct Hstep as (out & E & Hout).
  exists out. split; [exact E|]. split; [|exact Hout].
  cbn [sweep_equations]. rewrite (bind_Ok _ _ _ _ _ E). reflexivity.
Qed.

Lemma C8_witness :
  exists out,
    sweep_equation sample_solver 1 false eq_Y tracker0
        sample_state
      = (Ok tracker0, {| data := sample_df; stdout := [] ++ out |})
    /\ sweep_equations sample_solver 1 false [eq_Y; eq_PRMIP] tracker0
         sample_state
       = sweep_equations sample_solver 1 false [eq_PRMIP] tracker0
           {| data := sample_df; stdout := [] ++ out |}
    /\ (false = false -> out = []).
Proof.
  apply (C8_failing_equation_is_skipped sample_solver 1 false eq_Y [eq_PRMIP] tracker0
           sample_state nan);
    vm_compute; reflexivity.
Defined.

(** C10. When the stored value of a variable is undefined (NaN) before its
    update, the sweep uses [0.0] as the old value: a successful update stores
    [damping * computed + (1 - damping) * 0.0], and the tracker is left as
    it was, since [abs(0.0) > 1e-10] is false.  The stored value is the
    number [damping * computed] (not [computed]) whenever [1 - damping] is
    finite, that is, unless the damping factor is infinite or NaN. *)
Theorem C10_undefined_old_value_is_zero
    self t verbose eq tr st old new_val :
  df_at (data st) t (eq_name eq) = Some old ->
  is_nan old = true ->
  eq_func eq (data st) t = Returns new_val ->
  is_finite new_val = true ->
  exists st',
    sweep_equation self t verbose eq tr st = (Ok tr, st')
    /\ df_at (data st') t (eq_name eq)
       = Some (damping self * new_val + (1 - damping self) * 0)%float
    /\ PrimFloat.ltb 1e-10 (PrimFloat.abs 0) = false
    /\ (is_finite (1 - damping self)%float = true ->
        same_number (damping self * new_val + (1 - damping self) * 0)%float
                    (damping self * new_val)%float = true).
Proof.
  intros Hat Hold Hret Hnew.
  destruct (df_at_Some_inv _ _ _ _ Hat) as (Ht & Hn & _).
  destruct (sweep_equation_spec self t verbose eq tr st Ht Hn) as (out & E & _).
  assert (Hu : update_of self t eq (data st)
               = Some (0%float, (damping self * new_val + (1 - damping self) * 0)%float)).
  { unfold update_of, old_val_of. rewrite Hat, Hret, Hold.
    unfold is_finite in Hnew.
    destruct (is_nan new_val), (is_inf new_val); try discriminate. reflexivity. }
  rewrite Hu in E.
  eexists. split; [|split; [|split]].
  - rewrite E. reflexivity.
  - cbn [data]. apply df_at_set_at_same.
  - reflexivity.
  - intros Hd. destruct (mul_zero_is_zero _ Hd) as [s Hs].
    exact (add_zero_same_number _ _ s Hs).
Qed.

Lemma C10_witness :
  exists st',
    sweep_equation sample_solver 1 false eq_PRMIP tracker0 sample_state = (Ok tracker0, st')
    /\ df_at (data st') 1 "PRMIP" = Some (0.7 * 3 + (1 - 0.7) * 0)%float
    /\ same_number (0.7 * 3 + (1 - 0.7) * 0)%float (0.7 * 3)%float = true.
Proof.
  destruct (C10_undefined_old_value_is_zero sample_solver 1 false eq_PRMIP tracker0
              sample_state nan 3%float) as (st' & E & Hcell & _ & Hnum);
    try (vm_compute; reflexivity).
  exists st'. split; [exact E|]. split; [exact Hcell|].
  apply Hnum. vm_compute. reflexivity.
Defined.

(** ** Labels only grow *)

Lemma df_le_refl (df : DataFrame) : df_le df df.
Proof. split; reflexivity. Qed.

Lemma df_le_trans (df1 df2 df3 : DataFrame) :
  df_le df1 df2 -> df_le df2 df3 -> df_le df1 df3.
Proof. intros [H1 H2] [H3 H4]. split; etransitivity; eassumption. Qed.

Lemma df_le_set_at df t name v : df_le df (df_set_at df t name v).
Proof. split; cbn; apply union_subseteq_r. Qed.

Lemma df_le_set_column df name v : df_le df (df_set_column df name v).
Proof. split; cbn; [reflexivity|apply union_subseteq_r]. Qed.

Lemma cells_exist_le df df' t eqs :
  df_le df df' -> cells_exist df t eqs -> cells_exist df' t eqs.
Proof.
  intros [Hi Hc] [Ht Hn]. split.
  - apply Hi, Ht.
  - intros eq Hin. apply Hc, Hn, Hin.
Qed.

Lemma has_column_true df name : has_column df name = true <-> name ∈ df_columns df.
Proof. unfold has_column. apply bool_decide_eq_true. Qed.

Lemma has_row_true df t : has_row df t = true <-> t ∈ df_index df.
Proof. unfold has_row. apply bool_decide_eq_true. Qed.

Lemma df_at_is_Some df t name :
  t ∈ df_index df -> name ∈ df_columns df -> exists x, df_at df t name = Some x.
Proof. intros Ht Hn. eexists. apply df_at_Some_iff. auto. Qed.

Lemma df_at_None_row df t name : t ∉ df_index df -> df_at df t name = None.
Proof.
  intros Ht. unfold df_at, has_row. rewrite bool_decide_eq_false_2 by exact Ht. reflexivity.
Qed.

(** ** The post-processor *)

Lemma adjust_spec (t : Z) (pair : string * string) (st : state) :
  t ∈ df_index (data st) ->
  adjust t pair st = (Ok (), {| data := adjust_data t (data st) pair; stdout := stdout st |}).
Proof.
  intros Ht. destruct pair as [var adj_var]. unfold adjust, adjust_data.
  unfold get_data at 1. unfold mbind at 1, M_bind at 1.
  destruct (has_column (data st) var) eqn:Ev; cbn [andb];
    [|destruct st; reflexivity].
  destruct (has_column (data st) adj_var) eqn:Ea; [|destruct st; reflexivity].
  apply has_column_true in Ev, Ea.
  destruct (df_at_is_Some _ _ _ Ht Ea) as [adj_val Hadj].
  destruct (df_at_is_Some _ _ _ Ht Ev) as [cur Hcur].
  rewrite Hadj, Hcur.
  rewrite (bind_Ok _ _ _ _ _ (at_get_Some _ _ _ _ Hadj)).
  destruct (is_nan adj_val); cbn [negb]; [destruct st; reflexivity|].
  rewrite (bind_Ok _ _ _ _ _ (at_get_Some _ _ _ _ Hcur)).
  reflexivity.
Qed.

Lemma adjust_data_index t df pair :
  t ∈ df_index df -> df_index (adjust_data t df pair) = df_index df.
Proof.
  intros Ht. destruct pair as [var adj_var]. unfold adjust_data.
  destruct (has_column df var && has_column df adj_var); [|reflexivity].
  destruct (df_at df t adj_var) as [adj_val|]; [|reflexivity].
  destruct (df_at df t var) as [cur|]; [|reflexivity].
  destruct (is_nan adj_val); [reflexivity|].
  cbn. apply subseteq_union_1_L, singleton_subseteq_l, Ht.
Qed.

Lemma for_each_adjust_spec (t : Z) (table : list (string * string)) :
  forall st, t ∈ df_index (data st) ->
    for_each table (adjust t) st
    = (Ok (), {| data := fold_left (adjust_data t) table (data st); stdout := stdout st |}).
Proof.
  induction table as [|pair rest IH]; intros st Ht.
  - cbn. destruct st; reflexivity.
  - cbn [for_each fold_left].
    rewrite (bind_Ok _ _ _ _ _ (adjust_spec t pair st Ht)).
    rewrite IH; [reflexivity|].
    cbn [data]. rewrite adjust_data_index; assumption.
Qed.

Lemma _apply_additive_adjustments_spec (t : Z) (st : state) :
  t ∈ df_index (data st) ->
  _apply_additive_adjustments t st
  = (Ok (), {| data := adjustments_data t (data st); stdout := stdout st |}).
Proof. apply for_each_adjust_spec. Qed.

Lemma df_at_None_column df t name : name ∉ df_columns df -> df_at df t name = None.
Proof.
  intros Hn. unfold df_at, has_column.
  rewrite (bool_decide_eq_false_2 _ Hn), andb_false_r. reflexivity.
Qed.

Lemma adjust_data_cell (t : Z) (df : DataFrame) (var adj_var : string) (t' : Z) (name : string) :
  t ∈ df_index df ->
  df_at (adjust_data t df (var, adj_var)) t' name
  = if decide (t' = t /\ name = var) then
      match df_at df t adj_var, df_at df t var with
      | Some adj_val, Some cur =>
          if is_nan adj_val then Some cur else Some (cur + adj_val)%float
      | _, _ => df_at df t' name
      end
    else df_at df t' name.
Proof.
  intros Ht. unfold adjust_data.
  destruct (has_column df var) eqn:Ev; cbn [andb].
  2:{ apply not_true_iff_false in Ev. rewrite has_column_true in Ev.
      rewrite (df_at_None_column df t var Ev).
      destruct (decide _); [|reflexivity]. destruct (df_at df t adj_var); reflexivity. }
  destruct (has_column df adj_var) eqn:Ea.
  2:{ apply not_true_iff_false in Ea. rewrite has_column_true in Ea.
      rewrite (df_at_None_column df t adj_var Ea).
      destruct (decide _); reflexivity. }
  apply has_column_true in Ev, Ea.
  destruct (df_at_is_Some _ _ _ Ht Ea) as [adj_val Hadj].
  destruct (df_at_is_Some _ _ _ Ht Ev) as [cur Hcur].
  rewrite Hadj, Hcur.
  destruct (decide (t' = t /\ name = var)) as [[-> ->]|Hne].
  - destruct (is_nan adj_val); [exact Hcur|apply df_at_set_at_same].
  - destruct (is_nan adj_val); [reflexivity|].
    apply df_at_set_at_other; assumption.
Qed.

Lemma adjustment_of_Some table name adj_var :
  adjustment_of table name = Some adj_var ->
  In name (map fst table) /\ In adj_var (map snd table).
Proof.
  induction table as [|[v a] rest IH]; cbn; [discriminate|].
  destruct (decide (name = v)) as [->|Hne].
  - intros [= <-]. auto.
  - intros E. destruct (IH E). auto.
Qed.

Lemma adjustment_of_None table name :
  ~ In name (map fst table) -> adjustment_of table name = None.
Proof.
  induction table as [|[v a] rest IH]; cbn; [reflexivity|].
  intros Hn. destruct (decide (name = v)) as [->|Hne].
  - exfalso. apply Hn. left. reflexivity.
  - apply IH. intros Hin. apply Hn. right. exact Hin.
Qed.

Lemma fold_adjust_data_cell (t : Z) (table : list (string * string)) :
  List.NoDup (map fst table) ->
  (forall v a, In v (map fst table) -> In a (map snd table) -> v <> a) ->
  forall df, t ∈ df_index df ->
  forall t' name,
    df_at (fold_left (adjust_data t) table df) t' name = adjusted_cell table df t t' name.
Proof.
  induction table as [|[v a] rest IH]; intros Hnd Hdisj df Ht t' name.
  - cbn. unfold adjusted_cell. cbn. destruct (decide (t' = t)); reflexivity.
  - cbn [fold_left]. cbn [map fst snd] in Hnd, Hdisj.
    apply List.NoDup_cons_iff in Hnd. destruct Hnd as [Hv Hnd].
    rewrite IH.
    2: exact Hnd.
    2:{ intros v' a' Hv' Ha'. apply Hdisj; right; assumption. }
    2:{ rewrite adjust_data_index; assumption. }
    unfold adjusted_cell. cbn [adjustment_of].
    destruct (decide (t' = t)) as [->|Htt].
    + destruct (decide (name = v)) as [->|Hname].
      * rewrite (adjustment_of_None rest v Hv).
        rewrite (adjust_data_cell t df v a t v Ht).
        rewrite decide_True by auto. reflexivity.
      * destruct (adjustment_of rest name) as [adj'|] eqn:Eadj.
        -- destruct (adjustment_of_Some _ _ _ Eadj) as [Hin1 Hin2].
           rewrite !(adjust_data_cell t df v a t _ Ht).
           rewrite (decide_False (P := t = t /\ name = v)) by (intros [_ ?]; contradiction).
           rewrite (decide_False (P := t = t /\ adj' = v)).
           { reflexivity. }
           intros [_ ->]. eapply (Hdisj v v); [left; reflexivity|right; exact Hin2|reflexivity].
        -- rewrite (adjust_data_cell t df v a t name Ht).
           rewrite decide_False by (intros [_ ?]; contradiction). reflexivity.
    + rewrite (adjust_data_cell t df v a t' name Ht).
      rewrite decide_False by (intros [? _]; contradiction). reflexivity.
Qed.

Lemma adjustments_data_cell (t : Z) (df : DataFrame) (t' : Z) (name : string) :
  t ∈ df_index df ->
  df_at (adjustments_data t df) t' name = adjusted_cell ADDITIVE_ADJUSTMENTS df t t' name.
Proof.
  intros Ht. apply fold_adjust_data_cell; [| |exact Ht].
  - cbn. repeat (apply List.NoDup_cons; [cbn; intuition discriminate|]). apply List.NoDup_nil.
  - cbn. intros v a Hv Ha.
    repeat (destruct Hv as [<-|Hv]; [repeat (destruct Ha as [<-|Ha]; [discriminate|]); destruct Ha|]).
    destruct Hv.
Qed.

(** ** Postconditions of the monad's operations *)

Lemma wp_run {A} (m : M A) (Q : result A -> state -> Prop) st r st' :
  wp m Q st -> m st = (r, st') -> Q r st'.
Proof. unfold wp. intros HQ E. rewrite E in HQ. exact HQ. Qed.

Lemma wp_conseq {A} (m : M A) (Q Q' : result A -> state -> Prop) st :
  wp m Q st -> (forall r s, Q r s -> Q' r s) -> wp m Q' st.
Proof. unfold wp. auto. Qed.

Lemma wp_ret {A} (a : A) (Q : result A -> state -> Prop) st :
  Q (Ok a) st -> wp (mret a) Q st.
Proof. exact (fun H => H). Qed.

Lemma wp_raise {A} (e : exn) (Q : result A -> state -> Prop) st :
  Q (Raise e) st -> wp (raise e) Q st.
Proof. exact (fun H => H). Qed.

Lemma wp_bind {A B} (m : M A) (k : A -> M B) (Q : result B -> state -> Prop) st :
  wp m (fun r s => match r with
                   | Ok a => wp (k a) Q s
                   | Raise e => Q (Raise e) s
                   end) st ->
  wp (m ≫= k) Q st.
Proof.
  unfold wp, mbind, M_bind. destruct (m st) as [[a|e] s]; cbn; auto.
Qed.

Lemma wp_try_except {A} (body : M A) (handler : exn -> M A)
    (Q : result A -> state -> Prop) st :
  wp body (fun r s => match r with
                      | Ok a => Q (Ok a) s
                      | Raise e => wp (handler e) Q s
                      end) st ->
  wp (try_except body handler) Q st.
Proof.
  unfold wp, try_except. destruct (body st) as [[a|e] s]; cbn; auto.
Qed.

Lemma wp_get_data (Q : result DataFrame -> state -> Prop) st :
  Q (Ok (data st)) st -> wp get_data Q st.
Proof. exact (fun H => H). Qed.

Lemma wp_print (e : event) (Q : result unit -> state -> Prop) st :
  Q (Ok ()) {| data := data st; stdout := stdout st ++ [e] |} -> wp (print e) Q st.
Proof. exact (fun H => H). Qed.

Lemma wp_at_get (t : Z) (name : string) (Q : result float -> state -> Prop) st :
  (forall x, df_at (data st) t name = Some x -> Q (Ok x) st) ->
  (df_at (data st) t name = None -> Q (Raise (KeyError t name)) st) ->
  wp (at_get t name) Q st.
Proof.
  intros HS HN. unfold wp, at_get, get_data, mbind, M_bind.
  destruct (df_at (data st) t name) as [x|]; cbn; auto.
Qed.

Lemma wp_at_set (t : Z) (name : string) (v : float)
    (Q : result unit -> state -> Prop) st :
  Q (Ok ()) {| data := df_set_at (data st) t name v; stdout := stdout st |} ->
  wp (at_set t name v) Q st.
Proof. exact (fun H => H). Qed.

Lemma wp_set_column (name : string) (v : float)
    (Q : result unit -> state -> Prop) st :
  Q (Ok ()) {| data := df_set_column (data st) name v; stdout := stdout st |} ->
  wp (set_column name v) Q st.
Proof. exact (fun H => H). Qed.

(** ** Frames *)

Lemma row_frame_refl t df : row_frame t df df.
Proof. repeat split. Qed.

Lemma row_frame_trans t df1 df2 df3 :
  row_frame t df1 df2 -> row_frame t df2 df3 -> row_frame t df1 df3.
Proof.
  intros (Hi & Hc & Hr) (Hi' & Hc' & Hr'). split; [|split].
  - congruence.
  - congruence.
  - intros t' name Hne. rewrite Hr', Hr by exact Hne. reflexivity.
Qed.

(** Writing a cell that exists keeps the labels and the other rows. *)
Lemma row_frame_set_at df t name v :
  t ∈ df_index df -> name ∈ df_columns df -> row_frame t df (df_set_at df t name v).
Proof.
  intros Ht Hn. split; [|split].
  - cbn. apply subseteq_union_1_L, singleton_subseteq_l, Ht.
  - cbn. apply subseteq_union_1_L, singleton_subseteq_l, Hn.
  - intros t' name' Hne. apply df_at_set_at_other; [exact Ht|exact Hn|].
    intros [? _]. contradiction.
Qed.

Lemma row_frame_le t df df' : row_frame t df df' -> df_le df df'.
Proof. intros (Hi & Hc & _). split; [rewrite Hi|rewrite Hc]; reflexivity. Qed.

Lemma settled_frame self t df df' :
  row_frame t df df' -> settled self df -> settled self df'.
Proof.
  intros (_ & Hc & _) [He Hk]. split.
  - intros name Hin. rewrite Hc. apply He, Hin.
  - unfold cost_columns_closed in *. rewrite Hc. exact Hk.
Qed.

(** ** The post-processor writes row [t] only *)

Lemma adjust_frame (t : Z) (pair : string * string) st :
  wp (adjust t pair)
     (fun _ s => row_frame t (data st) (data s) /\ stdout s = stdout st) st.
Proof.
  destruct pair as [var adj_var]. unfold adjust.
  apply wp_bind, wp_get_data.
  destruct (has_column (data st) var && has_column (data st) adj_var) eqn:Ec.
  2:{ apply wp_ret. split; [apply row_frame_refl|reflexivity]. }
  apply andb_prop in Ec. destruct Ec as [Ev _]. apply has_column_true in Ev.
  apply wp_bind, wp_at_get.
  2:{ intros _. split; [apply row_frame_refl|reflexivity]. }
  intros adj_val Hadj. destruct (is_nan adj_val); cbn [negb].
  { apply wp_ret. split; [apply row_frame_refl|reflexivity]. }
  apply wp_bind, wp_at_get.
  2:{ intros _. split; [apply row_frame_refl|reflexivity]. }
  intros cur Hcur. apply wp_at_set. cbn [data stdout].
  destruct (df_at_Some_inv _ _ _ _ Hcur) as (Ht & _ & _).
  split; [apply row_frame_set_at; assumption|reflexivity].
Qed.

Lemma for_each_frame {A} (t : Z) (body : A -> M unit) (l : list A) :
  (forall x st, wp (body x)
     (fun _ s => row_frame t (data st) (data s) /\ stdout s = stdout st) st) ->
  forall st, wp (for_each l body)
     (fun _ s => row_frame t (data st) (data s) /\ stdout s = stdout st) st.
Proof.
  intros Hbody. induction l as [|x xs IH]; intros st.
  - apply wp_ret. split; [apply row_frame_refl|reflexivity].
  - cbn [for_each]. apply wp_bind.
    eapply wp_conseq; [apply Hbody|].
    intros [[]|e] s [Hf Ho]; [|split; assumption].
    eapply wp_conseq; [apply IH|].
    intros r s' [Hf' Ho']. split; [eapply row_frame_trans; eassumption|congruence].
Qed.

Lemma _apply_additive_adjustments_frame (t : Z) st :
  wp (_apply_additive_adjustments t)
     (fun _ s => row_frame t (data st) (data s) /\ stdout s = stdout st) st.
Proof. apply for_each_frame. intros pair st'. apply adjust_frame. Qed.

Ltac splits := repeat match goal with |- _ /\ _ => split end.

(** ** A sweep writes row [t] only *)

Lemma sweep_equation_frame self t verbose eq tr st :
  wp (sweep_equation self t verbose eq tr)
     (fun _ s => row_frame t (data st) (data s)) st.
Proof.
  unfold sweep_equation. apply wp_bind, wp_at_get.
  2:{ intros _. apply row_frame_refl. }
  intros old Hold. destruct (df_at_Some_inv _ _ _ _ Hold) as (Ht & Hn & _).
  apply wp_bind, wp_get_data.
  destruct (eq_func eq (data st) t) as [msg| |new_val].
  - apply wp_bind. destruct verbose.
    + apply wp_print, wp_ret. apply row_frame_refl.
    + apply wp_ret, wp_ret. apply row_frame_refl.
  - apply wp_ret, row_frame_refl.
  - destruct (is_nan new_val || is_inf new_val).
    + apply wp_ret, row_frame_refl.
    + apply wp_bind, wp_at_set.
      assert (Hf : row_frame t (data st)
                (df_set_at (data st) t (eq_name eq)
                   (damped_val (damping self) new_val (if is_nan old then 0%float else old))))
        by (apply row_frame_set_at; assumption).
      destruct (PrimFloat.ltb _ (PrimFloat.abs _)); [|apply wp_ret; exact Hf].
      destruct (PrimFloat.ltb (max_change tr) _); apply wp_ret; exact Hf.
Qed.

Lemma sweep_equations_frame self t verbose eqs :
  forall tr st,
    wp (sweep_equations self t verbose eqs tr)
       (fun _ s => row_frame t (data st) (data s)) st.
Proof.
  induction eqs as [|eq rest IH]; intros tr st.
  - apply wp_ret, row_frame_refl.
  - cbn [sweep_equations]. apply wp_bind.
    eapply wp_conseq; [apply sweep_equation_frame|].
    intros [tr'|e] s Hf; [|exact Hf].
    eapply wp_conseq; [apply IH|].
    intros r s' Hf'. eapply row_frame_trans; eassumption.
Qed.

Lemma sweep_frame self t verbose iteration st :
  wp (sweep self t verbose iteration)
     (fun _ s => row_frame t (data st) (data s)) st.
Proof.
  unfold sweep. apply wp_bind.
  eapply wp_conseq; [apply sweep_equations_frame|].
  intros [tr|e] s Hf; [|exact Hf].
  apply wp_bind.
  destruct (verbose && ((iteration + 1) mod 10 =? 0)).
  - apply wp_print, wp_ret. exact Hf.
  - apply wp_ret, wp_ret. exact Hf.
Qed.

Lemma frame_then_adjustments {A} (t : Z) (a : A) (df0 : DataFrame) st :
  row_frame t df0 (data st) ->
  wp (_apply_additive_adjustments t;; mret a)
     (fun _ s => row_frame t df0 (data s)) st.
Proof.
  intros Hf. apply wp_bind.
  eapply wp_conseq; [apply _apply_additive_adjustments_frame|].
  intros [[]|e] s [Hf' _].
  - apply wp_ret. eapply row_frame_trans; eassumption.
  - eapply row_frame_trans; eassumption.
Qed.

Lemma sweep_loop_frame self t verbose remaining :
  forall iteration last st,
    wp (sweep_loop self t verbose remaining iteration last)
       (fun _ s => row_frame t (data st) (data s)) st.
Proof.
  induction remaining as [|k IH]; intros iteration last st; cbn [sweep_loop].
  - destruct last as [tr|].
    + apply wp_bind, wp_print.
      apply (frame_then_adjustments t (max_iter self) (data st)).
      apply row_frame_refl.
    + apply wp_raise, row_frame_refl.
  - apply wp_bind.
    eapply wp_conseq; [apply sweep_frame|].
    intros [tr|e] s Hf; [|exact Hf].
    destruct (PrimFloat.ltb (max_change tr) (tol self)).
    + apply frame_then_adjustments, Hf.
    + eapply wp_conseq; [apply IH|].
      intros r s' Hf'. eapply row_frame_trans; eassumption.
Qed.

(** ** Initialisation *)

Lemma union_present `{Countable K} (x : K) (X : gset K) : x ∈ X -> {[ x ]} ∪ X = X.
Proof. intros Hx. apply subseteq_union_1_L, singleton_subseteq_l, Hx. Qed.

(** What [initialise_var] does in every case. *)
Lemma initialise_var_effect (t : Z) (name : string) st :
  wp (initialise_var t name)
     (fun r s =>
        stdout s = stdout st
        /\ df_index (data s) = df_index (data st)
        /\ df_columns (data s) = {[ name ]} ∪ df_columns (data st)
        /\ (name ∈ df_columns (data st) -> row_frame t (data st) (data s))
        /\ (r = Ok () -> t ∈ df_index (data st))
        /\ (t ∈ df_index (data st) -> t - 1 ∈ df_index (data st) -> r = Ok ())) st.
Proof.
  unfold initialise_var. apply wp_bind, wp_get_data. apply wp_bind.
  (* the state once the column is known to exist *)
  assert (Hcol : forall s1 : state,
    stdout s1 = stdout st ->
    df_index (data s1) = df_index (data st) ->
    df_columns (data s1) = {[ name ]} ∪ df_columns (data st) ->
    (name ∈ df_columns (data st) -> row_frame t (data st) (data s1)) ->
    wp (x ← at_get t name;
        if is_nan x
        then prev_val ← at_get (t - 1) name;
             (if negb (is_nan prev_val) then at_set t name prev_val
              else at_set t name (lit 10 1))
        else mret ())
       (fun r s =>
        stdout s = stdout st
        /\ df_index (data s) = df_index (data st)
        /\ df_columns (data s) = {[ name ]} ∪ df_columns (data st)
        /\ (name ∈ df_columns (data st) -> row_frame t (data st) (data s))
        /\ (r = Ok () -> t ∈ df_index (data st))
        /\ (t ∈ df_index (data st) -> t - 1 ∈ df_index (data st) -> r = Ok ())) s1).
  { intros s1 Ho Hi Hc Hf.
    assert (Hn1 : name ∈ df_columns (data s1))
      by (rewrite Hc; apply elem_of_union_l, elem_of_singleton; reflexivity).
    apply wp_bind, wp_at_get.
    2:{ intros Hnone. splits; try assumption; try discriminate.
        intros Ht _. exfalso. rewrite <- Hi in Ht.
        destruct (df_at_is_Some _ _ _ Ht Hn1) as [x Hx]. congruence. }
    intros x Hx. destruct (df_at_Some_inv _ _ _ _ Hx) as (Ht1 & _ & _).
    assert (Ht : t ∈ df_index (data st)) by (rewrite <- Hi; exact Ht1).
    assert (Hset : forall v,
      wp (at_set t name v)
       (fun r s =>
        stdout s = stdout st
        /\ df_index (data s) = df_index (data st)
        /\ df_columns (data s) = {[ name ]} ∪ df_columns (data st)
        /\ (name ∈ df_columns (data st) -> row_frame t (data st) (data s))
        /\ (r = Ok () -> t ∈ df_index (data st))
        /\ (t ∈ df_index (data st) -> t - 1 ∈ df_index (data st) -> r = Ok ())) s1).
    { intros v. apply wp_at_set. cbn [data stdout].
      pose proof (row_frame_set_at (data s1) t name v Ht1 Hn1) as (Hi' & Hc' & Hr').
      splits; try congruence; try (intros; assumption).
      intros Hn. eapply row_frame_trans; [exact (Hf Hn)|].
      apply row_frame_set_at; assumption. }
    destruct (is_nan x).
    - apply wp_bind, wp_at_get.
      + intros prev _. destruct (is_nan prev); apply Hset.
      + intros Hnone. splits; try assumption; try discriminate.
        intros _ Hp. exfalso. rewrite <- Hi in Hp.
        destruct (df_at_is_Some _ _ _ Hp Hn1) as [y Hy]. congruence.
    - apply wp_ret. splits; auto. }
  destruct (has_column (data st) name) eqn:En.
  - apply has_column_true in En. apply wp_ret. apply Hcol.
    + reflexivity.
    + reflexivity.
    + symmetry. apply union_present, En.
    + intros _. apply row_frame_refl.
  - apply not_true_iff_false in En. rewrite has_column_true in En.
    apply wp_set_column. apply Hcol; cbn [data stdout]; try reflexivity.
    intros Hn. contradiction.
Qed.

Lemma _initialise_period_effect_gen (t : Z) (names : list string) :
  forall st,
  wp (for_each names (initialise_var t))
     (fun r s =>
        stdout s = stdout st
        /\ df_index (data s) = df_index (data st)
        /\ df_columns (data st) ⊆ df_columns (data s)
        /\ ((forall n, In n names -> n ∈ df_columns (data st)) ->
            row_frame t (data st) (data s))
        /\ (r = Ok () -> forall n, In n names -> n ∈ df_columns (data s))
        /\ (t ∈ df_index (data st) -> t - 1 ∈ df_index (data st) -> r = Ok ())) st.
Proof.
  induction names as [|name rest IH]; intros st.
  - apply wp_ret. splits; auto.
    + intros _. apply row_frame_refl.
    + intros _ n [].
  - cbn [for_each]. apply wp_bind.
    eapply wp_conseq; [apply initialise_var_effect|].
    intros [[]|e] s (Ho & Hi & Hc & Hf & Hok & Htot).
    + eapply wp_conseq; [apply IH|].
      intros r s' (Ho' & Hi' & Hc' & Hf' & Hok' & Htot').
      splits.
      * congruence.
      * congruence.
      * etransitivity; [|exact Hc']. rewrite Hc. apply union_subseteq_r.
      * intros Hall. eapply row_frame_trans.
        -- apply Hf, Hall. left. reflexivity.
        -- apply Hf'. intros n Hin. rewrite Hc. apply elem_of_union_r, Hall. right. exact Hin.
      * intros Hr n [<-|Hin].
        -- apply Hc'. rewrite Hc. apply elem_of_union_l, elem_of_singleton. reflexivity.
        -- apply Hok'; assumption.
      * intros Ht Hp. apply Htot'; rewrite Hi; assumption.
    + splits.
      * exact Ho.
      * exact Hi.
      * rewrite Hc. apply union_subseteq_r.
      * intros Hall. apply Hf, Hall. left. reflexivity.
      * discriminate.
      * intros Ht Hp. specialize (Htot Ht Hp). discriminate.
Qed.

Lemma _initialise_period_effect self (t : Z) st :
  wp (_initialise_period self t)
     (fun r s =>
        stdout s = stdout st
        /\ df_index (data s) = df_index (data st)
        /\ df_columns (data st) ⊆ df_columns (data s)
        /\ ((forall n, In n (endogenous_vars self) -> n ∈ df_columns (data st)) ->
            row_frame t (data st) (data s))
        /\ (r = Ok () -> forall n, In n (endogenous_vars self) -> n ∈ df_columns (data s))
        /\ (t ∈ df_index (data st) -> t - 1 ∈ df_index (data st) -> r = Ok ())) st.
Proof. apply _initialise_period_effect_gen. Qed.

(** ** The cost-block pre-solver *)

Lemma linalg_solve_cost_matrix_float (b : vec3 float) :
  exists x, linalg_solve cost_matrix b = Some x.
Proof. destruct b as [[b0 b1] b2]. vm_compute. eexists. reflexivity. Qed.

Lemma read_cost_inputs_effect (t : Z) st :
  wp (read_cost_inputs t)
     (fun r s =>
        s = st
        /\ match r with
           | Ok _ => forall c, In c COST_INPUT_COLUMNS ->
                       t ∈ df_index (data st) /\ c ∈ df_columns (data st)
           | Raise _ => exists c, In c COST_INPUT_COLUMNS /\ df_at (data st) t c = None
           end) st.
Proof.
  unfold read_cost_inputs.
  repeat (apply wp_bind, wp_at_get;
          [intros ? ?
          |intros ?; split; [reflexivity|];
           eexists; split; [|eassumption]; cbn; tauto]).
  apply wp_ret. split; [reflexivity|].
  intros c Hin. cbn in Hin.
  repeat (destruct Hin as [<-|Hin];
          [match goal with
           | H : df_at _ _ ?c = Some _ |- _ ∧ ?c ∈ _ =>
               destruct (df_at_Some_inv _ _ _ _ H) as (? & ? & _); split; assumption
           end|]).
  destruct Hin.
Qed.

Lemma df_at_None_inv df t name :
  df_at df t name = None -> t ∈ df_index df -> name ∉ df_columns df.
Proof.
  intros E Ht Hn. destruct (df_at_is_Some _ _ _ Ht Hn) as [x Hx]. congruence.
Qed.

Lemma _pre_solve_cost_block_effect (t : Z) st :
  wp (_pre_solve_cost_block t)
     (fun r s =>
        r = Ok ()
        /\ stdout s = stdout st
        /\ df_index (data s) = df_index (data st)
        /\ df_columns (data st) ⊆ df_columns (data s)
        /\ (t ∈ df_index (data st) -> cost_columns_closed (data s))
        /\ (cost_columns_closed (data st) -> row_frame t (data st) (data s))) st.
Proof.
  unfold _pre_solve_cost_block. apply wp_bind, wp_get_data.
  destruct (has_column (data st) "SCOST") eqn:Es; cbn [negb].
  2:{ apply wp_ret. splits; auto.
      - intros _ Hs. apply has_column_true in Hs. congruence.
      - intros _. apply row_frame_refl. }
  apply has_column_true in Es.
  apply wp_try_except, wp_bind.
  eapply wp_conseq; [apply read_cost_inputs_effect|].
  intros [i|e] s [-> Hr].
  2:{ apply wp_ret. splits; auto.
      - intros Ht _ Hin. destruct Hr as (c & Hc & Hnone).
        exfalso. apply (df_at_None_inv _ _ _ Hnone Ht), Hin, Hc.
      - intros _. apply row_frame_refl. }
  assert (Ht : t ∈ df_index (data st)) by (apply (Hr "ULCMS"); cbn; tauto).
  destruct (linalg_solve_cost_matrix_float (cost_rhs i)) as [[[x0 x1] x2] ->].
  apply wp_bind, wp_at_set, wp_bind, wp_at_set, wp_at_set. cbn [data stdout].
  splits.
  - reflexivity.
  - reflexivity.
  - cbn. rewrite !(union_present t (df_index (data st)) Ht). reflexivity.
  - cbn. intros c Hc. apply elem_of_union_r, elem_of_union_r, elem_of_union_r, Hc.
  - intros _ _ _. cbn. split.
    + apply elem_of_union_r, elem_of_union_l, elem_of_singleton. reflexivity.
    + apply elem_of_union_l, elem_of_singleton. reflexivity.
  - intros Hk. destruct Hk as [Hcc Hut]; [exact Es|intros c Hc; apply Hr, Hc|].
    eapply row_frame_trans; [eapply row_frame_trans|].
    + apply (row_frame_set_at (data st) t "SCOST" x0); assumption.
    + apply row_frame_set_at; cbn.
      * rewrite (union_present t (df_index (data st)) Ht). exact Ht.
      * apply elem_of_union_r, Hcc.
    + apply row_frame_set_at; cbn.
      * rewrite !(union_present t (df_index (data st)) Ht). exact Ht.
      * apply elem_of_union_r, elem_of_union_r, Hut.
Qed.

(** ** One period *)

Lemma solve_period_effect self t verbose st :
  wp (solve_period self t verbose)
     (fun r s =>
        df_index (data s) = df_index (data st)
        /\ df_columns (data st) ⊆ df_columns (data s)
        /\ ((exists n, r = Ok n) -> t ∈ df_index (data st) -> settled self (data s))
        /\ (settled self (data st) -> row_frame t (data st) (data s))) st.
Proof.
  unfold solve_period. apply wp_bind.
  eapply wp_conseq; [apply _initialise_period_effect|].
  intros [[]|e] s1 (_ & Hi1 & Hc1 & Hf1 & Hok1 & _).
  2:{ splits; auto.
      - intros [n Hn]. discriminate.
      - intros [He _]. apply Hf1, He. }
  apply wp_bind.
  eapply wp_conseq; [apply _pre_solve_cost_block_effect|].
  intros r2 s2 (-> & _ & Hi2 & Hc2 & Hk2 & Hf2).
  eapply wp_conseq; [apply sweep_loop_frame|].
  intros r s3 Hf3. pose proof Hf3 as (Hi3 & Hc3 & _).
  splits.
  - congruence.
  - rewrite Hc3. etransitivity; eassumption.
  - intros _ Ht. apply (settled_frame self t _ _ Hf3). split.
    + intros name Hin. apply Hc2, Hok1; [reflexivity|exact Hin].
    + apply Hk2. rewrite Hi1. exact Ht.
  - intros Hs. pose proof Hs as [He _].
    pose proof (Hf1 He) as Hf1'.
    eapply row_frame_trans; [exact Hf1'|].
    eapply row_frame_trans; [|exact Hf3].
    apply Hf2. apply (settled_frame self t _ _ Hf1' Hs).
Qed.

(** ** A range of periods *)

Lemma solve_range_loop_effect self verbose fuel :
  forall t0 end_period results st,
  wp (solve_range_loop self fuel t0 end_period verbose results)
     (fun r s =>
        df_index (data s) = df_index (data st)
        /\ (settled self (data st) ->
            settled self (data s)
            /\ forall t name, t < t0 -> df_at (data s) t name = df_at (data st) t name)
        /\ ((exists x, r = Ok x) ->
            forall t, t0 <= t <= end_period -> (Z.to_nat (t - t0) < fuel)%nat ->
                      t ∈ df_index (data st) -> settled self (data s))) st.
Proof.
  induction fuel as [|k IH]; intros t0 end_period results st; cbn [solve_range_loop].
  - apply wp_ret. splits; auto. intros _ t _ Hlt. lia.
  - destruct (Z.leb_spec t0 end_period) as [Hle|Hgt].
    2:{ apply wp_ret. splits; auto. intros _ t Ht. lia. }
    apply wp_bind.
    assert (Hprint : forall (b : bool) (e : event) (Q : result unit -> state -> Prop) s,
              (forall out, Q (Ok ()) {| data := data s; stdout := stdout s ++ out |}) ->
              wp (if b then print e else mret ()) Q s).
    { intros b e Q s HQ. destruct b.
      - apply wp_print, HQ.
      - apply wp_ret. specialize (HQ []). rewrite app_nil_r in HQ. destruct s; exact HQ. }
    apply Hprint. intros out1. apply wp_bind.
    eapply wp_conseq; [apply solve_period_effect|]. cbn [data].
    intros [iters|e] s1 (Hi1 & Hc1 & Hs1 & Hf1).
    2:{ splits; auto.
        - intros Hs. specialize (Hf1 Hs). split; [eapply settled_frame; eassumption|].
          intros t name Hlt. apply Hf1. lia.
        - intros [x Hx]. discriminate. }
    apply wp_bind, Hprint. intros out2.
    eapply wp_conseq; [apply IH|]. cbn [data].
    intros r s2 (Hi2 & Hs2 & Hok2).
    splits.
    + congruence.
    + intros Hs. specialize (Hf1 Hs).
      destruct Hs2 as [Hs2 Hr2]; [eapply settled_frame; eassumption|].
      split; [exact Hs2|].
      intros t name Hlt. rewrite Hr2 by lia. apply Hf1. lia.
    + intros Hr t Ht Hfuel Hin.
      destruct (Z.eq_dec t t0) as [->|Hne].
      * apply Hs2. apply Hs1; [eexists; reflexivity|exact Hin].
      * apply (Hok2 Hr t); [lia| |rewrite Hi1; exact Hin].
        replace (t - (t0 + 1)) with (t - t0 - 1) by lia.
        rewrite Z2Nat.inj_sub by lia. change (Z.to_nat 1) with 1%nat. lia.
Qed.

(** ** Earlier periods are never revisited *)

Lemma bind_assoc {A B C} (m : M A) (f : A -> M B) (g : B -> M C) (st : state) :
  ((m ≫= f) ≫= g) st = (m ≫= fun x => f x ≫= g) st.
Proof.
  unfold mbind, M_bind. destruct (m st) as [[a|e] s]; reflexivity.
Qed.

Lemma bind_ext {A B} (m : M A) (f g : A -> M B) (st : state) :
  (forall a s, f a s = g a s) -> (m ≫= f) st = (m ≫= g) st.
Proof.
  intros Hfg. unfold mbind, M_bind. destruct (m st) as [[a|e] s]; [apply Hfg|reflexivity].
Qed.

(** Solving [t0 .. t2] is solving [t0 .. t1] and then [t1 + 1 .. t2]. *)
Lemma solve_range_loop_split self verbose (t1 t2 : Z) (n : nat) :
  t1 <= t2 ->
  forall t0 results st,
    t1 - t0 + 1 = Z.of_nat n ->
    solve_range_loop self (Z.to_nat (t2 - t0 + 1)) t0 t2 verbose results st
    = (solve_range_loop self n t0 t1 verbose results
         ≫= solve_range_loop self (Z.to_nat (t2 - t1)) (t1 + 1) t2 verbose) st.
Proof.
  intros H12. induction n as [|k IH]; intros t0 results st Hn.
  - cbn [solve_range_loop]. replace t0 with (t1 + 1) by lia.
    replace (t2 - (t1 + 1) + 1) with (t2 - t1) by lia. reflexivity.
  - replace (Z.to_nat (t2 - t0 + 1)) with (S (Z.to_nat (t2 - (t0 + 1) + 1))) by lia.
    cbn [solve_range_loop].
    rewrite (Zle_imp_le_bool t0 t2) by lia.
    rewrite (Zle_imp_le_bool t0 t1) by lia.
    rewrite !bind_assoc. apply bind_ext. intros [] s1.
    rewrite !bind_assoc. apply bind_ext. intros iters s2.
    rewrite !bind_assoc. apply bind_ext. intros [] s3.
    apply IH. lia.
Qed.

(** C1. Solving [t0 .. t1] and, from the same initial table, solving
    [t0 .. t2] with [t1 < t2] leave the same stored value (or the same
    absence of a cell) for every variable at every period of [t0 .. t1]:
    the longer run is the shorter one followed by the periods after [t1],
    and those write their own rows only. *)
Theorem C1_earlier_periods_unaffected self verbose st (t0 t1 t2 : Z) :
  t1 < t2 ->
  forall t name, t0 <= t <= t1 ->
    df_at (data (solve_range self t0 t1 verbose st).2) t name
    = df_at (data (solve_range self t0 t2 verbose st).2) t name.
Proof.
  intros H12 t name Ht. unfold solve_range.
  rewrite (solve_range_loop_split self verbose t1 t2 (Z.to_nat (t1 - t0 + 1)))
    by lia.
  pose proof (solve_range_loop_effect self verbose (Z.to_nat (t1 - t0 + 1))
                t0 t1 [] st) as HA.
  unfold wp in HA. unfold mbind at 1, M_bind at 1.
  destruct (solve_range_loop self (Z.to_nat (t1 - t0 + 1)) t0 t1 verbose [] st)
    as [[res|e] sA]; cbn [fst snd] in *; [|reflexivity].
  destruct HA as (HiA & _ & HsA).
  pose proof (solve_range_loop_effect self verbose (Z.to_nat (t2 - t1))
                (t1 + 1) t2 res sA) as HB.
  unfold wp in HB.
  destruct (solve_range_loop self (Z.to_nat (t2 - t1)) (t1 + 1) t2 verbose res sA)
    as [rB sB]; cbn [fst snd] in *.
  destruct HB as (HiB & HfB & _).
  destruct (decide (t ∈ df_index (data st))) as [Hin|Hout].
  - symmetry. apply HfB; [|lia].
    apply (HsA (ex_intro _ res eq_refl) t Ht); [lia|exact Hin].
  - rewrite !df_at_None_row; [reflexivity| |]; congruence.
Qed.

Lemma C1_witness :
  df_at (data (solve_range sample_solver 1 2 true sample_state).2) 2 "PRMIP"
  = df_at (data (solve_range sample_solver 1 3 true sample_state).2) 2 "PRMIP".
Proof.
  apply (C1_earlier_periods_unaffected sample_solver true sample_state 1 2 3); lia.
Defined.

(** ** Standard output is write-only *)

Lemma uniform_ret {A} (a : A) : uniform (mret a : M A).
Proof. intros pre st. reflexivity. Qed.

Lemma uniform_raise {A} (e : exn) : uniform (raise e : M A).
Proof. intros pre st. reflexivity. Qed.

Lemma uniform_bind {A B} (m : M A) (k : A -> M B) :
  uniform m -> (forall a, uniform (k a)) -> uniform (m ≫= k).
Proof.
  intros Hm Hk pre st. unfold mbind, M_bind. rewrite Hm.
  destruct (m st) as [[a|e] s]; cbn [fst snd]; [apply Hk|reflexivity].
Qed.

Lemma uniform_try_except {A} (body : M A) (handler : exn -> M A) :
  uniform body -> (forall e, uniform (handler e)) -> uniform (try_except body handler).
Proof.
  intros Hm Hk pre st. unfold try_except. rewrite Hm.
  destruct (body st) as [[a|e] s]; cbn [fst snd]; [reflexivity|apply Hk].
Qed.

Lemma uniform_get_data_bind {B} (k : DataFrame -> M B) :
  (forall df, uniform (k df)) -> uniform (get_data ≫= k).
Proof. intros Hk pre st. unfold mbind, M_bind, get_data. apply Hk. Qed.

Lemma uniform_put_data (df : DataFrame) : uniform (put_data df).
Proof. intros pre st. reflexivity. Qed.

Lemma uniform_print (e : event) : uniform (print e).
Proof.
  intros pre st. unfold print, prefixed. cbn. rewrite app_assoc. reflexivity.
Qed.

Lemma uniform_at_get (t : Z) (name : string) : uniform (at_get t name).
Proof.
  apply uniform_get_data_bind. intros df.
  destruct (df_at df t name); [apply uniform_ret|apply uniform_raise].
Qed.

Lemma uniform_at_set (t : Z) (name : string) (v : float) : uniform (at_set t name v).
Proof. apply uniform_get_data_bind. intros df. apply uniform_put_data. Qed.

Lemma uniform_set_column (name : string) (v : float) : uniform (set_column name v).
Proof. apply uniform_get_data_bind. intros df. apply uniform_put_data. Qed.

Lemma uniform_for_each {A} (l : list A) (body : A -> M unit) :
  (forall x, uniform (body x)) -> uniform (for_each l body).
Proof.
  intros Hb. induction l as [|x xs IH]; cbn [for_each].
  - apply uniform_ret.
  - apply uniform_bind; [apply Hb|intros _; exact IH].
Qed.

(** Breaks a monadic term into the operations above. *)
Ltac uniform_step :=
  first
    [ apply uniform_ret
    | apply uniform_raise
    | apply uniform_at_get
    | apply uniform_at_set
    | apply uniform_set_column
    | apply uniform_print
    | apply uniform_put_data
    | apply uniform_get_data_bind; intros ?
    | apply uniform_bind; [|intros ?]
    | apply uniform_try_except; [|intros ?]
    | match goal with
      | |- uniform (if ?b then _ else _) => destruct b
      | |- uniform (match ?x with _ => _ end) => destruct x
      end ].

Lemma uniform_initialise_var t name : uniform (initialise_var t name).
Proof. unfold initialise_var. repeat uniform_step. Qed.

Lemma uniform__initialise_period self t : uniform (_initialise_period self t).
Proof. apply uniform_for_each. intros name. apply uniform_initialise_var. Qed.

Lemma uniform_read_cost_inputs t : uniform (read_cost_inputs t).
Proof. unfold read_cost_inputs. repeat uniform_step. Qed.

Lemma uniform__pre_solve_cost_block t : uniform (_pre_solve_cost_block t).
Proof.
  unfold _pre_solve_cost_block. uniform_step. uniform_step; [uniform_step|].
  uniform_step; [|uniform_step]. uniform_step; [apply uniform_read_cost_inputs|].
  repeat uniform_step.
Qed.

Lemma uniform_adjust t pair : uniform (adjust t pair).
Proof. destruct pair as [var adj_var]. unfold adjust. repeat uniform_step. Qed.

Lemma uniform__apply_additive_adjustments t : uniform (_apply_additive_adjustments t).
Proof. apply uniform_for_each. intros pair. apply uniform_adjust. Qed.

Lemma uniform_sweep_equation self t verbose eq tr :
  uniform (sweep_equation self t verbose eq tr).
Proof. unfold sweep_equation. repeat uniform_step. Qed.

Lemma uniform_sweep_equations self t verbose eqs :
  forall tr, uniform (sweep_equations self t verbose eqs tr).
Proof.
  induction eqs as [|eq rest IH]; intros tr; cbn [sweep_equations].
  - apply uniform_ret.
  - apply uniform_bind; [apply uniform_sweep_equation|intros tr'; apply IH].
Qed.

Lemma uniform_sweep self t verbose iteration : uniform (sweep self t verbose iteration).
Proof.
  unfold sweep. apply uniform_bind; [apply uniform_sweep_equations|intros tr].
  repeat uniform_step.
Qed.

Lemma uniform_sweep_loop self t verbose remaining :
  forall iteration last, uniform (sweep_loop self t verbose remaining iteration last).
Proof.
  induction remaining as [|k IH]; intros iteration last; cbn [sweep_loop].
  - destruct last as [tr|]; [|apply uniform_raise].
    apply uniform_bind; [apply uniform_print|intros _].
    apply uniform_bind; [apply uniform__apply_additive_adjustments|intros _].
    apply uniform_ret.
  - apply uniform_bind; [apply uniform_sweep|intros tr].
    destruct (PrimFloat.ltb (max_change tr) (tol self)); [|apply IH].
    apply uniform_bind; [apply uniform__apply_additive_adjustments|intros _].
    apply uniform_ret.
Qed.

Lemma uniform_solve_period self t verbose : uniform (solve_period self t verbose).
Proof.
  unfold solve_period.
  apply uniform_bind; [apply uniform__initialise_period|intros _].
  apply uniform_bind; [apply uniform__pre_solve_cost_block|intros _].
  apply uniform_sweep_loop.
Qed.

(** A state is its table with its output printed before nothing. *)
Lemma state_prefixed (st : state) :
  st = prefixed (stdout st) {| data := data st; stdout := [] |}.
Proof. unfold prefixed. cbn. rewrite app_nil_r. destruct st; reflexivity. Qed.

(** ** The table the sweep loop starts from *)

(** With the previous quarter in the table, nothing is raised before the
    sweep loop. *)
Lemma reaches_loop_history self t df :
  t ∈ df_index df -> t - 1 ∈ df_index df -> reaches_loop self t df.
Proof.
  intros Ht Hp. unfold reaches_loop.
  set (base := {| data := df; stdout := [] |}).
  assert (Hpost : wp (_initialise_period self t;; _pre_solve_cost_block t)
            (fun r _ => r = Ok ()) base).
  { apply wp_bind. eapply wp_conseq; [apply _initialise_period_effect|].
    intros [[]|e] s1 (_ & _ & _ & _ & _ & Htot1).
    2:{ specialize (Htot1 Ht Hp). discriminate. }
    eapply wp_conseq; [apply _pre_solve_cost_block_effect|].
    intros r s2 (-> & _). reflexivity. }
  exact Hpost.
Qed.

Lemma prepared_spec self t st :
  t ∈ df_index (data st) -> reaches_loop self t (data st) ->
  (_initialise_period self t;; _pre_solve_cost_block t) st
    = (Ok (), {| data := prepared self t (data st); stdout := stdout st |})
  /\ cells_exist (prepared self t (data st)) t (equations self).
Proof.
  intros Ht Hp. unfold prepared. unfold reaches_loop in Hp.
  set (base := {| data := data st; stdout := [] |}) in *.
  assert (Hu : uniform (_initialise_period self t;; _pre_solve_cost_block t)).
  { apply uniform_bind; [apply uniform__initialise_period|intros _].
    apply uniform__pre_solve_cost_block. }
  assert (Hpost : wp (_initialise_period self t;; _pre_solve_cost_block t)
            (fun r s => r = Ok () ->
                        stdout s = [] /\ cells_exist (data s) t (equations self)) base).
  { apply wp_bind. eapply wp_conseq; [apply _initialise_period_effect|].
    intros [[]|e] s1 (Ho1 & Hi1 & _ & _ & Hok1 & _); [|discriminate].
    eapply wp_conseq; [apply _pre_solve_cost_block_effect|].
    intros r s2 (-> & Ho2 & Hi2 & Hc2 & _) _. split.
    - rewrite Ho2, Ho1. reflexivity.
    - split.
      + rewrite Hi2, Hi1. exact Ht.
      + intros eq Hin. apply Hc2, Hok1; [reflexivity|].
        unfold endogenous_vars. apply in_map, Hin. }
  unfold wp in Hpost. destruct (Hpost Hp) as (Ho & Hc).
  split; [|exact Hc].
  rewrite (state_prefixed st) at 1. fold base. rewrite Hu.
  destruct ((_initialise_period self t;; _pre_solve_cost_block t) base) as [r s].
  cbn [fst snd] in *. subst r. unfold prefixed. rewrite Ho, app_nil_r. reflexivity.
Qed.

(** ** A sweep as a function of the table *)

Lemma fold_store_update_le (t : Z) (us : list (string * float * float)) :
  forall df, df_le df (fold_left (store_update t) us df).
Proof.
  induction us as [|[[name o] v] us IH]; intros df; cbn [fold_left].
  - apply df_le_refl.
  - eapply df_le_trans; [|apply IH]. apply df_le_set_at.
Qed.

Lemma cells_exist_sweep_data self t df eqs :
  cells_exist df t eqs -> cells_exist (sweep_data self t df) t eqs.
Proof. apply cells_exist_le, fold_store_update_le. Qed.

Lemma cells_exist_iter_sweep_data self t df eqs (n : nat) :
  cells_exist df t eqs -> cells_exist (Nat.iter n (sweep_data self t) df) t eqs.
Proof.
  intros Hc. induction n as [|n IH]; cbn; [exact Hc|].
  apply cells_exist_sweep_data, IH.
Qed.

Lemma sweep_spec self t verbose iteration st :
  cells_exist (data st) t (equations self) ->
  exists out,
    sweep self t verbose iteration st
    = (Ok (sweep_tracker self t (data st)),
       {| data := sweep_data self t (data st); stdout := stdout st ++ out |})
    /\ forallb (fun e => negb (is_warning e)) out = true.
Proof.
  intros Hc. unfold sweep.
  destruct (sweep_equations_spec self t verbose (equations self) tracker0 st Hc)
    as (out & E & Hw).
  change {| max_change := 0%float; worst_var := "" |} with tracker0.
  rewrite (bind_Ok _ _ _ _ _ E).
  fold (sweep_tracker self t (data st)). fold (sweep_data self t (data st)).
  destruct (verbose && ((iteration + 1) mod 10 =? 0)).
  - eexists (out ++ [_])%list. split.
    + unfold print, mbind, M_bind, mret, M_ret. cbn. rewrite <- app_assoc. reflexivity.
    + rewrite forallb_app, Hw. reflexivity.
  - exists out. split; [reflexivity|exact Hw].
Qed.

(** ** The convergence metric *)

(** Updates of other variables leave a stored value as it is. *)
Lemma fold_store_update_other (t : Z) (name : string) (x : float)
    (us : list (string * float * float)) :
  forall df,
    df_at df t name = Some x ->
    (forall u, In u us -> fst (fst u) <> name) ->
    df_at (fold_left (store_update t) us df) t name = Some x.
Proof.
  induction us as [|[[n o] v] us IH]; intros df Hx Hne; cbn [fold_left]; [exact Hx|].
  apply IH.
  - cbn [store_update]. apply df_at_set_at_preserved; [exact Hx|].
    intros [_ E]. apply (Hne (n, o, v)); [left; reflexivity|]. symmetry. exact E.
  - intros u Hin. apply Hne. right. exact Hin.
Qed.

(** What an update of the list is: the equation it comes from, the table it
    was computed on and the value stored. *)
Lemma sweep_updates_inv self t (eqs : list Equation) :
  forall df us1 name old_val damped us2,
    sweep_updates self t eqs df = (us1 ++ (name, old_val, damped) :: us2)%list ->
    exists eq old new_val,
      In eq eqs /\ eq_name eq = name
      /\ df_at (fold_left (store_update t) us1 df) t name = Some old
      /\ old_val = (if is_nan old then 0%float else old)
      /\ eq_func eq (fold_left (store_update t) us1 df) t = Returns new_val
      /\ (is_nan new_val || is_inf new_val) = false
      /\ damped = (damping self * new_val + (1 - damping self) * old_val)%float.
Proof.
  induction eqs as [|eq rest IH]; intros df us1 name old_val damped us2 E.
  - destruct us1; discriminate E.
  - cbn [sweep_updates] in E.
    destruct (update_of self t eq df) as [[o v]|] eqn:Eu.
    + destruct us1 as [|u1 us1].
      * cbn [app] in E. injection E as E1 E2 E3 _. subst name o v. cbn [fold_left].
        unfold update_of in Eu.
        destruct (df_at df t (eq_name eq)) as [old|] eqn:Eo; [|discriminate].
        destruct (eq_func eq df t) as [| |new_val] eqn:Ef; try discriminate.
        destruct (is_nan new_val || is_inf new_val) eqn:Eb; [discriminate|].
        injection Eu as <- <-.
        exists eq, old, new_val.
        splits; first [reflexivity | assumption | left; reflexivity].
      * cbn [app] in E. injection E as <- E. cbn [fold_left store_update].
        destruct (IH _ _ _ _ _ _ E) as (eq' & old & new_val & Hin & H).
        exists eq', old, new_val. split; [right; exact Hin|exact H].
    + destruct (IH _ _ _ _ _ _ E) as (eq' & old & new_val & Hin & H).
      exists eq', old, new_val. split; [right; exact Hin|exact H].
Qed.

Lemma sweep_updates_app self t (eqs1 eqs2 : list Equation) :
  forall df,
    sweep_updates self t (eqs1 ++ eqs2) df
    = (sweep_updates self t eqs1 df
       ++ sweep_updates self t eqs2 (evaluated_on self t eqs1 df))%list.
Proof.
  unfold evaluated_on.
  induction eqs1 as [|eq rest IH]; intros df; [reflexivity|].
  cbn [app sweep_updates].
  destruct (update_of self t eq df) as [[o v]|]; [|apply IH].
  cbn [app fold_left store_update]. rewrite IH. reflexivity.
Qed.

(** Every evaluation that yields a finite number is an update of the list. *)
Lemma sweep_updates_complete self t (eqs1 : list Equation) eq (eqs2 : list Equation) df
    new_val :
  cells_exist df t (eqs1 ++ eq :: eqs2) ->
  eq_func eq (evaluated_on self t eqs1 df) t = Returns new_val ->
  (is_nan new_val || is_inf new_val) = false ->
  exists old,
    df_at (evaluated_on self t eqs1 df) t (eq_name eq) = Some old
    /\ In (eq_name eq, (if is_nan old then 0%float else old),
           (damping self * new_val
            + (1 - damping self) * (if is_nan old then 0%float else old))%float)
          (sweep_updates self t (eqs1 ++ eq :: eqs2) df).
Proof.
  intros Hc Hx Hb.
  assert (Hc1 : cells_exist (evaluated_on self t eqs1 df) t (eqs1 ++ eq :: eqs2)).
  { eapply cells_exist_le; [apply fold_store_update_le|exact Hc]. }
  destruct Hc1 as [Ht Hn].
  destruct (df_at_is_Some (evaluated_on self t eqs1 df) t (eq_name eq) Ht) as [old Hold].
  { apply Hn, in_elt. }
  exists old. split; [exact Hold|].
  rewrite sweep_updates_app. apply in_or_app. right.
  cbn [sweep_updates]. unfold update_of. rewrite Hold, Hx, Hb.
  left. reflexivity.
Qed.

(** C6. In one sweep the tracked [max_change] is the maximum of
    [abs((stored - old) / old)] over the successful updates whose old value
    satisfies [abs(old) > 1e-10]: no such update has a larger relative
    change, and [max_change] is either the initial [0.0] or the relative
    change of the update [worst_var] names.  The successful updates are
    the evaluations that return a finite number, each on the table the
    updates before it left; each stores
    [damping * new_val + (1 - damping) * old_val] in its cell, whether or
    not it enters the metric, and the cell holds that value after the sweep
    unless a later equation of the same variable updates it again. *)
Theorem C6_convergence_metric self t verbose st :
  cells_exist (data st) t (equations self) ->
  let updates := sweep_updates self t (equations self) (data st) in
  exists tr st',
    sweep_equations self t verbose (equations self) tracker0 st = (Ok tr, st')
    /\ data st' = fold_left (store_update t) updates (data st)
    /\ (forall u, In u updates -> tracked u = true ->
          PrimFloat.ltb (max_change tr) (rel_change_of u) = false)
    /\ (tr = tracker0
        \/ exists u, In u updates /\ tracked u = true
             /\ max_change tr = rel_change_of u /\ worst_var tr = fst (fst u))
    /\ (forall us1 name old_val damped us2,
          updates = (us1 ++ (name, old_val, damped) :: us2)%list ->
          let df := fold_left (store_update t) us1 (data st) in
          (exists eq old new_val,
             In eq (equations self) /\ eq_name eq = name
             /\ df_at df t name = Some old
             /\ old_val = (if is_nan old then 0%float else old)
             /\ eq_func eq df t = Returns new_val
             /\ (is_nan new_val || is_inf new_val) = false
             /\ damped = (damping self * new_val + (1 - damping self) * old_val)%float)
          /\ df_at (store_update t df (name, old_val, damped)) t name = Some damped
          /\ ((forall u, In u us2 -> fst (fst u) <> name) ->
              df_at (data st') t name = Some damped)
          /\ tracked (name, old_val, damped)
             = PrimFloat.ltb 1e-10 (PrimFloat.abs old_val)
          /\ rel_change_of (name, old_val, damped)
             = PrimFloat.abs ((damped - old_val) / old_val))
    /\ (forall (eqs1 : list Equation) eq (eqs2 : list Equation) new_val,
          equations self = (eqs1 ++ eq :: eqs2)%list ->
          let df := evaluated_on self t eqs1 (data st) in
          eq_func eq df t = Returns new_val ->
          (is_nan new_val || is_inf new_val) = false ->
          exists old,
            df_at df t (eq_name eq) = Some old
            /\ In (eq_name eq, (if is_nan old then 0%float else old),
                   (damping self * new_val
                    + (1 - damping self) * (if is_nan old then 0%float else old))%float)
                  updates).
Proof.
  intros Hc updates.
  destruct (sweep_equations_spec self t verbose (equations self) tracker0 st Hc)
    as (out & E & _).
  fold updates in E.
  eexists _, _. split; [exact E|]. split; [reflexivity|]. split; [|split; [|split]].
  - intros u Hin Htr. apply fold_track_upper_bound.
    apply filter_In. split; assumption.
  - destruct (fold_track_attained (List.filter tracked updates) tracker0)
      as [->|(u & Hin & ->)].
    + left. reflexivity.
    + right. exists u. apply filter_In in Hin. destruct Hin as [Hin Htr].
      repeat split; assumption.
  - intros us1 name old_val damped us2 Eu df. split; [|split; [|split; [|split]]].
    + exact (sweep_updates_inv self t (equations self) (data st) us1 name old_val damped
               us2 Eu).
    + apply df_at_set_at_same.
    + intros Hne. cbn [data]. rewrite Eu, fold_left_app. cbn [fold_left].
      apply fold_store_update_other; [apply df_at_set_at_same|exact Hne].
    + reflexivity.
    + reflexivity.
  - intros eqs1 eq eqs2 new_val Eq df Hx Hb. unfold updates. rewrite Eq.
    apply sweep_updates_complete; [rewrite <- Eq; exact Hc|exact Hx|exact Hb].
Qed.

Lemma C6_witness :
  let updates := sweep_updates sample_solver 1 (equations sample_solver)
                   (data sample_state) in
  exists tr st',
    sweep_equations sample_solver 1 false (equations sample_solver) tracker0
      sample_state = (Ok tr, st')
    /\ max_change tr = PrimFloat.abs ((0.7 * 3 + (1 - 0.7) * 2 - 2) / 2)%float
    /\ worst_var tr = "X"
    /\ updates = [("X", 2, 0.7 * 3 + (1 - 0.7) * 2);
                  ("PRMIP", 0, 0.7 * (0.7 * 3 + (1 - 0.7) * 2 + 1) + (1 - 0.7) * 0)]%float
    /\ df_at (data st') 1 "X" = Some (0.7 * 3 + (1 - 0.7) * 2)%float
    /\ df_at (data st') 1 "PRMIP"
       = Some (0.7 * (0.7 * 3 + (1 - 0.7) * 2 + 1) + (1 - 0.7) * 0)%float.
Proof.
  intros updates.
  destruct (C6_convergence_metric sample_solver 1 false sample_state)
    as (tr & st' & E & Hd & Hub & Hatt & Hupd & Hall).
  { split; [vm_compute; reflexivity|].
    intros eq [<-|[<-|[<-|[]]]]; vm_compute; reflexivity. }
  assert (Eu : updates
               = [("X", 2, 0.7 * 3 + (1 - 0.7) * 2);
                  ("PRMIP", 0, 0.7 * (0.7 * 3 + (1 - 0.7) * 2 + 1) + (1 - 0.7) * 0)]%float)
    by (vm_compute; reflexivity).
  exists tr, st'. split; [exact E|].
  assert (Etr : tr = {| max_change := PrimFloat.abs ((0.7 * 3 + (1 - 0.7) * 2 - 2) / 2)%float;
                        worst_var := "X" |}).
  { destruct Hatt as [->|(u & Hin & Htr & Hm & Hw)].
    - specialize (Hub ("X", 2, 0.7 * 3 + (1 - 0.7) * 2)%float).
      exfalso. revert Hub. fold updates. rewrite Eu. intros Hub.
      assert (H : PrimFloat.ltb (max_change tracker0)
                    (rel_change_of ("X", 2, 0.7 * 3 + (1 - 0.7) * 2)%float) = false)
        by (apply Hub; [left; reflexivity|vm_compute; reflexivity]).
      vm_compute in H. discriminate H.
    - fold updates in Hin. rewrite Eu in Hin.
      destruct Hin as [<-|[<-|[]]].
      + destruct tr as [m w]. cbn in Hm, Hw. subst m w. vm_compute. reflexivity.
      + vm_compute in Htr. discriminate Htr. }
  split; [rewrite Etr; reflexivity|]. split; [rewrite Etr; reflexivity|].
  split; [exact Eu|]. split.
  - refine (proj1 (proj2 (proj2 (Hupd [] "X" _ _ [_] Eu))) _).
    intros u [<-|[]]. discriminate.
  - refine (proj1 (proj2 (proj2 (Hupd [_] "PRMIP" _ _ [] Eu))) _).
    intros u [].
Defined.

(** ** The sweep loop *)

Lemma cells_exist_row df t eqs : cells_exist df t eqs -> t ∈ df_index df.
Proof. intros [Ht _]. exact Ht. Qed.

Lemma adjustments_then_ret {A} (t : Z) (a : A) (st : state) :
  t ∈ df_index (data st) ->
  (_apply_additive_adjustments t;; mret a) st
  = (Ok a, {| data := adjustments_data t (data st); stdout := stdout st |}).
Proof.
  intros Ht.
  rewrite (bind_Ok _ _ _ _ _ (_apply_additive_adjustments_spec t st Ht)).
  reflexivity.
Qed.

(** The loop when no pass meets the tolerance: all [remaining] passes run,
    then the warning, then the post-processor. *)
Lemma sweep_loop_exhausted self t verbose (remaining : nat) :
  forall iteration last st tr,
    cells_exist (data st) t (equations self) ->
    (forall k, (k < remaining)%nat ->
       PrimFloat.ltb
         (max_change (sweep_tracker self t (Nat.iter k (sweep_data self t) (data st))))
         (tol self) = false) ->
    match remaining with
    | O => last
    | S k => Some (sweep_tracker self t (Nat.iter k (sweep_data self t) (data st)))
    end = Some tr ->
    exists out,
      sweep_loop self t verbose remaining iteration last st
      = (Ok (max_iter self),
         {| data := adjustments_data t (Nat.iter remaining (sweep_data self t) (data st));
            stdout := stdout st ++ out
                      ++ [PrintWarning t (max_iter self) (max_change tr) (worst_var tr)] |})
      /\ forallb (fun e => negb (is_warning e)) out = true.
Proof.
  induction remaining as [|k IH]; intros iteration last st tr Hc Hnever Hlast.
  - subst last. cbn [sweep_loop Nat.iter]. exists []. split; [|reflexivity].
    unfold print at 1. unfold mbind at 1, M_bind at 1.
    rewrite adjustments_then_ret by (cbn [data]; apply (cells_exist_row _ _ _ Hc)).
    reflexivity.
  - cbn [sweep_loop].
    destruct (sweep_spec self t verbose iteration st Hc) as (out1 & E1 & Hw1).
    rewrite (bind_Ok _ _ _ _ _ E1).
    pose proof (Hnever 0%nat ltac:(lia)) as H0.
    change (Nat.iter 0 (sweep_data self t) (data st)) with (data st) in H0.
    rewrite H0. clear H0.
    edestruct (IH (iteration + 1) (Some (sweep_tracker self t (data st)))
                 {| data := sweep_data self t (data st); stdout := stdout st ++ out1 |} tr)
      as (out2 & E2 & Hw2).
    + cbn [data]. apply cells_exist_sweep_data, Hc.
    + intros j Hj. cbn [data]. rewrite <- Nat.iter_succ_r. apply Hnever. lia.
    + cbn [data]. destruct k as [|k']; [exact Hlast|].
      rewrite <- Nat.iter_succ_r. exact Hlast.
    + exists (out1 ++ out2)%list. rewrite E2. cbn [data stdout]. split.
      * rewrite <- Nat.iter_succ_r, <- !app_assoc. reflexivity.
      * rewrite forallb_app, Hw1, Hw2. reflexivity.
Qed.

(** The loop always ends after some number of passes, with the
    post-processor applied once to the table those passes left. *)
Lemma sweep_loop_total self t verbose (remaining : nat) :
  forall iteration last st,
    cells_exist (data st) t (equations self) ->
    (remaining <> 0%nat \/ last <> None) ->
    exists (n : nat) out r,
      sweep_loop self t verbose remaining iteration last st
      = (Ok r, {| data := adjustments_data t (Nat.iter n (sweep_data self t) (data st));
                  stdout := stdout st ++ out |})
      /\ (n <= remaining)%nat
      /\ (remaining <> 0%nat -> (1 <= n)%nat)
      /\ (r = iteration + Z.of_nat n \/ (n = remaining /\ r = max_iter self)).
Proof.
  induction remaining as [|k IH]; intros iteration last st Hc Hlast.
  - destruct Hlast as [Hr|Hl]; [contradiction|].
    destruct last as [tr|]; [|contradiction].
    cbn [sweep_loop]. exists 0%nat. eexists _, _. split; [|splits].
    + unfold print at 1. unfold mbind at 1, M_bind at 1.
      rewrite adjustments_then_ret by (cbn [data]; apply (cells_exist_row _ _ _ Hc)).
      reflexivity.
    + lia.
    + intros Hne. contradiction.
    + right. split; reflexivity.
  - cbn [sweep_loop].
    destruct (sweep_spec self t verbose iteration st Hc) as (out1 & E1 & _).
    rewrite (bind_Ok _ _ _ _ _ E1).
    assert (Hc1 : cells_exist (sweep_data self t (data st)) t (equations self))
      by apply cells_exist_sweep_data, Hc.
    destruct (PrimFloat.ltb (max_change (sweep_tracker self t (data st))) (tol self)).
    + exists 1%nat. eexists _, _. split; [|splits].
      * rewrite adjustments_then_ret by (cbn [data]; apply (cells_exist_row _ _ _ Hc1)).
        reflexivity.
      * lia.
      * intros _. lia.
      * left. reflexivity.
    + edestruct (IH (iteration + 1) (Some (sweep_tracker self t (data st)))
                   {| data := sweep_data self t (data st); stdout := stdout st ++ out1 |})
        as (n & out2 & r & E2 & Hn & _ & Hr).
      * exact Hc1.
      * right. discriminate.
      * exists (S n). eexists (out1 ++ out2)%list, r. split; [|splits].
        -- rewrite E2. cbn [data stdout]. rewrite Nat.iter_succ_r, <- app_assoc. reflexivity.
        -- lia.
        -- intros _. lia.
        -- destruct Hr as [->|[-> ->]]; [left; lia|right; split; reflexivity].
Qed.

Lemma bind_print {B} (e : event) (k : unit -> M B) (st : state) :
  (print e ≫= k) st = k () {| data := data st; stdout := stdout st ++ [e] |}.
Proof. reflexivity. Qed.

Lemma bind_ret {A B} (a : A) (k : A -> M B) (st : state) : (mret a ≫= k) st = k a st.
Proof. reflexivity. Qed.

(** The variables a sweep updates are variables of the registry. *)
Lemma sweep_updates_names self t (eqs : list Equation) :
  forall df u, In u (sweep_updates self t eqs df) ->
    exists eq, In eq eqs /\ fst (fst u) = eq_name eq.
Proof.
  induction eqs as [|eq rest IH]; intros df u Hin; [destruct Hin|].
  cbn [sweep_updates] in Hin.
  destruct (update_of self t eq df) as [[o v]|].
  - destruct Hin as [<-|Hin].
    + exists eq. split; [left|]; reflexivity.
    + destruct (IH _ _ Hin) as (eq' & Hin' & E). exists eq'. split; [right|]; assumption.
  - destruct (IH _ _ Hin) as (eq' & Hin' & E). exists eq'. split; [right|]; assumption.
Qed.

(** A tracker that fails a positive tolerance names a variable of the
    registry. *)
Lemma sweep_tracker_names self t df :
  PrimFloat.ltb 0 (tol self) = true ->
  PrimFloat.ltb (max_change (sweep_tracker self t df)) (tol self) = false ->
  exists eq, In eq (equations self) /\ worst_var (sweep_tracker self t df) = eq_name eq.
Proof.
  intros Hpos Hfail. unfold sweep_tracker in *.
  destruct (fold_track_attained
              (List.filter tracked (sweep_updates self t (equations self) df)) tracker0)
    as [E|(u & Hin & E)]; rewrite E in *.
  - cbn [max_change tracker0] in Hfail. congruence.
  - apply filter_In in Hin. destruct Hin as [Hin _].
    destruct (sweep_updates_names self t _ _ _ Hin) as (eq & Heq & Hname).
    exists eq. split; [exact Heq|exact Hname].
Qed.

(** ** A period whose budget runs out *)

Lemma solve_period_prepared self t verbose st :
  t ∈ df_index (data st) -> reaches_loop self t (data st) ->
  solve_period self t verbose st
  = sweep_loop self t verbose (Z.to_nat (max_iter self)) 0 None
      {| data := prepared self t (data st); stdout := stdout st |}.
Proof.
  intros Ht Hp. destruct (prepared_spec self t st Ht Hp) as [E _].
  unfold solve_period.
  rewrite <- (bind_assoc (_initialise_period self t)
                (fun _ => _pre_solve_cost_block t)
                (fun _ => sweep_loop self t verbose (Z.to_nat (max_iter self)) 0 None)).
  exact (bind_Ok _ (fun _ => sweep_loop self t verbose (Z.to_nat (max_iter self)) 0 None)
           _ _ _ E).
Qed.

Lemma solve_period_exhausted self t verbose st :
  t ∈ df_index (data st) -> reaches_loop self t (data st) ->
  0 < max_iter self ->
  let n := Z.to_nat (max_iter self) in
  let df1 := prepared self t (data st) in
  (forall k, (k < n)%nat ->
     PrimFloat.ltb
       (max_change (sweep_tracker self t (Nat.iter k (sweep_data self t) df1)))
       (tol self) = false) ->
  let last := sweep_tracker self t (Nat.iter (n - 1) (sweep_data self t) df1) in
  exists out,
    solve_period self t verbose st
    = (Ok (max_iter self),
       {| data := adjustments_data t (Nat.iter n (sweep_data self t) df1);
          stdout := stdout st ++ out
                    ++ [PrintWarning t (max_iter self) (max_change last) (worst_var last)] |})
    /\ forallb (fun e => negb (is_warning e)) out = true.
Proof.
  intros Ht Hp Hpos n df1 Hnever last.
  rewrite (solve_period_prepared self t verbose st Ht Hp). fold n df1.
  destruct (prepared_spec self t st Ht Hp) as [_ Hc]. fold df1 in Hc.
  subst last. destruct n as [|k] eqn:En; [lia|].
  replace (S k - 1)%nat with k by lia.
  apply (sweep_loop_exhausted self t verbose (S k) 0 None
           {| data := df1; stdout := stdout st |}); [exact Hc|exact Hnever|reflexivity].
Qed.

(** C2. Take a period [t] of the table whose preparation raises nothing,
    a positive budget [max_iter], and suppose that after none of the
    [max_iter] passes the tracked [max_change] is below the tolerance.  Then
    [solve_period] raises nothing: it prints the warning, which carries the
    [max_change] and the [worst_var] of the last pass (with a positive
    tolerance, [worst_var] is a variable of the registry), applies the
    post-processor to the table the passes left, and returns [max_iter];
    [solve_range] records [(t, max_iter)] and goes on with period [t + 1]
    from that table. *)
Theorem C2_budget_exhaustion_is_recoverable self t verbose st :
  t ∈ df_index (data st) -> reaches_loop self t (data st) ->
  0 < max_iter self ->
  let n := Z.to_nat (max_iter self) in
  let df1 := prepared self t (data st) in
  (forall k, (k < n)%nat ->
     PrimFloat.ltb
       (max_change (sweep_tracker self t (Nat.iter k (sweep_data self t) df1)))
       (tol self) = false) ->
  let last := sweep_tracker self t (Nat.iter (n - 1) (sweep_data self t) df1) in
  let final := adjustments_data t (Nat.iter n (sweep_data self t) df1) in
  (exists out,
     solve_period self t verbose st
     = (Ok (max_iter self),
        {| data := final;
           stdout := stdout st ++ out
                     ++ [PrintWarning t (max_iter self) (max_change last) (worst_var last)] |})
     /\ forallb (fun e => negb (is_warning e)) out = true)
  /\ (PrimFloat.ltb 0 (tol self) = true ->
      exists eq, In eq (equations self) /\ worst_var last = eq_name eq)
  /\ (forall fuel end_period results, t <= end_period ->
        exists st',
          data st' = final
          /\ solve_range_loop self (S fuel) t end_period verbose results st
             = solve_range_loop self fuel (t + 1) end_period verbose
                 (results ++ [(t, max_iter self)]) st').
Proof.
  intros Ht Hp Hpos n df1 Hnever last final. split; [|split].
  - apply solve_period_exhausted; assumption.
  - intros Htol. apply sweep_tracker_names; [exact Htol|].
    apply Hnever. lia.
  - intros fuel end_period results Hle. cbn [solve_range_loop].
    rewrite (Zle_imp_le_bool _ _ Hle).
    destruct verbose.
    + rewrite bind_print.
      destruct (solve_period_exhausted self t true
                  {| data := data st; stdout := stdout st ++ [PrintSolving t] |}
                  Ht Hp Hpos Hnever) as (out & E & _).
      rewrite (bind_Ok _ _ _ _ _ E).
      eexists. split; [|reflexivity]. reflexivity.
    + rewrite bind_ret.
      destruct (solve_period_exhausted self t false st Ht Hp Hpos Hnever)
        as (out & E & _).
      rewrite (bind_Ok _ _ _ _ _ E).
      eexists. split; [|reflexivity]. reflexivity.
Qed.

Lemma C2_witness :
  exists st' m w,
    solve_period sample_solver_short 1 false sample_state = (Ok 3, st')
    /\ last (stdout st') = Some (PrintWarning 1 3 m w).
Proof.
  assert (H1 : 1 ∈ df_index (data sample_state)) by (vm_compute; reflexivity).
  assert (H0 : reaches_loop sample_solver_short 1 (data sample_state))
    by (vm_compute; reflexivity).
  assert (Hpos : 0 < max_iter sample_solver_short) by (vm_compute; reflexivity).
  destruct (C2_budget_exhaustion_is_recoverable sample_solver_short 1 false
              sample_state H1 H0 Hpos) as [(out & E & _) _].
  { intros k Hk. destruct k as [|[|[|k]]]; [vm_compute; reflexivity ..|].
    exfalso. vm_compute in Hk. lia. }
  eexists _, _, _. split; [exact E|].
  cbn [stdout]. rewrite app_assoc. apply last_snoc.
Defined.

(** ** The post-processor runs once, after the last pass *)

(** C5. A period [t] of the table whose preparation raises nothing, solved
    with a positive budget, gets [n >= 1] passes of the sweep, none of which
    applies an adjustment ([sweep_data]), and then the post-processor
    exactly once, whether the loop ended by convergence or by exhausting its
    budget; [n] is the value returned.  The post-processor
    changes the cell [(t, target)] of each pair of the table to
    [target + adjustment] exactly when both columns exist and the adjustment
    value at [t] is not NaN, and no other cell ([adjusted_cell]). *)
Theorem C5_adjustments_applied_once_after_the_loop self t verbose st :
  t ∈ df_index (data st) -> reaches_loop self t (data st) ->
  0 < max_iter self ->
  exists (n : nat) out,
    (1 <= n <= Z.to_nat (max_iter self))%nat
    /\ let swept := Nat.iter n (sweep_data self t) (prepared self t (data st)) in
       solve_period self t verbose st
       = (Ok (Z.of_nat n),
          {| data := adjustments_data t swept; stdout := stdout st ++ out |})
       /\ forall t' name,
            df_at (adjustments_data t swept) t' name
            = adjusted_cell ADDITIVE_ADJUSTMENTS swept t t' name.
Proof.
  intros Ht Hp Hpos.
  rewrite (solve_period_prepared self t verbose st Ht Hp).
  destruct (prepared_spec self t st Ht Hp) as [_ Hc].
  destruct (sweep_loop_total self t verbose (Z.to_nat (max_iter self)) 0 None
              {| data := prepared self t (data st); stdout := stdout st |} Hc)
    as (n & out & r & E & Hn & Hn1 & Hr).
  { left. lia. }
  exists n, out. split; [split; [apply Hn1; lia|exact Hn]|].
  cbn zeta. split.
  - rewrite E. cbn [data stdout].
    replace r with (Z.of_nat n) by (destruct Hr as [->|[-> ->]]; lia).
    reflexivity.
  - intros t' name. apply adjustments_data_cell.
    apply (cells_exist_row _ _ (equations self)).
    apply cells_exist_iter_sweep_data, Hc.
Qed.

Lemma C5_witness :
  exists (n : nat) st',
    solve_period sample_solver 1 false sample_state = (Ok (Z.of_nat n), st')
    /\ df_at (data st') 1 "PRMIP"
       = adjusted_cell ADDITIVE_ADJUSTMENTS
           (Nat.iter n (sweep_data sample_solver 1) (prepared sample_solver 1 sample_df))
           1 1 "PRMIP".
Proof.
  destruct (C5_adjustments_applied_once_after_the_loop sample_solver 1 false sample_state)
    as (n & out & _ & E & Hcell).
  - vm_compute; reflexivity.
  - vm_compute; reflexivity.
  - vm_compute; reflexivity.
  - exists n. eexists. split; [exact E|]. apply Hcell.
Defined.

(** ** An equation that never yields a number *)

(** C3, as stated, fails: the equation of [Y] in the sample registry
    returns NaN at every evaluation; its update is skipped in every pass,
    [Y] keeps the value it was seeded with, and the period is reported
    converged after 18 passes.  The only line printed is the progress line
    of pass 10: no warning surfaces the failure. *)
Lemma C3_counterexample :
  (forall df t, eq_func eq_Y df t = Returns nan)
  /\ is_nan nan = true
  /\ exists st',
       solve_period sample_solver 1 true sample_state = (Ok 18, st')
       /\ forallb (fun e => negb (is_warning e)) (stdout st') = true
       /\ df_at (data st') 1 "Y" = Some 1%float.
Proof.
  split; [reflexivity|]. split; [reflexivity|].
  eexists. split; [vm_compute; reflexivity|]. split; reflexivity.
Qed.

Lemma sweep_equations_with_equations self eqs' t verbose eqs tr st :
  sweep_equations (with_equations self eqs') t verbose eqs tr st
  = sweep_equations self t verbose eqs tr st.
Proof.
  revert tr st. induction eqs as [|eq rest IH]; intros tr st; [reflexivity|].
  cbn [sweep_equations]. apply bind_ext. intros tr' s. apply IH.
Qed.

Lemma sweep_equation_non_finite self t verbose e tr st x :
  t ∈ df_index (data st) -> eq_name e ∈ df_columns (data st) ->
  eq_func e (data st) t = Returns x -> (is_nan x || is_inf x) = true ->
  sweep_equation self t verbose e tr st = (Ok tr, st).
Proof.
  intros Ht Hn Hx Hbad.
  destruct (df_at_is_Some _ _ _ Ht Hn) as [old Hold].
  unfold sweep_equation.
  rewrite (bind_Ok _ _ _ _ _ (at_get_Some _ _ _ _ Hold)).
  unfold get_data at 1. unfold mbind at 1, M_bind at 1.
  rewrite Hx, Hbad. reflexivity.
Qed.

(** The table an equation is evaluated on, one equation further. *)
Lemma evaluated_on_cons_Some self t eq rest df o v :
  update_of self t eq df = Some (o, v) ->
  evaluated_on self t (eq :: rest) df
  = evaluated_on self t rest (df_set_at df t (eq_name eq) v).
Proof. intros E. unfold evaluated_on. cbn [sweep_updates]. rewrite E. reflexivity. Qed.

Lemma evaluated_on_cons_None self t eq rest df :
  update_of self t eq df = None ->
  evaluated_on self t (eq :: rest) df = evaluated_on self t rest df.
Proof. intros E. unfold evaluated_on. cbn [sweep_updates]. rewrite E. reflexivity. Qed.

(** An equation that yields NaN or an infinity on the table it is evaluated
    on can be left out of the sweep. *)
Lemma sweep_equations_skip self t verbose e eqs2 (eqs1 : list Equation) :
  forall tr st,
    cells_exist (data st) t (eqs1 ++ e :: eqs2) ->
    (exists x, eq_func e (evaluated_on self t eqs1 (data st)) t = Returns x
               /\ (is_nan x || is_inf x) = true) ->
    sweep_equations self t verbose (eqs1 ++ e :: eqs2) tr st
    = sweep_equations self t verbose (eqs1 ++ eqs2) tr st.
Proof.
  induction eqs1 as [|eq rest IH]; intros tr st [Ht Hc] Hbad.
  - destruct Hbad as (x & Hx & Hb). cbn [app sweep_equations].
    rewrite (bind_Ok _ _ _ _ _
               (sweep_equation_non_finite self t verbose e tr st x Ht
                  (Hc e (or_introl eq_refl)) Hx Hb)).
    reflexivity.
  - cbn [app sweep_equations].
    destruct (sweep_equation_spec self t verbose eq tr st Ht
                (Hc eq (or_introl eq_refl))) as (out & E & _).
    rewrite !(bind_Ok _ _ _ _ _ E).
    apply IH.
    + cbn [data]. split.
      * destruct (update_of self t eq (data st)) as [[o v]|]; [|exact Ht].
        apply elem_of_union_r, Ht.
      * intros eq' Hin.
        destruct (update_of self t eq (data st)) as [[o v]|].
        -- apply elem_of_union_r, Hc. right. exact Hin.
        -- apply Hc. right. exact Hin.
    + cbn [data]. destruct (update_of self t eq (data st)) as [[o v]|] eqn:Eu.
      * rewrite <- (evaluated_on_cons_Some self t eq rest (data st) o v Eu). exact Hbad.
      * rewrite <- (evaluated_on_cons_None self t eq rest (data st) Eu). exact Hbad.
Qed.

Lemma sweep_skip self t verbose iteration e (eqs1 eqs2 : list Equation) st :
  equations self = (eqs1 ++ e :: eqs2)%list ->
  cells_exist (data st) t (equations self) ->
  (exists x, eq_func e (evaluated_on self t eqs1 (data st)) t = Returns x
             /\ (is_nan x || is_inf x) = true) ->
  sweep (with_equations self (eqs1 ++ eqs2)) t verbose iteration st
  = sweep self t verbose iteration st.
Proof.
  intros Heq Hc Hbad. unfold sweep. cbn [equations with_equations].
  rewrite Heq in *.
  unfold mbind at 1 3, M_bind at 1 3.
  rewrite sweep_equations_with_equations.
  rewrite (sweep_equations_skip self t verbose e eqs2 eqs1 _ st Hc Hbad).
  reflexivity.
Qed.

(** C3 (amended). An equation that yields NaN or an infinity at every
    evaluation of the period, that is, in every pass that is run, on the
    table the equations before it left, is skipped in every pass and is
    invisible to the convergence test: the sweep loop returns the same
    value, prints the same lines and leaves the same table as if the
    equation were not in the registry.  The period is reported converged
    as soon as the other variables meet the tolerance, and the warning is
    printed only if they do not. *)
Theorem C3_persistent_failure_is_invisible
    self t verbose (eqs1 : list Equation) e (eqs2 : list Equation) (remaining : nat) :
  equations self = (eqs1 ++ e :: eqs2)%list ->
  forall iteration last st,
    cells_exist (data st) t (equations self) ->
    (forall k, (k < remaining)%nat -> pass_reached self t k (data st) ->
       exists x,
         eq_func e (evaluated_on self t eqs1 (pass_start self t k (data st))) t = Returns x
         /\ (is_nan x || is_inf x) = true) ->
    sweep_loop self t verbose remaining iteration last st
    = sweep_loop (with_equations self (eqs1 ++ eqs2)) t verbose remaining iteration last st.
Proof.
  intros Heq. induction remaining as [|k IH]; intros iteration last st Hc Hbad.
  - reflexivity.
  - cbn [sweep_loop].
    assert (Hbad0 : exists x,
              eq_func e (evaluated_on self t eqs1 (data st)) t = Returns x
              /\ (is_nan x || is_inf x) = true).
    { apply (Hbad O); [lia|]. intros j Hj. lia. }
    pose proof (sweep_skip self t verbose iteration e eqs1 eqs2 st Heq Hc Hbad0) as Es.
    destruct (sweep_spec self t verbose iteration st Hc) as (out & E & _).
    rewrite (bind_Ok _ _ _ _ _ E).
    rewrite E in Es. rewrite (bind_Ok _ _ _ _ _ Es).
    cbn [tol with_equations].
    destruct (PrimFloat.ltb (max_change (sweep_tracker self t (data st))) (tol self)) eqn:Et.
    + reflexivity.
    + apply IH.
      * cbn [data]. apply cells_exist_sweep_data, Hc.
      * cbn [data]. intros k' Hk' Hr.
        assert (Hs : forall n, pass_start self t n (sweep_data self t (data st))
                               = pass_start self t (S n) (data st)).
        { intros n. unfold pass_start. symmetry. apply Nat.iter_succ_r. }
        rewrite Hs. apply Hbad; [lia|].
        intros [|j] Hj.
        -- exact Et.
        -- rewrite <- Hs. apply Hr. lia.
Qed.

Lemma C3_witness :
  sweep_loop sample_solver_lagged 1 false 3 0 None sample_state
  = sweep_loop (with_equations sample_solver_lagged ([eq_X] ++ [eq_PRMIP])) 1 false 3 0 None
      sample_state.
Proof.
  apply (C3_persistent_failure_is_invisible sample_solver_lagged 1 false
           [eq_X] eq_Y_lagged [eq_PRMIP] 3).
  - reflexivity.
  - split; [vm_compute; reflexivity|].
    intros eq [<-|[<-|[<-|[]]]]; vm_compute; reflexivity.
  - intros [|[|[|k]]] Hk _; [| | |lia];
      (eexists; split; [vm_compute; reflexivity|reflexivity]).
Defined.

(** ** The cost block *)


(** On inputs at their base values the solution the LU model computes on
    binary64 does reproduce the three right-hand sides to within 1e-9. *)
Example cost_block_base_inputs :
  exists s c u,
    linalg_solve cost_matrix (cost_rhs cost_base_inputs) = Some (s, c, u)
    /\ within_1e9 s (compute_SCOST cost_base_inputs c u) = true
    /\ within_1e9 c (compute_CCOST cost_base_inputs s u) = true
    /\ within_1e9 u (compute_UTCOST cost_base_inputs s c) = true.
Proof. eexists _, _, _. split; [vm_compute; reflexivity|]. vm_compute. auto. Qed.

Lemma _pre_solve_cost_block_with_linalg_solve t :
  _pre_solve_cost_block t = _pre_solve_cost_block_with linalg_solve t.
Proof. reflexivity. Qed.







(* ================================================================== *)
(** * Further properties of the code *)
(* ================================================================== *)

(** ** What a period returns and what it raises *)

Lemma raises_only_weaken {A} (P P' : exn -> Prop) (m : M A) :
  (forall e, P e -> P' e) -> raises_only P m -> raises_only P' m.
Proof.
  intros HP Hm st. specialize (Hm st). destruct (m st).1; auto.
Qed.

Lemma raises_only_ret {A} (P : exn -> Prop) (a : A) : raises_only P (mret a : M A).
Proof. intros st. exact I. Qed.

Lemma raises_only_raise {A} (P : exn -> Prop) (e : exn) :
  P e -> raises_only P (raise e : M A).
Proof. intros He st. exact He. Qed.

Lemma raises_only_bind {A B} (P : exn -> Prop) (m : M A) (k : A -> M B) :
  raises_only P m -> (forall a, raises_only P (k a)) -> raises_only P (m ≫= k).
Proof.
  intros Hm Hk st. specialize (Hm st). unfold mbind, M_bind.
  destruct (m st) as [[a|e] s1]; cbn in *.
  - apply Hk.
  - exact Hm.
Qed.

Lemma raises_only_get_data_bind {B} (P : exn -> Prop) (k : DataFrame -> M B) :
  (forall df, raises_only P (k df)) -> raises_only P (get_data ≫= k).
Proof. intros Hk st. exact (Hk (data st) st). Qed.

Lemma raises_only_put_data (P : exn -> Prop) df : raises_only P (put_data df).
Proof. intros st. exact I. Qed.

Lemma raises_only_print (P : exn -> Prop) e : raises_only P (print e).
Proof. intros st. exact I. Qed.

Lemma raises_only_at_get (P : exn -> Prop) t name :
  P (KeyError t name) -> raises_only P (at_get t name).
Proof.
  intros HP st. unfold at_get, get_data, mbind, M_bind.
  destruct (df_at (data st) t name); [exact I|exact HP].
Qed.

Lemma raises_only_at_set (P : exn -> Prop) t name v : raises_only P (at_set t name v).
Proof. intros st. exact I. Qed.

Lemma raises_only_set_column (P : exn -> Prop) name v : raises_only P (set_column name v).
Proof. intros st. exact I. Qed.

Lemma raises_only_try_except {A} (P : exn -> Prop) (body : M A) (handler : exn -> M A) :
  (forall e, raises_only P (handler e)) -> raises_only P (try_except body handler).
Proof.
  intros Hh st. unfold try_except. destruct (body st) as [[a|e] s1]; [exact I|apply Hh].
Qed.

Lemma raises_only_for_each {A} (P : exn -> Prop) (l : list A) (body : A -> M unit) :
  (forall x, raises_only P (body x)) -> raises_only P (for_each l body).
Proof.
  intros Hb. induction l as [|x xs IH]; cbn [for_each].
  - apply raises_only_ret.
  - apply raises_only_bind; [apply Hb|intros _; exact IH].
Qed.

Ltac raises_step :=
  first
    [ apply raises_only_ret
    | apply raises_only_at_set
    | apply raises_only_set_column
    | apply raises_only_print
    | apply raises_only_put_data
    | apply raises_only_get_data_bind; intros ?
    | apply raises_only_bind; [|intros ?]
    | match goal with
      | |- raises_only _ (if ?b then _ else _) => destruct b
      | |- raises_only _ (match ?x with _ => _ end) => destruct x
      end ].

Lemma raises_only_initialise_var t name :
  raises_only (key_error_near t) (initialise_var t name).
Proof.
  unfold initialise_var.
  repeat first
    [ apply raises_only_at_get; eexists; (left; reflexivity) || (right; reflexivity)
    | raises_step ].
Qed.

Lemma raises_only__initialise_period self t :
  raises_only (key_error_near t) (_initialise_period self t).
Proof. apply raises_only_for_each. intros x. apply raises_only_initialise_var. Qed.

Lemma raises_only__pre_solve_cost_block (P : exn -> Prop) t :
  raises_only P (_pre_solve_cost_block t).
Proof.
  unfold _pre_solve_cost_block. apply raises_only_get_data_bind. intros df.
  destruct (negb (has_column df "SCOST")).
  - apply raises_only_ret.
  - apply raises_only_try_except. intros e. apply raises_only_ret.
Qed.

Lemma raises_only_adjust t pair : raises_only (key_error_near t) (adjust t pair).
Proof.
  destruct pair as [var adj_var]. unfold adjust.
  repeat first
    [ apply raises_only_at_get; eexists; left; reflexivity
    | raises_step ].
Qed.

Lemma raises_only__apply_additive_adjustments t :
  raises_only (key_error_near t) (_apply_additive_adjustments t).
Proof. apply raises_only_for_each. intros x. apply raises_only_adjust. Qed.

Lemma raises_only_sweep_equation self t verbose eq tr :
  raises_only (key_error_near t) (sweep_equation self t verbose eq tr).
Proof.
  unfold sweep_equation.
  repeat first
    [ apply raises_only_at_get; eexists; left; reflexivity
    | raises_step ].
Qed.

Lemma raises_only_sweep_equations self t verbose eqs :
  forall tr, raises_only (key_error_near t) (sweep_equations self t verbose eqs tr).
Proof.
  induction eqs as [|eq rest IH]; intros tr; cbn [sweep_equations].
  - apply raises_only_ret.
  - apply raises_only_bind; [apply raises_only_sweep_equation|intros tr'; apply IH].
Qed.

Lemma raises_only_sweep self t verbose iteration :
  raises_only (key_error_near t) (sweep self t verbose iteration).
Proof.
  unfold sweep. apply raises_only_bind; [apply raises_only_sweep_equations|intros tr].
  repeat raises_step.
Qed.

Lemma raises_only_wp {A} (P : exn -> Prop) (m : M A) st :
  raises_only P m ->
  wp m (fun r _ => match r with Raise e => P e | Ok _ => True end) st.
Proof. intros Hm. exact (Hm st). Qed.

(** The value [solve_period] returns and the exceptions it lets out, as the
    sweep loop produces them. *)
Lemma sweep_loop_outcome self t verbose (remaining : nat) :
  forall iteration last st,
    0 <= iteration ->
    iteration + Z.of_nat remaining = Z.of_nat (Z.to_nat (max_iter self)) ->
    (last = None -> iteration = 0) ->
    (last <> None -> 1 <= iteration) ->
    wp (sweep_loop self t verbose remaining iteration last)
       (fun r _ => match r with
                   | Ok n => 1 <= n <= max_iter self
                   | Raise e => key_error_near t e
                                \/ (e = UnboundLocalError "max_change"
                                    /\ max_iter self <= 0)
                   end) st.
Proof.
  induction remaining as [|k IH]; intros iteration last st H0 Hsum Hnone Hsome;
    cbn [sweep_loop].
  - destruct last as [tr|].
    + assert (1 <= iteration) by (apply Hsome; discriminate).
      apply wp_bind, wp_print, wp_bind.
      eapply wp_conseq;
        [apply raises_only_wp, raises_only__apply_additive_adjustments|].
      intros [[]|e] s He; [|left; exact He].
      apply wp_ret. lia.
    + apply wp_raise. right. split; [reflexivity|].
      specialize (Hnone eq_refl). lia.
  - apply wp_bind.
    eapply wp_conseq; [apply raises_only_wp, raises_only_sweep|].
    intros [tr|e] s He; [|left; exact He].
    destruct (PrimFloat.ltb (max_change tr) (tol self)).
    + apply wp_bind.
      eapply wp_conseq;
        [apply raises_only_wp, raises_only__apply_additive_adjustments|].
      intros [[]|e] s' He'; [|left; exact He'].
      apply wp_ret. lia.
    + apply IH; [lia|lia|discriminate|intros _; lia].
Qed.

Lemma solve_period_outcome_wp self t verbose st :
  wp (solve_period self t verbose)
     (fun r _ => match r with
                 | Ok n => 1 <= n <= max_iter self
                 | Raise e => key_error_near t e
                              \/ (e = UnboundLocalError "max_change"
                                  /\ max_iter self <= 0)
                 end) st.
Proof.
  unfold solve_period. apply wp_bind.
  eapply wp_conseq; [apply raises_only_wp, raises_only__initialise_period|].
  intros [[]|e] s He; [|left; exact He].
  apply wp_bind.
  eapply wp_conseq;
    [apply raises_only_wp, (raises_only__pre_solve_cost_block (fun _ => False))|].
  intros [[]|e] s' He'; [|destruct He'].
  apply sweep_loop_outcome; [lia|lia|reflexivity|intros H; congruence].
Qed.

(** X1. Whenever [solve_period] returns, the count it returns lies between 1
    and [max_iter]. *)
Theorem X1_solve_period_count_within_budget self t verbose st :
  match (solve_period self t verbose st).1 with
  | Ok n => 1 <= n <= max_iter self
  | Raise _ => True
  end.
Proof.
  pose proof (solve_period_outcome_wp self t verbose st) as H. unfold wp in H.
  destruct (solve_period self t verbose st).1 as [n|e]; [exact H|exact I].
Qed.

(** ** The list a range returns *)

Lemma period_range_nil (t0 t1 : Z) : t1 < t0 -> period_range t0 t1 = [].
Proof.
  intros H. unfold period_range.
  replace (Z.to_nat (t1 - t0 + 1)) with 0%nat by lia. reflexivity.
Qed.

Lemma period_range_cons (t0 t1 : Z) :
  t0 <= t1 -> period_range t0 t1 = t0 :: period_range (t0 + 1) t1.
Proof.
  intros H. unfold period_range.
  replace (Z.to_nat (t1 - t0 + 1)) with (S (Z.to_nat (t1 - (t0 + 1) + 1))) by lia.
  cbn [seq map]. f_equal; [lia|].
  rewrite <- seq_shift, map_map. apply map_ext. intros k. lia.
Qed.

Lemma solve_range_loop_results self verbose (end_period : Z) (fuel : nat) :
  forall t results st,
    fuel = Z.to_nat (end_period - t + 1) ->
    wp (solve_range_loop self fuel t end_period verbose results)
       (fun r _ => match r with
                   | Ok res =>
                       exists new,
                         res = (results ++ new)%list
                         /\ map fst new = period_range t end_period
                         /\ Forall (fun p => 1 <= snd p <= max_iter self) new
                   | Raise _ => True
                   end) st.
Proof.
  induction fuel as [|k IH]; intros t results st Hfuel; cbn [solve_range_loop].
  - apply wp_ret. exists []. rewrite app_nil_r, period_range_nil by lia.
    repeat split. constructor.
  - assert (Hle : t <= end_period) by lia.
    apply Z.leb_le in Hle as Hb. rewrite Hb.
    apply wp_bind.
    assert (Hrest : forall s,
      wp (iters ← solve_period self t verbose;
          (if verbose then print (PrintConverged iters) else mret ());;
          solve_range_loop self k (t + 1) end_period verbose
            (results ++ [(t, iters)])%list)
         (fun r _ => match r with
                     | Ok res =>
                         exists new,
                           res = (results ++ new)%list
                           /\ map fst new = period_range t end_period
                           /\ Forall (fun p => 1 <= snd p <= max_iter self) new
                     | Raise _ => True
                     end) s).
    { intros s. apply wp_bind.
      eapply wp_conseq; [apply solve_period_outcome_wp|].
      intros [n|e] s1 Hn; [|exact I].
      apply wp_bind.
      assert (Hloop : forall s2,
        wp (solve_range_loop self k (t + 1) end_period verbose
              (results ++ [(t, n)])%list)
           (fun r _ => match r with
                       | Ok res =>
                           exists new,
                             res = (results ++ new)%list
                             /\ map fst new = period_range t end_period
                             /\ Forall (fun p => 1 <= snd p <= max_iter self) new
                       | Raise _ => True
                       end) s2).
      { intros s2. eapply wp_conseq; [apply IH; lia|].
        intros [res|e] _; [|trivial].
        intros (new & -> & Hfst & Hall).
        exists ((t, n) :: new). rewrite <- app_assoc. split; [reflexivity|].
        split.
        - cbn [map fst]. rewrite Hfst. symmetry. apply period_range_cons, Hle.
        - constructor; [exact Hn|exact Hall]. }
      destruct verbose; [apply wp_print|apply wp_ret]; apply Hloop. }
    destruct verbose; [apply wp_print|apply wp_ret]; apply Hrest.
Qed.

Lemma solve_range_results_gen self t0 t1 verbose st results :
  (solve_range self t0 t1 verbose st).1 = Ok results ->
  map fst results = period_range t0 t1
  /\ Forall (fun p => 1 <= snd p <= max_iter self) results.
Proof.
  intros E.
  pose proof (solve_range_loop_results self verbose t1 (Z.to_nat (t1 - t0 + 1))
                t0 [] st eq_refl) as H.
  unfold wp in H. fold (solve_range self t0 t1 verbose) in H.
  rewrite E in H. destruct H as (new & -> & Hfst & Hall). cbn [app].
  split; assumption.
Qed.

(** X2. When [solve_range] returns, its list has one pair per period of the
    range, in increasing order from [start_period] to [end_period], and each
    count lies between 1 and [max_iter]; an empty range gives the empty
    list. *)
Theorem X2_solve_range_results self t0 t1 verbose st results :
  (solve_range self t0 t1 verbose st).1 = Ok results ->
  map fst results = period_range t0 t1
  /\ length results = Z.to_nat (t1 - t0 + 1)
  /\ Forall (fun p => 1 <= snd p <= max_iter self) results.
Proof.
  intros E. destruct (solve_range_results_gen _ _ _ _ _ _ E) as [Hfst Hall].
  splits; [exact Hfst| |exact Hall].
  rewrite <- (length_map fst), Hfst. unfold period_range.
  rewrite length_map, length_seq. reflexivity.
Qed.

Lemma X2_witness :
  map fst [(1, 18); (2, 18)] = period_range 1 2
  /\ length [(1, 18); (2, 18)] = Z.to_nat (2 - 1 + 1)
  /\ Forall (fun p => 1 <= snd p <= max_iter sample_solver) [(1, 18); (2, 18)].
Proof.
  apply (X2_solve_range_results sample_solver 1 2 false sample_state).
  vm_compute. reflexivity.
Defined.

(** ** A budget that is not positive *)

(** X3. A negative [max_iter] passes the constructor unchanged, and with it
    the loop of [solve_period] never runs: once the period is initialised
    and the cost block pre-solved, the warning's f-string reads the unbound
    [max_change] and [UnboundLocalError] is raised; nothing is printed and
    the post-processor is not applied. *)
Theorem X3_negative_budget_raises eqs m tl dm t verbose st :
  m < 0 ->
  let self := __init__ eqs (Some m) tl dm in
  t ∈ df_index (data st) -> reaches_loop self t (data st) ->
  max_iter self = m
  /\ solve_period self t verbose st
     = (Raise (UnboundLocalError "max_change"),
        {| data := prepared self t (data st); stdout := stdout st |}).
Proof.
  intros Hm self Ht Hp.
  assert (E : max_iter self = m).
  { cbn. destruct (Z.eqb_spec m 0); [lia|reflexivity]. }
  split; [exact E|].
  rewrite (solve_period_prepared self t verbose st Ht Hp), E.
  replace (Z.to_nat m) with 0%nat by lia. reflexivity.
Qed.

Lemma X3_witness :
  let self := __init__ [eq_X; eq_Y; eq_PRMIP] (Some (-1)) None None in
  max_iter self = -1
  /\ solve_period self 1 true sample_state
     = (Raise (UnboundLocalError "max_change"),
        {| data := prepared self 1 (data sample_state); stdout := [] |}).
Proof.
  apply (X3_negative_budget_raises [eq_X; eq_Y; eq_PRMIP] (-1) None None 1 true sample_state).
  - lia.
  - vm_compute. reflexivity.
  - vm_compute. reflexivity.
Defined.

(** ** An empty registry *)

(** X4. With no equation registered (and a positive tolerance and budget) a
    period converges in its first pass: [solve_period] is the pre-solver
    followed by the post-processor, and returns 1. *)
Theorem X4_empty_registry_converges_at_once self t verbose st :
  equations self = [] ->
  PrimFloat.ltb 0 (tol self) = true ->
  0 < max_iter self ->
  solve_period self t verbose st
  = (_pre_solve_cost_block t;; _apply_additive_adjustments t;; mret 1) st.
Proof.
  intros He Htol Hpos.
  unfold solve_period, _initialise_period, endogenous_vars. rewrite He.
  cbn [map for_each]. rewrite bind_ret.
  apply bind_ext. intros [] s.
  destruct (Z.to_nat (max_iter self)) as [|k] eqn:Ek; [lia|].
  cbn [sweep_loop]. unfold sweep. rewrite He. cbn [sweep_equations].
  rewrite bind_assoc, bind_ret. cbn [max_change worst_var].
  replace (verbose && ((0 + 1) mod 10 =? 0)) with false
    by (destruct verbose; reflexivity).
  rewrite bind_assoc, bind_ret, bind_ret. cbn [max_change]. rewrite Htol. reflexivity.
Qed.

Lemma X4_witness :
  solve_period (with_equations sample_solver []) 1 true sample_state
  = (_pre_solve_cost_block 1;; _apply_additive_adjustments 1;; mret 1) sample_state.
Proof.
  apply (X4_empty_registry_converges_at_once (with_equations sample_solver []) 1 true
           sample_state).
  - reflexivity.
  - vm_compute. reflexivity.
  - vm_compute. reflexivity.
Defined.

(** ** The convergence metric is a non-negative number *)

Lemma SFleb_ltb_trans (x y z : spec_float) :
  SFleb x y = true -> SFltb y z = true -> SFltb x z = true.
Proof.
  unfold SFleb, SFltb, SFcompare.
  destruct x as [[]|[]| |[] m1 e1], y as [[]|[]| |[] m2 e2],
           z as [[]|[]| |[] m3 e3];
    try discriminate; try reflexivity;
    change (Pos.compare_cont Eq m1 m2) with (Pos.compare m1 m2);
    change (Pos.compare_cont Eq m2 m3) with (Pos.compare m2 m3);
    change (Pos.compare_cont Eq m1 m3) with (Pos.compare m1 m3);
    destruct (Z.compare_spec e1 e2), (Z.compare_spec e2 e3),
             (Z.compare_spec e1 e3);
    destruct (Pos.compare_spec m1 m2), (Pos.compare_spec m2 m3),
             (Pos.compare_spec m1 m3);
    simpl; try discriminate; try reflexivity; lia.
Qed.

Lemma SFltb_leb (x y : spec_float) : SFltb x y = true -> SFleb x y = true.
Proof.
  unfold SFleb, SFltb. destruct (SFcompare x y) as [[]|]; try discriminate; reflexivity.
Qed.

Lemma leb_ltb_trans (x y z : float) :
  PrimFloat.leb x y = true -> PrimFloat.ltb y z = true -> PrimFloat.ltb x z = true.
Proof. rewrite FloatAxioms.leb_spec, !FloatAxioms.ltb_spec. apply SFleb_ltb_trans. Qed.

Lemma ltb_leb (x y : float) : PrimFloat.ltb x y = true -> PrimFloat.leb x y = true.
Proof. rewrite FloatAxioms.leb_spec, FloatAxioms.ltb_spec. apply SFltb_leb. Qed.

Lemma leb_is_number (x y : float) : PrimFloat.leb x y = true -> is_nan y = false.
Proof.
  rewrite FloatAxioms.leb_spec. intros H.
  destruct (is_nan y) eqn:E; [|reflexivity].
  apply is_nan_spec in E. rewrite E in H.
  unfold SFleb, SFcompare in H. destruct (Prim2SF x) as [[]|[]| |[] m e]; discriminate.
Qed.

Lemma track_nonneg (tr : tracker) (u : string * float * float) :
  PrimFloat.leb 0 (max_change tr) = true ->
  PrimFloat.leb 0 (max_change (track tr u)) = true.
Proof.
  intros H. unfold track.
  destruct (PrimFloat.ltb (max_change tr) (rel_change_of u)) eqn:E; [|exact H].
  cbn [max_change]. apply ltb_leb, (leb_ltb_trans _ _ _ H E).
Qed.

Lemma fold_track_nonneg (us : list (string * float * float)) :
  forall tr, PrimFloat.leb 0 (max_change tr) = true ->
             PrimFloat.leb 0 (max_change (fold_left track us tr)) = true.
Proof.
  induction us as [|u us IH]; intros tr H; cbn [fold_left]; [exact H|].
  apply IH, track_nonneg, H.
Qed.

Lemma sweep_tracker_nonneg self t df :
  PrimFloat.leb 0 (max_change (sweep_tracker self t df)) = true.
Proof. unfold sweep_tracker. apply fold_track_nonneg. reflexivity. Qed.

Lemma sweep_equation_nonneg self t verbose eq tr st :
  PrimFloat.leb 0 (max_change tr) = true ->
  wp (sweep_equation self t verbose eq tr)
     (fun r _ => match r with
                 | Ok tr' => PrimFloat.leb 0 (max_change tr') = true
                 | Raise _ => True
                 end) st.
Proof.
  intros H. unfold sweep_equation.
  apply wp_bind, wp_at_get; [intros old _|intros _; exact I].
  apply wp_bind, wp_get_data.
  destruct (eq_func eq (data st) t) as [msg| |new_val].
  - apply wp_bind. destruct verbose; [apply wp_print|apply wp_ret]; apply wp_ret, H.
  - apply wp_ret, H.
  - destruct (is_nan new_val || is_inf new_val); [apply wp_ret, H|].
    apply wp_bind, wp_at_set.
    destruct (PrimFloat.ltb (lit 1 10) _); [|apply wp_ret, H].
    destruct (PrimFloat.ltb (max_change tr) _) eqn:E; [|apply wp_ret, H].
    apply wp_ret. cbn [max_change]. apply ltb_leb, (leb_ltb_trans _ _ _ H E).
Qed.

Lemma sweep_equations_nonneg self t verbose eqs :
  forall tr st,
    PrimFloat.leb 0 (max_change tr) = true ->
    wp (sweep_equations self t verbose eqs tr)
       (fun r _ => match r with
                   | Ok tr' => PrimFloat.leb 0 (max_change tr') = true
                   | Raise _ => True
                   end) st.
Proof.
  induction eqs as [|eq rest IH]; intros tr st H; cbn [sweep_equations].
  - apply wp_ret, H.
  - apply wp_bind. eapply wp_conseq; [apply sweep_equation_nonneg, H|].
    intros [tr'|e] s H'; [apply IH, H'|exact I].
Qed.

(** X5. The convergence metric a pass leaves is never negative and never
    NaN, whatever the equations return and whatever the table holds: a
    relative change that is NaN fails the test [rel_change > max_change]
    and is not tracked. *)
Theorem X5_max_change_is_a_nonnegative_number self t verbose iteration st :
  match (sweep self t verbose iteration st).1 with
  | Ok tr => PrimFloat.leb 0 (max_change tr) = true /\ is_nan (max_change tr) = false
  | Raise _ => True
  end.
Proof.
  change (wp (sweep self t verbose iteration)
            (fun r _ => match r with
                        | Ok tr => PrimFloat.leb 0 (max_change tr) = true
                                   /\ is_nan (max_change tr) = false
                        | Raise _ => True
                        end) st).
  unfold sweep. apply wp_bind.
  eapply wp_conseq; [apply sweep_equations_nonneg; reflexivity|].
  intros [tr|e] s H; [|exact I].
  apply wp_bind.
  destruct (verbose && _); [apply wp_print|apply wp_ret];
    (apply wp_ret; split; [exact H|exact (leb_is_number _ _ H)]).
Qed.

(** ** A tolerance that is not positive *)

(** X6. With a tolerance that is not a positive number (zero, negative or
    NaN) no pass ever meets the test [max_change < tol]: every period that
    reaches the loop runs all [max_iter] passes, prints the warning and
    returns [max_iter]. *)
Theorem X6_nonpositive_tolerance_never_converges self t verbose st :
  PrimFloat.ltb 0 (tol self) = false ->
  t ∈ df_index (data st) -> reaches_loop self t (data st) ->
  0 < max_iter self ->
  exists out mc w,
    solve_period self t verbose st
    = (Ok (max_iter self),
       {| data := adjustments_data t
                    (Nat.iter (Z.to_nat (max_iter self)) (sweep_data self t)
                       (prepared self t (data st)));
          stdout := stdout st ++ out ++ [PrintWarning t (max_iter self) mc w] |}).
Proof.
  intros Htol Ht Hp Hpos.
  destruct (solve_period_exhausted self t verbose st Ht Hp Hpos) as (out & E & _).
  - intros k _.
    destruct (PrimFloat.ltb (max_change _) (tol self)) eqn:Elt; [|reflexivity].
    rewrite (leb_ltb_trans _ _ _ (sweep_tracker_nonneg self t _) Elt) in Htol.
    discriminate.
  - eexists out, _, _. exact E.
Qed.

Lemma X6_witness :
  let self := __init__ [eq_X; eq_Y; eq_PRMIP] (Some 3) (Some (-1)%float) None in
  exists out mc w,
    solve_period self 1 false sample_state
    = (Ok 3,
       {| data := adjustments_data 1
                    (Nat.iter 3 (sweep_data self 1) (prepared self 1 sample_df));
          stdout := [] ++ out ++ [PrintWarning 1 3 mc w] |}).
Proof.
  apply (X6_nonpositive_tolerance_never_converges
           (__init__ [eq_X; eq_Y; eq_PRMIP] (Some 3) (Some (-1)%float) None)
           1 false sample_state).
  - vm_compute. reflexivity.
  - vm_compute. reflexivity.
  - vm_compute. reflexivity.
  - vm_compute. reflexivity.
Defined.

(** ** The starting guess *)

Lemma df_at_set_column_other df name v t' n :
  n <> name -> df_at (df_set_column df name v) t' n = df_at df t' n.
Proof.
  intros Hn. unfold df_at, df_set_column, has_row, has_column. cbn.
  assert (E : bool_decide (n ∈ {[ name ]} ∪ df_columns df) = bool_decide (n ∈ df_columns df)).
  { apply bool_decide_ext. rewrite elem_of_union, elem_of_singleton. tauto. }
  rewrite E. destruct (decide (n = name)); [contradiction|reflexivity].
Qed.

Lemma df_at_set_column_same df name v t' :
  df_at (df_set_column df name v) t' name = if has_row df t' then Some v else None.
Proof.
  unfold df_at, df_set_column, has_row, has_column. cbn.
  rewrite (bool_decide_eq_true_2 (name ∈ {[ name ]} ∪ df_columns df))
    by (apply elem_of_union_l, elem_of_singleton; reflexivity).
  rewrite andb_true_r. destruct (decide (name = name)); [reflexivity|contradiction].
Qed.

Lemma is_nan_nan : is_nan nan = true.
Proof. reflexivity. Qed.

Lemma is_nan_one : is_nan 1 = false.
Proof. reflexivity. Qed.

Lemma lit_one : lit 10 1 = 1%float.
Proof. vm_compute. reflexivity. Qed.

(** What a successful [initialise_var] leaves. *)
Lemma initialise_var_spec (t : Z) (name : string) st :
  wp (initialise_var t name)
     (fun r s =>
        r = Ok () ->
        stdout s = stdout st
        /\ df_at (data s) t name = Some (seed_value (data st) t name)
        /\ is_nan (seed_value (data st) t name) = false
        /\ (forall t' n, n <> name -> df_at (data s) t' n = df_at (data st) t' n)
        /\ (forall t' x, df_at (data st) t' name = Some x -> is_nan x = false ->
                         df_at (data s) t' name = Some x)) st.
Proof.
  unfold initialise_var. apply wp_bind, wp_get_data.
  destruct (has_column (data st) name) eqn:En.
  - apply has_column_true in En. apply wp_bind, wp_ret.
    apply wp_bind, wp_at_get; [|intros _; discriminate].
    intros x Hx. destruct (df_at_Some_inv _ _ _ _ Hx) as (Ht & _ & _).
    destruct (is_nan x) eqn:Ex.
    + apply wp_bind, wp_at_get; [|intros _; discriminate].
      intros prev Hprev.
      assert (Hset : forall v,
        seed_value (data st) t name = v -> is_nan v = false ->
        wp (at_set t name v)
          (fun r s =>
             r = Ok () ->
             stdout s = stdout st
             /\ df_at (data s) t name = Some (seed_value (data st) t name)
             /\ is_nan (seed_value (data st) t name) = false
             /\ (forall t' n, n <> name -> df_at (data s) t' n = df_at (data st) t' n)
             /\ (forall t' x, df_at (data st) t' name = Some x -> is_nan x = false ->
                              df_at (data s) t' name = Some x)) st).
      { intros v Hv Hnan. apply wp_at_set. intros _. cbn [data stdout].
        rewrite Hv. splits.
        - reflexivity.
        - apply df_at_set_at_same.
        - exact Hnan.
        - intros t' n Hn. apply df_at_set_at_other; [exact Ht|exact En|].
          intros [_ ?]. contradiction.
        - intros t' y Hy Hny. rewrite df_at_set_at_other; [exact Hy|exact Ht|exact En|].
          intros [-> _]. congruence. }
      destruct (is_nan prev) eqn:Ep; cbn [negb].
      * rewrite lit_one. apply Hset; [|reflexivity].
        unfold seed_value. rewrite Hx, Ex, Hprev, Ep. reflexivity.
      * apply Hset; [|exact Ep].
        unfold seed_value. rewrite Hx, Ex, Hprev, Ep. reflexivity.
    + apply wp_ret. intros _. splits.
      * reflexivity.
      * unfold seed_value. rewrite Hx, Ex. reflexivity.
      * unfold seed_value. rewrite Hx, Ex. exact Ex.
      * reflexivity.
      * intros t' y Hy _. exact Hy.
  - apply not_true_iff_false in En. rewrite has_column_true in En.
    apply wp_bind, wp_set_column.
    apply wp_bind, wp_at_get; [|intros _; discriminate].
    cbn [data stdout]. intros x Hx.
    rewrite df_at_set_column_same in Hx.
    destruct (has_row (data st) t) eqn:Et; [|discriminate].
    injection Hx as <-. rewrite is_nan_nan.
    apply wp_bind, wp_at_get; [|intros _; discriminate].
    cbn [data stdout]. intros prev Hprev.
    rewrite df_at_set_column_same in Hprev.
    destruct (has_row (data st) (t - 1)); [|discriminate].
    injection Hprev as <-. rewrite is_nan_nan. cbn [negb]. rewrite lit_one.
    apply wp_at_set. intros _. cbn [data stdout].
    assert (Hseed : seed_value (data st) t name = 1%float).
    { unfold seed_value. rewrite !(df_at_None_column _ _ _ En). reflexivity. }
    rewrite Hseed. apply has_row_true in Et. splits.
    + reflexivity.
    + apply df_at_set_at_same.
    + reflexivity.
    + intros t' n Hn. rewrite df_at_set_at_other.
      * apply df_at_set_column_other, Hn.
      * exact Et.
      * cbn. apply elem_of_union_l, elem_of_singleton. reflexivity.
      * intros [_ ?]. contradiction.
    + intros t' y Hy. rewrite (df_at_None_column _ _ _ En) in Hy. discriminate.
Qed.

Lemma seed_value_ext df df' t name :
  df_at df' t name = df_at df t name ->
  df_at df' (t - 1) name = df_at df (t - 1) name ->
  seed_value df' t name = seed_value df t name.
Proof. intros E1 E2. unfold seed_value. rewrite E1, E2. reflexivity. Qed.

Lemma seed_value_defined df t name x :
  df_at df t name = Some x -> is_nan x = false -> seed_value df t name = x.
Proof. intros E Hx. unfold seed_value. rewrite E, Hx. reflexivity. Qed.

Lemma for_each_initialise_var_spec (t : Z) (names : list string) :
  forall st,
  wp (for_each names (initialise_var t))
     (fun r s =>
        r = Ok () ->
        stdout s = stdout st
        /\ (forall name, In name names ->
              df_at (data s) t name = Some (seed_value (data st) t name)
              /\ is_nan (seed_value (data st) t name) = false)
        /\ (forall t' n, ~ In n names -> df_at (data s) t' n = df_at (data st) t' n)
        /\ (forall t' n x, df_at (data st) t' n = Some x -> is_nan x = false ->
                           df_at (data s) t' n = Some x)) st.
Proof.
  induction names as [|name rest IH]; intros st; cbn [for_each].
  - apply wp_ret. intros _. splits; auto. intros name [].
  - apply wp_bind. eapply wp_conseq; [apply initialise_var_spec|].
    intros [[]|e] s1 H1; [|discriminate].
    destruct (H1 eq_refl) as (Ho1 & Hcell1 & Hnan1 & Hother1 & Hkeep1).
    eapply wp_conseq; [apply IH|].
    intros r s2 H2 Hr. destruct (H2 Hr) as (Ho2 & Hcell2 & Hother2 & Hkeep2).
    assert (Hseed : forall n, seed_value (data s1) t n = seed_value (data st) t n).
    { intros n. destruct (decide (n = name)) as [->|Hn].
      - apply seed_value_defined; assumption.
      - apply seed_value_ext; apply Hother1, Hn. }
    splits.
    + congruence.
    + intros n [<-|Hin].
      * split; [|exact Hnan1].
        destruct (in_dec string_dec name rest) as [Hin|Hnin].
        -- rewrite <- Hseed. apply Hcell2, Hin.
        -- rewrite (Hother2 _ _ Hnin). exact Hcell1.
      * rewrite <- Hseed. apply Hcell2, Hin.
    + intros t' n Hnin. rewrite Hother2, Hother1; [reflexivity| |]; intros Hin; apply Hnin.
      * left. symmetry. exact Hin.
      * right. exact Hin.
    + intros t' n x Hx Hnx. apply Hkeep2; [|exact Hnx].
      destruct (decide (n = name)) as [->|Hn].
      * apply Hkeep1; assumption.
      * rewrite Hother1; assumption.
Qed.

(** X7. When [_initialise_period] completes, every endogenous variable holds
    a number at period [t]: the value it had if that was defined, else the
    previous quarter's value if that is defined, else [1.0].  No defined
    value of the table is overwritten, the columns of other variables are
    untouched, and nothing is printed. *)
Theorem X7_initialisation_seeds_every_variable self t st st' :
  _initialise_period self t st = (Ok (), st') ->
  (forall name, In name (endogenous_vars self) ->
     df_at (data st') t name = Some (seed_value (data st) t name)
     /\ is_nan (seed_value (data st) t name) = false)
  /\ (forall t' name x, df_at (data st) t' name = Some x -> is_nan x = false ->
        df_at (data st') t' name = Some x)
  /\ (forall t' name, ~ In name (endogenous_vars self) ->
        df_at (data st') t' name = df_at (data st) t' name)
  /\ stdout st' = stdout st.
Proof.
  intros E.
  pose proof (for_each_initialise_var_spec t (endogenous_vars self) st) as H.
  unfold wp in H. fold (_initialise_period self t) in H. rewrite E in H.
  destruct (H eq_refl) as (Ho & Hcell & Hother & Hkeep). splits; assumption.
Qed.

Lemma X7_witness :
  let st' := (_initialise_period sample_solver 1 sample_state).2 in
  (forall name, In name (endogenous_vars sample_solver) ->
     df_at (data st') 1 name = Some (seed_value sample_df 1 name)
     /\ is_nan (seed_value sample_df 1 name) = false)
  /\ (forall t' name x, df_at sample_df t' name = Some x -> is_nan x = false ->
        df_at (data st') t' name = Some x)
  /\ (forall t' name, ~ In name (endogenous_vars sample_solver) ->
        df_at (data st') t' name = df_at sample_df t' name)
  /\ stdout st' = [].
Proof.
  apply (X7_initialisation_seeds_every_variable sample_solver 1 sample_state).
  vm_compute. reflexivity.
Defined.

Lemma initialise_var_defined (t : Z) (name : string) st :
  defined_at (data st) t name -> initialise_var t name st = (Ok (), st).
Proof.
  intros (x & Hx & Hnan).
  destruct (df_at_Some_inv _ _ _ _ Hx) as (_ & Hn & _).
  apply has_column_true in Hn.
  unfold initialise_var.
  rewrite (bind_Ok get_data _ st st (data st) eq_refl), Hn, bind_ret.
  rewrite (bind_Ok _ _ _ _ _ (at_get_Some st t name x Hx)), Hnan. reflexivity.
Qed.

Lemma for_each_initialise_var_defined (t : Z) (names : list string) st :
  (forall name, In name names -> defined_at (data st) t name) ->
  for_each names (initialise_var t) st = (Ok (), st).
Proof.
  induction names as [|name rest IH]; intros H; cbn [for_each]; [reflexivity|].
  rewrite (bind_Ok _ _ _ _ _ (initialise_var_defined t name st (H name (or_introl eq_refl)))).
  apply IH. intros n Hin. apply H. right. exact Hin.
Qed.

(** X8. Initialising a period a second time changes nothing: after a
    successful [_initialise_period], running it again at the same period
    succeeds and leaves the table and the output exactly as they are. *)
Theorem X8_initialisation_is_idempotent self t st st' :
  _initialise_period self t st = (Ok (), st') ->
  _initialise_period self t st' = (Ok (), st').
Proof.
  intros E.
  pose proof (for_each_initialise_var_spec t (endogenous_vars self) st) as H.
  unfold wp in H. fold (_initialise_period self t) in H. rewrite E in H.
  destruct (H eq_refl) as (_ & Hcell & _).
  apply for_each_initialise_var_defined. intros name Hin.
  destruct (Hcell name Hin) as [Hc Hn]. eexists. split; eassumption.
Qed.

Lemma X8_witness :
  let st' := (_initialise_period sample_solver 1 sample_state).2 in
  _initialise_period sample_solver 1 st' = (Ok (), st').
Proof.
  apply (X8_initialisation_is_idempotent sample_solver 1 sample_state).
  vm_compute. reflexivity.
Defined.

(** ** Periods at the edge of the table *)

Lemma initialise_var_first_row (t : Z) (name : string) st :
  t - 1 ∉ df_index (data st) ->
  wp (initialise_var t name)
     (fun r s => r = Ok () -> defined_at (data st) t name /\ s = st) st.
Proof.
  intros Hp. unfold initialise_var. apply wp_bind, wp_get_data.
  destruct (has_column (data st) name) eqn:En.
  - apply wp_bind, wp_ret. apply wp_bind, wp_at_get; [|intros _; discriminate].
    intros x Hx. destruct (is_nan x) eqn:Ex.
    + apply wp_bind, wp_at_get; [|intros _; discriminate].
      intros prev Hprev. rewrite (df_at_None_row _ _ _ Hp) in Hprev. discriminate.
    + apply wp_ret. intros _. split; [|reflexivity]. exists x. split; assumption.
  - apply wp_bind, wp_set_column. apply wp_bind, wp_at_get; [|intros _; discriminate].
    cbn [data]. intros x Hx. rewrite df_at_set_column_same in Hx.
    destruct (has_row (data st) t); [|discriminate]. injection Hx as <-.
    rewrite is_nan_nan.
    apply wp_bind, wp_at_get; [|intros _; discriminate].
    cbn [data]. intros prev Hprev. rewrite df_at_set_column_same in Hprev.
    destruct (has_row (data st) (t - 1)) eqn:Er; [|discriminate].
    apply has_row_true in Er. contradiction.
Qed.

Lemma for_each_initialise_var_first_row (t : Z) (names : list string) st :
  t - 1 ∉ df_index (data st) ->
  wp (for_each names (initialise_var t))
     (fun r s => r = Ok () ->
                 (forall name, In name names -> defined_at (data st) t name) /\ s = st) st.
Proof.
  intros Hp. induction names as [|name rest IH]; cbn [for_each].
  - apply wp_ret. intros _. split; [intros name []|reflexivity].
  - apply wp_bind. eapply wp_conseq; [apply initialise_var_first_row, Hp|].
    intros [[]|e] s1 H1; [|discriminate].
    destruct (H1 eq_refl) as [Hd ->].
    eapply wp_conseq; [exact IH|].
    intros r s2 H2 Hr. destruct (H2 Hr) as [Hall ->]. split; [|reflexivity].
    intros n [<-|Hin]; [exact Hd|apply Hall, Hin].
Qed.

(** X9. At a period whose previous quarter is not a row of the table (the
    table's first row), [_initialise_period] succeeds exactly when every
    endogenous variable already holds a number there; otherwise it raises
    [KeyError], for a label of row [t] or of the missing row [t - 1]. *)
Theorem X9_first_row_needs_every_variable self t st :
  t - 1 ∉ df_index (data st) ->
  ((_initialise_period self t st).1 = Ok ()
   <-> (forall name, In name (endogenous_vars self) ->
          exists x, df_at (data st) t name = Some x /\ is_nan x = false))
  /\ (forall e, (_initialise_period self t st).1 = Raise e ->
        exists name, e = KeyError t name \/ e = KeyError (t - 1) name).
Proof.
  intros Hp. split; [split|].
  - intros E.
    pose proof (for_each_initialise_var_first_row t (endogenous_vars self) st Hp) as H.
    unfold wp in H. fold (_initialise_period self t) in H.
    apply H, E.
  - intros H. unfold _initialise_period.
    rewrite (for_each_initialise_var_defined t _ st H). reflexivity.
  - intros e E. pose proof (raises_only__initialise_period self t st) as H.
    rewrite E in H. exact H.
Qed.

Lemma X9_witness :
  ((_initialise_period (with_equations sample_solver [eq_X]) 0 sample_state).1 = Ok ()
   <-> (forall name, In name (endogenous_vars (with_equations sample_solver [eq_X])) ->
          exists x, df_at sample_df 0 name = Some x /\ is_nan x = false))
  /\ (forall e,
        (_initialise_period (with_equations sample_solver [eq_X]) 0 sample_state).1
        = Raise e ->
        exists name, e = KeyError 0 name \/ e = KeyError (0 - 1) name).
Proof.
  apply (X9_first_row_needs_every_variable (with_equations sample_solver [eq_X]) 0
           sample_state).
  vm_compute. intros H. discriminate H.
Defined.

(** X10. Solving a period that is not a row of the table fails at once: with
    a non-empty registry [solve_period] raises [KeyError] for the first
    variable before anything is computed or printed.  The only trace it
    leaves is that variable's column, created (all NaN) if it was missing. *)
Theorem X10_missing_period_raises_key_error self t verbose st eq rest :
  equations self = eq :: rest ->
  t ∉ df_index (data st) ->
  solve_period self t verbose st
  = (Raise (KeyError t (eq_name eq)),
     if has_column (data st) (eq_name eq) then st
     else {| data := df_set_column (data st) (eq_name eq) nan; stdout := stdout st |}).
Proof.
  intros He Ht.
  unfold solve_period, _initialise_period, endogenous_vars. rewrite He.
  cbn [map for_each].
  assert (E : initialise_var t (eq_name eq) st
              = (Raise (KeyError t (eq_name eq)),
                 if has_column (data st) (eq_name eq) then st
                 else {| data := df_set_column (data st) (eq_name eq) nan;
                         stdout := stdout st |})).
  { unfold initialise_var.
    rewrite (bind_Ok get_data _ st st (data st) eq_refl).
    destruct (has_column (data st) (eq_name eq)).
    - rewrite bind_ret.
      apply bind_Raise, at_get_None, df_at_None_row, Ht.
    - rewrite (bind_Ok (set_column (eq_name eq) nan) _ st
                 {| data := df_set_column (data st) (eq_name eq) nan;
                    stdout := stdout st |} () eq_refl).
      apply bind_Raise, at_get_None, df_at_None_row. exact Ht. }
  rewrite (bind_assoc (initialise_var t (eq_name eq))).
  apply (bind_Raise _ _ _ _ _ E).
Qed.

Lemma X10_witness :
  solve_period sample_solver 7 true sample_state
  = (Raise (KeyError 7 "X"),
     if has_column sample_df "X" then sample_state
     else {| data := df_set_column sample_df "X" nan; stdout := [] |}).
Proof.
  apply (X10_missing_period_raises_key_error sample_solver 7 true sample_state eq_X
           [eq_Y; eq_PRMIP]).
  - reflexivity.
  - vm_compute. intros H. discriminate H.
Defined.

(** ** The pre-solver never fails *)

Lemma df_at_set_at_other_column (df : DataFrame) (t t' : Z) (name n : string) (v : float) :
  t ∈ df_index df -> n <> name ->
  df_at (df_set_at df t name v) t' n = df_at df t' n.
Proof.
  intros Ht Hn. unfold df_at, df_set_at, has_row, has_column. cbn.
  rewrite (bool_decide_add_present t' t (df_index df) Ht).
  assert (E : bool_decide (n ∈ {[ name ]} ∪ df_columns df) = bool_decide (n ∈ df_columns df)).
  { apply bool_decide_ext. rewrite elem_of_union, elem_of_singleton. tauto. }
  rewrite E.
  destruct (bool_decide (t' ∈ df_index df) && bool_decide (n ∈ df_columns df)) eqn:Eb;
    [|reflexivity].
  destruct (decide (t' = t /\ n = name)) as [[_ ?]|_]; [contradiction|reflexivity].
Qed.

Lemma _pre_solve_cost_block_confined (t : Z) st :
  wp (_pre_solve_cost_block t)
     (fun r s =>
        r = Ok ()
        /\ stdout s = stdout st
        /\ df_index (data s) = df_index (data st)
        /\ forall t' name,
             name <> "SCOST" -> name <> "CCOST" -> name <> "UTCOST" ->
             df_at (data s) t' name = df_at (data st) t' name) st.
Proof.
  unfold _pre_solve_cost_block. apply wp_bind, wp_get_data.
  destruct (has_column (data st) "SCOST") eqn:Es; cbn [negb].
  2:{ apply wp_ret. splits; auto. }
  apply wp_try_except, wp_bind.
  eapply wp_conseq; [apply read_cost_inputs_effect|].
  intros [i|e] s [-> Hr].
  2:{ apply wp_ret. splits; auto. }
  assert (Ht : t ∈ df_index (data st)) by (apply (Hr "ULCMS"); cbn; tauto).
  destruct (linalg_solve_cost_matrix_float (cost_rhs i)) as [[[x0 x1] x2] ->].
  apply wp_bind, wp_at_set, wp_bind, wp_at_set, wp_at_set. cbn [data stdout].
  splits.
  - reflexivity.
  - reflexivity.
  - cbn. rewrite !(union_present t (df_index (data st)) Ht). reflexivity.
  - intros t' name H1 H2 H3.
    rewrite !df_at_set_at_other_column; try assumption; try reflexivity.
    + cbn. rewrite (union_present t (df_index (data st)) Ht). exact Ht.
    + cbn. rewrite !(union_present t (df_index (data st)) Ht). exact Ht.
Qed.

(** X11. [_pre_solve_cost_block] never raises and never prints, whatever the
    table holds: every failure inside it is swallowed.  It adds no row, and
    the only cells it can change are in the columns [SCOST], [CCOST] and
    [UTCOST]. *)
Theorem X11_pre_solver_never_fails t st :
  exists st',
    _pre_solve_cost_block t st = (Ok (), st')
    /\ stdout st' = stdout st
    /\ df_index (data st') = df_index (data st)
    /\ forall t' name,
         name <> "SCOST" -> name <> "CCOST" -> name <> "UTCOST" ->
         df_at (data st') t' name = df_at (data st) t' name.
Proof.
  pose proof (_pre_solve_cost_block_confined t st) as H. unfold wp in H.
  destruct (_pre_solve_cost_block t st) as [r st']. cbn [fst snd] in H.
  destruct H as (-> & H). exists st'. split; [reflexivity|exact H].
Qed.

(** X12. The pre-solver writes all three values or nothing: when the column
    [SCOST] is absent, or when one of its fourteen inputs cannot be read at
    period [t], it returns with the table exactly as it was, leaving the
    three variables to the sweeps. *)
Theorem X12_pre_solver_falls_back_untouched t st :
  "SCOST" ∉ df_columns (data st)
  \/ (exists c, In c COST_INPUT_COLUMNS /\ df_at (data st) t c = None) ->
  _pre_solve_cost_block t st = (Ok (), st).
Proof.
  intros H. unfold _pre_solve_cost_block.
  rewrite (bind_Ok get_data _ st st (data st) eq_refl).
  destruct (has_column (data st) "SCOST") eqn:Es; cbn [negb]; [|reflexivity].
  destruct H as [H|(c & Hc & Hnone)].
  { apply has_column_true in Es. contradiction. }
  pose proof (read_cost_inputs_effect t st) as Hr. unfold wp in Hr.
  unfold try_except, mbind, M_bind at 1.
  destruct (read_cost_inputs t st) as [[i|e] s]; cbn [fst snd] in Hr;
    destruct Hr as [-> Hr].
  - exfalso. destruct (Hr c Hc) as [Ht Hcol].
    destruct (df_at_is_Some _ _ _ Ht Hcol) as [x Hx]. congruence.
  - reflexivity.
Qed.

Lemma X12_witness :
  _pre_solve_cost_block 1 sample_state = (Ok (), sample_state).
Proof.
  apply (X12_pre_solver_falls_back_untouched 1 sample_state).
  left. vm_compute. intros H. discriminate H.
Defined.

(** ** The post-processor at a period outside the table *)

Lemma adjust_missing_row (t : Z) (pair : string * string) st :
  t ∉ df_index (data st) ->
  adjust t pair st
  = (if has_column (data st) pair.1 && has_column (data st) pair.2
     then Raise (KeyError t pair.2) else Ok (), st).
Proof.
  intros Ht. destruct pair as [var adj_var]. unfold adjust. cbn [fst snd].
  rewrite (bind_Ok get_data _ st st (data st) eq_refl).
  destruct (has_column (data st) var && has_column (data st) adj_var); [|reflexivity].
  apply bind_Raise, at_get_None, df_at_None_row, Ht.
Qed.

Lemma for_each_adjust_missing_row (t : Z) (table : list (string * string)) st :
  t ∉ df_index (data st) ->
  exists r, for_each table (adjust t) st = (r, st)
    /\ match r with
       | Ok _ =>
           forall var adj_var, In (var, adj_var) table ->
             ~ (var ∈ df_columns (data st) /\ adj_var ∈ df_columns (data st))
       | Raise e =>
           exists before var adj_var after,
             table = (before ++ (var, adj_var) :: after)%list
             /\ (forall v a, In (v, a) before ->
                   ~ (v ∈ df_columns (data st) /\ a ∈ df_columns (data st)))
             /\ var ∈ df_columns (data st) /\ adj_var ∈ df_columns (data st)
             /\ e = KeyError t adj_var
       end.
Proof.
  intros Ht. induction table as [|[var adj_var] rest IH]; cbn [for_each].
  - exists (Ok ()). split; [reflexivity|]. intros ? ? [].
  - pose proof (adjust_missing_row t (var, adj_var) st Ht) as E. cbn [fst snd] in E.
    destruct (has_column (data st) var && has_column (data st) adj_var) eqn:Eb.
    + exists (Raise (KeyError t adj_var)). split; [apply (bind_Raise _ _ _ _ _ E)|].
      apply andb_true_iff in Eb. rewrite !has_column_true in Eb. destruct Eb as [Hv Ha].
      exists [], var, adj_var, rest. splits; try assumption; try reflexivity.
      intros ? ? [].
    + assert (Hnot : ~ (var ∈ df_columns (data st) /\ adj_var ∈ df_columns (data st))).
      { intros [Hv Ha]. apply has_column_true in Hv, Ha. rewrite Hv, Ha in Eb.
        discriminate. }
      destruct IH as (r & Er & Hr). exists r.
      split; [rewrite (bind_Ok _ _ _ _ _ E); exact Er|].
      destruct r as [[]|e].
      * intros v a [[= <- <-]|Hin]; [exact Hnot|apply Hr, Hin].
      * destruct Hr as (before & v & a & after & -> & Hb & Hv & Ha & ->).
        exists ((var, adj_var) :: before), v, a, after. splits; try assumption;
          try reflexivity.
        intros v' a' [[= <- <-]|Hin]; [exact Hnot|apply Hb, Hin].
Qed.

(** X13. At a period that is not a row of the table the post-processor
    changes nothing: it returns normally when no pair of the adjustment
    table has both its columns in the table, and otherwise raises
    [KeyError] for the adjustment variable of the first such pair, before
    any cell is written. *)
Theorem X13_adjustments_outside_the_table t st :
  t ∉ df_index (data st) ->
  exists r,
    _apply_additive_adjustments t st = (r, st)
    /\ match r with
       | Ok _ =>
           forall var adj_var, In (var, adj_var) ADDITIVE_ADJUSTMENTS ->
             ~ (var ∈ df_columns (data st) /\ adj_var ∈ df_columns (data st))
       | Raise e =>
           exists before var adj_var after,
             ADDITIVE_ADJUSTMENTS = (before ++ (var, adj_var) :: after)%list
             /\ (forall v a, In (v, a) before ->
                   ~ (v ∈ df_columns (data st) /\ a ∈ df_columns (data st)))
             /\ var ∈ df_columns (data st) /\ adj_var ∈ df_columns (data st)
             /\ e = KeyError t adj_var
       end.
Proof. apply for_each_adjust_missing_row. Qed.

Lemma X13_witness :
  exists r,
    _apply_additive_adjustments 7 sample_state = (r, sample_state)
    /\ match r with
       | Ok _ =>
           forall var adj_var, In (var, adj_var) ADDITIVE_ADJUSTMENTS ->
             ~ (var ∈ df_columns sample_df /\ adj_var ∈ df_columns sample_df)
       | Raise e =>
           exists before var adj_var after,
             ADDITIVE_ADJUSTMENTS = (before ++ (var, adj_var) :: after)%list
             /\ (forall v a, In (v, a) before ->
                   ~ (v ∈ df_columns sample_df /\ a ∈ df_columns sample_df))
             /\ var ∈ df_columns sample_df /\ adj_var ∈ df_columns sample_df
             /\ e = KeyError 7 adj_var
       end.
Proof.
  apply (X13_adjustments_outside_the_table 7 sample_state).
  vm_compute. intros H. discriminate H.
Defined.

(** ** What a quiet run prints *)

Lemma sweep_equation_quiet self t eq tr st :
  wp (sweep_equation self t false eq tr) (fun _ s => stdout s = stdout st) st.
Proof.
  unfold sweep_equation.
  apply wp_bind, wp_at_get; [intros old _|intros _; reflexivity].
  apply wp_bind, wp_get_data.
  destruct (eq_func eq (data st) t) as [msg| |new_val].
  - apply wp_bind, wp_ret, wp_ret. reflexivity.
  - apply wp_ret. reflexivity.
  - destruct (is_nan new_val || is_inf new_val); [apply wp_ret; reflexivity|].
    apply wp_bind, wp_at_set.
    destruct (PrimFloat.ltb (lit 1 10) _); [|apply wp_ret; reflexivity].
    destruct (PrimFloat.ltb (max_change tr) _); apply wp_ret; reflexivity.
Qed.

Lemma sweep_equations_quiet self t eqs :
  forall tr st,
    wp (sweep_equations self t false eqs tr) (fun _ s => stdout s = stdout st) st.
Proof.
  induction eqs as [|eq rest IH]; intros tr st; cbn [sweep_equations].
  - apply wp_ret. reflexivity.
  - apply wp_bind. eapply wp_conseq; [apply sweep_equation_quiet|].
    intros [tr'|e] s Hs; [|exact Hs].
    eapply wp_conseq; [apply IH|]. intros r s' Hs'. congruence.
Qed.

Lemma sweep_quiet self t iteration st :
  wp (sweep self t false iteration) (fun _ s => stdout s = stdout st) st.
Proof.
  unfold sweep. apply wp_bind.
  eapply wp_conseq; [apply sweep_equations_quiet|].
  intros [tr|e] s Hs; [|exact Hs].
  cbn [andb]. apply wp_bind, wp_ret, wp_ret. exact Hs.
Qed.

Lemma adjustments_then_ret_quiet {A} (t : Z) (a : A) (out : list event) st :
  stdout st = out ->
  wp (_apply_additive_adjustments t;; mret a) (fun _ s => stdout s = out) st.
Proof.
  intros Ho. apply wp_bind.
  eapply wp_conseq; [apply _apply_additive_adjustments_frame|].
  intros [[]|e] s [_ Hs]; [apply wp_ret|]; congruence.
Qed.

Lemma sweep_loop_quiet self t (remaining : nat) :
  forall iteration last st,
    wp (sweep_loop self t false remaining iteration last)
       (fun _ s =>
          stdout s = stdout st
          \/ exists mc w, stdout s = (stdout st ++ [PrintWarning t (max_iter self) mc w])%list) st.
Proof.
  induction remaining as [|k IH]; intros iteration last st; cbn [sweep_loop].
  - destruct last as [tr|].
    + apply wp_bind, wp_print.
      eapply wp_conseq; [apply adjustments_then_ret_quiet; reflexivity|].
      intros r s Hs. right. exists (max_change tr), (worst_var tr). exact Hs.
    + apply wp_raise. left. reflexivity.
  - apply wp_bind. eapply wp_conseq; [apply sweep_quiet|].
    intros [tr|e] s Hs; [|left; exact Hs].
    destruct (PrimFloat.ltb (max_change tr) (tol self)).
    + eapply wp_conseq; [apply adjustments_then_ret_quiet; reflexivity|].
      intros r s' Hs'. left. congruence.
    + eapply wp_conseq; [apply IH|]. intros r s' Hs'. rewrite <- Hs. exact Hs'.
Qed.

Lemma solve_period_quiet self t st :
  wp (solve_period self t false)
     (fun _ s =>
        stdout s = stdout st
        \/ exists mc w, stdout s = (stdout st ++ [PrintWarning t (max_iter self) mc w])%list) st.
Proof.
  unfold solve_period. apply wp_bind.
  eapply wp_conseq; [apply _initialise_period_effect|].
  intros [[]|e] s1 (Ho1 & _); [|left; exact Ho1].
  apply wp_bind. eapply wp_conseq; [apply _pre_solve_cost_block_effect|].
  intros r2 s2 (-> & Ho2 & _).
  eapply wp_conseq; [apply sweep_loop_quiet|].
  intros r s3 Hs3. rewrite <- Ho1, <- Ho2. exact Hs3.
Qed.

Lemma increasing_within_weaken (lo lo' hi : Z) (ts : list Z) :
  lo <= lo' -> increasing_within lo' hi ts -> increasing_within lo hi ts.
Proof.
  intros Hlo. destruct ts as [|t rest]; [exact id|].
  cbn [increasing_within]. intros [Ht Hr]. split; [lia|exact Hr].
Qed.

Lemma solve_range_loop_quiet self (t0 end_period : Z) (fuel : nat) :
  forall t results st,
    t0 <= t ->
    wp (solve_range_loop self fuel t end_period false results)
       (fun _ s =>
          exists out,
            stdout s = (stdout st ++ out)%list
            /\ forallb (is_warning_of self t0 end_period) out = true
            /\ (length out <= fuel)%nat
            /\ increasing_within t end_period (omap warning_period out)) st.
Proof.
  induction fuel as [|k IH]; intros t results st Ht; cbn [solve_range_loop].
  - apply wp_ret. exists []. rewrite app_nil_r. repeat split. reflexivity.
  - destruct (Z.leb_spec t end_period) as [Hle|Hgt].
    2:{ apply wp_ret. exists []. rewrite app_nil_r. repeat split. cbn. lia. }
    apply wp_bind, wp_ret. apply wp_bind.
    eapply wp_conseq; [apply solve_period_quiet|].
    assert (Hrest : forall n s1 out1,
      stdout s1 = (stdout st ++ out1)%list ->
      forallb (is_warning_of self t0 end_period) out1 = true ->
      (length out1 <= 1)%nat ->
      (forall ts, increasing_within (t + 1) end_period ts ->
                  increasing_within t end_period (omap warning_period out1 ++ ts)) ->
      wp ((mret ();; solve_range_loop self k (t + 1) end_period false
                       (results ++ [(t, n)])%list) : M _)
         (fun _ s =>
            exists out,
              stdout s = (stdout st ++ out)%list
              /\ forallb (is_warning_of self t0 end_period) out = true
              /\ (length out <= S k)%nat
              /\ increasing_within t end_period (omap warning_period out)) s1).
    { intros n s1 out1 Ho1 Hw1 Hl1 Hi1. apply wp_bind, wp_ret.
      eapply wp_conseq; [apply IH; lia|].
      intros r s2 (out2 & Ho2 & Hw2 & Hl2 & Hi2). exists (out1 ++ out2)%list.
      rewrite Ho2, Ho1, <- app_assoc, forallb_app, Hw1, Hw2, length_app, omap_app.
      repeat split; [lia|]. apply Hi1, Hi2. }
    assert (Hw : forall mc w,
      forallb (is_warning_of self t0 end_period) [PrintWarning t (max_iter self) mc w]
      = true).
    { intros mc w. cbn. rewrite Z.eqb_refl. replace (t0 <=? t) with true by lia.
      replace (t <=? end_period) with true by lia. reflexivity. }
    intros [n|e] s1 [Hs1|(mc & w & Hs1)].
    + apply (Hrest n s1 []); [rewrite app_nil_r; exact Hs1|reflexivity|cbn; lia|].
      intros ts. apply increasing_within_weaken. lia.
    + apply (Hrest n s1 [PrintWarning t (max_iter self) mc w]);
        [exact Hs1|apply Hw|cbn; lia|].
      intros ts Hts. cbn. split; [lia|exact Hts].
    + exists []. rewrite app_nil_r. repeat split; [exact Hs1|cbn; lia].
    + exists [PrintWarning t (max_iter self) mc w].
      repeat split; [exact Hs1|apply Hw|cbn; lia|cbn; lia|cbn; lia].
Qed.

(** X14. With [verbose=False] a run of [solve_range] prints nothing but
    non-convergence warnings, each for a period of the range and for the
    solver's budget; the periods of the warnings increase strictly, so
    that no period has more than one. *)
Theorem X14_quiet_range_prints_only_warnings self t0 t1 st :
  exists out,
    stdout (solve_range self t0 t1 false st).2 = (stdout st ++ out)%list
    /\ forallb (is_warning_of self t0 t1) out = true
    /\ (length out <= Z.to_nat (t1 - t0 + 1))%nat
    /\ increasing_within t0 t1 (omap warning_period out).
Proof.
  exact (solve_range_loop_quiet self t0 t1 (Z.to_nat (t1 - t0 + 1)) t0 [] st
           (Z.le_refl t0)).
Qed.

(** ** What a verbose run prints for a period that did not converge *)

(** X15. A verbose [solve_range] reports every period as converged, also one
    that was not: for a period whose budget runs out, the output is the
    line [Solving t...], the progress lines of the passes, the warning, and
    then [converged in max_iter iterations]. *)
Theorem X15_verbose_log_says_converged_after_the_warning self t st :
  t ∈ df_index (data st) -> reaches_loop self t (data st) ->
  0 < max_iter self ->
  (forall k, (k < Z.to_nat (max_iter self))%nat ->
     PrimFloat.ltb
       (max_change (sweep_tracker self t
                      (Nat.iter k (sweep_data self t) (prepared self t (data st)))))
       (tol self) = false) ->
  exists out mc w st',
    solve_range self t t true st = (Ok [(t, max_iter self)], st')
    /\ stdout st'
       = (stdout st ++ [PrintSolving t] ++ out
          ++ [PrintWarning t (max_iter self) mc w; PrintConverged (max_iter self)])%list
    /\ forallb (fun e => negb (is_warning e)) out = true.
Proof.
  intros Ht Hp Hpos Hnever.
  set (st1 := {| data := data st; stdout := (stdout st ++ [PrintSolving t])%list |}).
  destruct (solve_period_exhausted self t true st1 Ht Hp Hpos Hnever) as (out & E & Hw).
  eexists out, _, _, _. split; [|split; [|exact Hw]].
  - unfold solve_range. replace (Z.to_nat (t - t + 1)) with 1%nat by lia.
    cbn [solve_range_loop]. rewrite Z.leb_refl.
    rewrite bind_print. fold st1.
    rewrite (bind_Ok _ _ _ _ _ E), bind_print. cbn [data stdout app]. reflexivity.
  - subst st1. cbn [stdout data]. rewrite <- !app_assoc. reflexivity.
Qed.

Lemma X15_witness :
  exists out mc w st',
    solve_range sample_solver_short 1 1 true sample_state
    = (Ok [(1, max_iter sample_solver_short)], st')
    /\ stdout st'
       = (stdout sample_state ++ [PrintSolving 1] ++ out
          ++ [PrintWarning 1 (max_iter sample_solver_short) mc w;
              PrintConverged (max_iter sample_solver_short)])%list
    /\ forallb (fun e => negb (is_warning e)) out = true.
Proof.
  apply (X15_verbose_log_says_converged_after_the_warning sample_solver_short 1 sample_state).
  - vm_compute. reflexivity.
  - vm_compute. reflexivity.
  - vm_compute. reflexivity.
  - intros k Hk. change (Z.to_nat (max_iter sample_solver_short)) with 3%nat in Hk.
    destruct k as [|[|[|k]]]; [vm_compute; reflexivity..|lia].
Defined.

(** ** Which variable the warning names *)







(** ** Solving reads no later period *)

Lemma agree_upto_mono (t t1 : Z) df df' :
  t <= t1 -> agree_upto t1 df df' -> agree_upto t df df'.
Proof.
  intros Hle (Hc & Hi & Ha). unfold agree_upto. splits.
  - exact Hc.
  - intros t' Ht'. apply Hi. lia.
  - intros t' name Ht'. apply Ha. lia.
Qed.

Lemma agree_has_column t df df' name :
  agree_upto t df df' -> has_column df' name = has_column df name.
Proof. intros (Hc & _). unfold has_column. rewrite Hc. reflexivity. Qed.

Lemma agree_has_row t df df' t' :
  agree_upto t df df' -> t' <= t -> has_row df' t' = has_row df t'.
Proof.
  intros (_ & Hi & _) Ht'. unfold has_row. apply bool_decide_ext. symmetry. apply Hi, Ht'.
Qed.

Lemma df_at_set_at_general df t name v t' n :
  df_at (df_set_at df t name v) t' n
  = if decide (t' = t /\ n = name) then Some v
    else if (has_row df t' || bool_decide (t' = t))
            && (has_column df n || bool_decide (n = name))
         then Some (default nan (df_at df t' n))
         else None.
Proof.
  unfold df_at, df_set_at, has_row, has_column. cbn.
  assert (Er : bool_decide (t' ∈ {[ t ]} ∪ df_index df)
               = bool_decide (t' ∈ df_index df) || bool_decide (t' = t)).
  { apply eq_true_iff_eq. rewrite orb_true_iff, !bool_decide_eq_true.
    rewrite elem_of_union, elem_of_singleton. tauto. }
  assert (Ec : bool_decide (n ∈ {[ name ]} ∪ df_columns df)
               = bool_decide (n ∈ df_columns df) || bool_decide (n = name)).
  { apply eq_true_iff_eq. rewrite orb_true_iff, !bool_decide_eq_true.
    rewrite elem_of_union, elem_of_singleton. tauto. }
  rewrite Er, Ec.
  destruct (decide (t' = t /\ n = name)) as [[-> ->]|Hne].
  - rewrite (bool_decide_eq_true_2 (t = t) eq_refl),
      (bool_decide_eq_true_2 (name = name) eq_refl), !orb_true_r. reflexivity.
  - destruct ((bool_decide (t' ∈ df_index df) || bool_decide (t' = t))
              && (bool_decide (n ∈ df_columns df) || bool_decide (n = name)));
      [|reflexivity].
    destruct (bool_decide (t' ∈ df_index df) && bool_decide (n ∈ df_columns df));
      reflexivity.
Qed.

Lemma agree_upto_set_at t df df' t0 name v :
  agree_upto t df df' ->
  agree_upto t (df_set_at df t0 name v) (df_set_at df' t0 name v).
Proof.
  intros H. pose proof H as (Hc & Hi & Ha). unfold agree_upto. splits.
  - cbn. rewrite Hc. reflexivity.
  - intros t' Ht'. cbn. rewrite !elem_of_union, (Hi t' Ht'). reflexivity.
  - intros t' n Ht'. rewrite !df_at_set_at_general.
    rewrite (agree_has_row t df df' t' H Ht'), (agree_has_column t df df' n H),
      (Ha t' n Ht'). reflexivity.
Qed.

Lemma agree_upto_set_column t df df' name v :
  agree_upto t df df' ->
  agree_upto t (df_set_column df name v) (df_set_column df' name v).
Proof.
  intros H. pose proof H as (Hc & Hi & Ha). unfold agree_upto. splits.
  - cbn. rewrite Hc. reflexivity.
  - intros t' Ht'. cbn. apply Hi, Ht'.
  - intros t' n Ht'. destruct (decide (n = name)) as [->|Hn].
    + rewrite !df_at_set_column_same, (agree_has_row t df df' t' H Ht'). reflexivity.
    + rewrite !df_at_set_column_other by exact Hn. apply Ha, Ht'.
Qed.

Lemma respects_ret {A} t (a : A) : respects t (mret a : M A) (mret a).
Proof. intros st st' Ha Ho. splits; [reflexivity|exact Ha|exact Ho]. Qed.

Lemma respects_raise {A} t (e : exn) : respects t (raise e : M A) (raise e).
Proof. intros st st' Ha Ho. splits; [reflexivity|exact Ha|exact Ho]. Qed.

Lemma respects_bind {A B} t (m m' : M A) (k k' : A -> M B) :
  respects t m m' -> (forall a, respects t (k a) (k' a)) ->
  respects t (m ≫= k) (m' ≫= k').
Proof.
  intros Hm Hk st st' Ha Ho. destruct (Hm st st' Ha Ho) as (Hr & Ha1 & Ho1).
  unfold mbind, M_bind.
  destruct (m st) as [[a|e] s1], (m' st') as [[a'|e'] s1']; cbn [fst snd] in *;
    try discriminate.
  - injection Hr as <-. apply Hk; assumption.
  - injection Hr as <-. splits; [reflexivity|assumption|assumption].
Qed.

Lemma respects_get_data_bind {B} t (k k' : DataFrame -> M B) :
  (forall df df', agree_upto t df df' -> respects t (k df) (k' df')) ->
  respects t (get_data ≫= k) (get_data ≫= k').
Proof. intros Hk st st' Ha Ho. exact (Hk (data st) (data st') Ha st st' Ha Ho). Qed.

Lemma respects_print t (e : event) : respects t (print e) (print e).
Proof. intros st st' Ha Ho. cbn. splits; [reflexivity|exact Ha|congruence]. Qed.

Lemma respects_at_get t t' name : t' <= t -> respects t (at_get t' name) (at_get t' name).
Proof.
  intros Ht' st st' Ha Ho. pose proof Ha as (_ & _ & Hat).
  unfold at_get, get_data, mbind, M_bind. rewrite <- (Hat t' name Ht').
  destruct (df_at (data st) t' name); cbn; splits; (reflexivity || assumption).
Qed.

Lemma respects_at_set t t' name v : respects t (at_set t' name v) (at_set t' name v).
Proof.
  intros st st' Ha Ho. cbn. splits; [reflexivity| |exact Ho].
  apply agree_upto_set_at, Ha.
Qed.

Lemma respects_set_column t name v : respects t (set_column name v) (set_column name v).
Proof.
  intros st st' Ha Ho. cbn. splits; [reflexivity| |exact Ho].
  apply agree_upto_set_column, Ha.
Qed.

Lemma respects_try_except {A} t (body body' : M A) (handler handler' : exn -> M A) :
  respects t body body' -> (forall e, respects t (handler e) (handler' e)) ->
  respects t (try_except body handler) (try_except body' handler').
Proof.
  intros Hb Hh st st' Ha Ho. destruct (Hb st st' Ha Ho) as (Hr & Ha1 & Ho1).
  unfold try_except.
  destruct (body st) as [[a|e] s1], (body' st') as [[a'|e'] s1']; cbn [fst snd] in *;
    try discriminate.
  - splits; assumption.
  - injection Hr as <-. apply Hh; assumption.
Qed.

Lemma respects_for_each {A} t (l : list A) (body : A -> M unit) :
  (forall x, respects t (body x) (body x)) -> respects t (for_each l body) (for_each l body).
Proof.
  intros Hb. induction l as [|x xs IH]; cbn [for_each].
  - apply respects_ret.
  - apply respects_bind; [apply Hb|intros _; exact IH].
Qed.

Ltac respects_step :=
  first
    [ apply respects_ret
    | apply respects_raise
    | apply respects_at_set
    | apply respects_set_column
    | apply respects_print
    | apply respects_at_get; lia
    | apply respects_bind; [|intros ?]
    | match goal with
      | |- respects _ (if ?b then _ else _) (if ?b then _ else _) => destruct b
      | |- respects _ (match ?x with _ => _ end) (match ?x with _ => _ end) => destruct x
      end ].

Lemma respects_initialise_var t1 t name :
  t <= t1 -> respects t1 (initialise_var t name) (initialise_var t name).
Proof.
  intros Ht. unfold initialise_var. apply respects_get_data_bind. intros df df' Ha.
  rewrite (agree_has_column _ _ _ name Ha). repeat respects_step.
Qed.

Lemma respects__initialise_period self t1 t :
  t <= t1 -> respects t1 (_initialise_period self t) (_initialise_period self t).
Proof. intros Ht. apply respects_for_each. intros x. apply respects_initialise_var, Ht. Qed.

Lemma respects_read_cost_inputs t1 t :
  t <= t1 -> respects t1 (read_cost_inputs t) (read_cost_inputs t).
Proof. intros Ht. unfold read_cost_inputs. repeat respects_step. Qed.

Lemma respects__pre_solve_cost_block t1 t :
  t <= t1 -> respects t1 (_pre_solve_cost_block t) (_pre_solve_cost_block t).
Proof.
  intros Ht. unfold _pre_solve_cost_block. apply respects_get_data_bind. intros df df' Ha.
  rewrite (agree_has_column _ _ _ "SCOST" Ha).
  destruct (negb (has_column df "SCOST")); [apply respects_ret|].
  apply respects_try_except; [|intros e; apply respects_ret].
  apply respects_bind; [apply respects_read_cost_inputs, Ht|intros i].
  destruct (linalg_solve cost_matrix (cost_rhs i)) as [[[x0 x1] x2]|];
    repeat respects_step.
Qed.

Lemma respects_adjust t1 t pair :
  t <= t1 -> respects t1 (adjust t pair) (adjust t pair).
Proof.
  intros Ht. destruct pair as [var adj_var]. unfold adjust.
  apply respects_get_data_bind. intros df df' Ha.
  rewrite (agree_has_column _ _ _ var Ha), (agree_has_column _ _ _ adj_var Ha).
  repeat respects_step.
Qed.

Lemma respects__apply_additive_adjustments t1 t :
  t <= t1 -> respects t1 (_apply_additive_adjustments t) (_apply_additive_adjustments t).
Proof. intros Ht. apply respects_for_each. intros x. apply respects_adjust, Ht. Qed.

Lemma respects_sweep_equation self t1 t verbose eq tr :
  t <= t1 -> no_lookahead_at t eq ->
  respects t1 (sweep_equation self t verbose eq tr) (sweep_equation self t verbose eq tr).
Proof.
  intros Ht Heq. unfold sweep_equation.
  apply respects_bind; [apply respects_at_get, Ht|intros old].
  apply respects_get_data_bind. intros df df' Ha.
  rewrite <- (Heq df df' (agree_upto_mono t t1 df df' Ht Ha)).
  repeat respects_step.
Qed.

Lemma respects_sweep_equations self t1 t verbose eqs :
  t <= t1 -> (forall eq, In eq eqs -> no_lookahead_at t eq) ->
  forall tr,
    respects t1 (sweep_equations self t verbose eqs tr) (sweep_equations self t verbose eqs tr).
Proof.
  intros Ht. induction eqs as [|eq rest IH]; intros Heqs tr; cbn [sweep_equations].
  - apply respects_ret.
  - apply respects_bind.
    + apply respects_sweep_equation; [exact Ht|apply Heqs; left; reflexivity].
    + intros tr'. apply IH. intros e Hin. apply Heqs. right. exact Hin.
Qed.

Lemma respects_sweep self t1 t verbose iteration :
  t <= t1 -> (forall eq, In eq (equations self) -> no_lookahead_at t eq) ->
  respects t1 (sweep self t verbose iteration) (sweep self t verbose iteration).
Proof.
  intros Ht Heqs. unfold sweep.
  apply respects_bind; [apply respects_sweep_equations; assumption|intros tr].
  repeat respects_step.
Qed.

Lemma respects_sweep_loop self t1 t verbose (remaining : nat) :
  t <= t1 -> (forall eq, In eq (equations self) -> no_lookahead_at t eq) ->
  forall iteration last,
    respects t1 (sweep_loop self t verbose remaining iteration last)
                (sweep_loop self t verbose remaining iteration last).
Proof.
  intros Ht Heqs. induction remaining as [|k IH]; intros iteration last;
    cbn [sweep_loop].
  - destruct last as [tr|]; [|apply respects_raise].
    apply respects_bind; [apply respects_print|intros _].
    apply respects_bind; [apply respects__apply_additive_adjustments, Ht|intros _].
    apply respects_ret.
  - apply respects_bind; [apply respects_sweep; assumption|intros tr].
    destruct (PrimFloat.ltb (max_change tr) (tol self)); [|apply IH].
    apply respects_bind; [apply respects__apply_additive_adjustments, Ht|intros _].
    apply respects_ret.
Qed.

Lemma respects_solve_period self t1 t verbose :
  t <= t1 -> (forall eq, In eq (equations self) -> no_lookahead_at t eq) ->
  respects t1 (solve_period self t verbose) (solve_period self t verbose).
Proof.
  intros Ht Heqs. unfold solve_period.
  apply respects_bind; [apply respects__initialise_period, Ht|intros _].
  apply respects_bind; [apply respects__pre_solve_cost_block, Ht|intros _].
  apply respects_sweep_loop; assumption.
Qed.

Lemma respects_solve_range_loop self (t0 t1 : Z) verbose (fuel : nat) :
  (forall t eq, t0 <= t <= t1 -> In eq (equations self) -> no_lookahead_at t eq) ->
  forall t results,
    t0 <= t ->
    respects t1 (solve_range_loop self fuel t t1 verbose results)
                (solve_range_loop self fuel t t1 verbose results).
Proof.
  intros Heqs. induction fuel as [|k IH]; intros t results Ht; cbn [solve_range_loop].
  - apply respects_ret.
  - destruct (Z.leb_spec t t1) as [Hle|Hgt]; [|apply respects_ret].
    apply respects_bind; [destruct verbose; [apply respects_print|apply respects_ret]|].
    intros _. apply respects_bind.
    + apply respects_solve_period; [exact Hle|]. intros eq Hin. apply Heqs; [lia|exact Hin].
    + intros iters.
      apply respects_bind; [destruct verbose; [apply respects_print|apply respects_ret]|].
      intros _. apply IH. lia.
Qed.

(** X17. Solving a range reads no period after its end.  If no equation,
    evaluated at a period of the range, reads a later period, then two
    tables that agree up to [end_period] (same columns, same rows and cells
    up to it, whatever lies beyond) give the same returned list or
    exception, the same output, and tables that still agree up to
    [end_period]. *)
Theorem X17_solving_reads_no_later_period self t0 t1 verbose st st' :
  (forall t eq, t0 <= t <= t1 -> In eq (equations self) -> no_lookahead_at t eq) ->
  agree_upto t1 (data st) (data st') ->
  stdout st = stdout st' ->
  (solve_range self t0 t1 verbose st).1 = (solve_range self t0 t1 verbose st').1
  /\ agree_upto t1 (data (solve_range self t0 t1 verbose st).2)
                   (data (solve_range self t0 t1 verbose st').2)
  /\ stdout (solve_range self t0 t1 verbose st).2
     = stdout (solve_range self t0 t1 verbose st').2.
Proof.
  intros Heqs Ha Ho.
  exact (respects_solve_range_loop self t0 t1 verbose _ Heqs t0 [] (Z.le_refl t0)
           st st' Ha Ho).
Qed.

Lemma eq_X_no_lookahead t : no_lookahead_at t eq_X.
Proof.
  intros df df' (_ & _ & Ha). cbn. rewrite (Ha (t - 1) "X") by lia. reflexivity.
Qed.

Lemma eq_Y_no_lookahead t : no_lookahead_at t eq_Y.
Proof. intros df df' _. reflexivity. Qed.

Lemma eq_PRMIP_no_lookahead t : no_lookahead_at t eq_PRMIP.
Proof.
  intros df df' (_ & _ & Ha). cbn. rewrite (Ha t "X") by lia. reflexivity.
Qed.

Lemma sample_df_later_agrees : agree_upto 2 sample_df sample_df_later.
Proof.
  unfold agree_upto. splits.
  - reflexivity.
  - intros t' _. reflexivity.
  - intros t' name Ht'. unfold df_at, has_row, has_column, sample_df, sample_df_later.
    cbn [df_index df_columns df_cells].
    destruct (decide (t' = 3)); [lia|reflexivity].
Qed.

Lemma X17_witness :
  let st := sample_state in
  let st' := {| data := sample_df_later; stdout := [] |} in
  (solve_range sample_solver 1 2 true st).1 = (solve_range sample_solver 1 2 true st').1
  /\ agree_upto 2 (data (solve_range sample_solver 1 2 true st).2)
                  (data (solve_range sample_solver 1 2 true st').2)
  /\ stdout (solve_range sample_solver 1 2 true st).2
     = stdout (solve_range sample_solver 1 2 true st').2.
Proof.
  apply (X17_solving_reads_no_later_period sample_solver 1 2 true sample_state
           {| data := sample_df_later; stdout := [] |}).
  - intros t eq _ [<-|[<-|[<-|[]]]].
    + apply eq_X_no_lookahead.
    + apply eq_Y_no_lookahead.
    + apply eq_PRMIP_no_lookahead.
  - exact sample_df_later_agrees.
  - reflexivity.
Defined.

(** ** The reader of the equations *)

Lemma v_agree t df df' var lag :
  agree_upto t df df' -> eviews_functions.v df t var lag = eviews_functions.v df' t var lag.
Proof.
  intros (_ & _ & Ha). unfold eviews_functions.v.
  destruct (Z.ltb_spec 0 lag); rewrite Ha by lia; reflexivity.
Qed.

(** X18. The reader [v] never returns a value of a later period: what it
    returns or raises is the same on any two tables that agree up to [t],
    whatever the lag; a zero or negative lag (a lead) reads period [t]
    itself. *)
Theorem X18_v_never_reads_a_later_period data t var lag :
  (forall data', agree_upto t data data' ->
     eviews_functions.v data t var lag = eviews_functions.v data' t var lag)
  /\ (lag <= 0 ->
      eviews_functions.v data t var lag
      = match df_at data t var with
        | Some x => Ok x
        | None => Raise (KeyError t var)
        end).
Proof.
  split.
  - intros data' Ha. apply v_agree, Ha.
  - intros Hlag. unfold eviews_functions.v.
    replace (0 <? lag) with false by lia. reflexivity.
Qed.

(** X19. An equation that reads the table only through the reader [v], at the
    period it is evaluated at, reads no later period, whatever it computes
    from what it reads. *)
Theorem X19_equations_reading_through_v_never_look_ahead
    (eq : Equation)
    (body : Z -> (string -> Z -> result float) -> eval_result) :
  (forall df t, eq_func eq df t = body t (eviews_functions.v df t)) ->
  forall t, no_lookahead_at t eq.
Proof.
  intros Hbody t df df' Ha. rewrite !Hbody. f_equal.
  apply functional_extensionality. intros var.
  apply functional_extensionality. intros lag.
  apply v_agree, Ha.
Qed.

Lemma X19_witness :
  no_lookahead_at 1 eq_PRMIP.
Proof.
  apply (X19_equations_reading_through_v_never_look_ahead eq_PRMIP
           (fun _ v => match v "X" 0 with
                       | Ok x => Returns (x + 1)%float
                       | Raise _ => Raises "KeyError"
                       end)).
  intros df t. cbn. unfold eviews_functions.v. cbn.
  destruct (df_at df t "X"); reflexivity.
Defined.

(** ** The guarded logarithm *)

Lemma ltb_is_number_r (x y : float) : PrimFloat.ltb x y = true -> is_nan y = false.
Proof.
  rewrite FloatAxioms.ltb_spec. intros H.
  destruct (is_nan y) eqn:E; [|reflexivity].
  apply is_nan_spec in E. rewrite E in H.
  unfold SFltb, SFcompare in H. destruct (Prim2SF x) as [[]|[]| |[] m e]; discriminate.
Qed.

(** X20. [safe_log] never passes [np.log] a number below [1e-10]: every
    argument below it (zero, a negative number, minus infinity) is replaced
    by [1e-10], so all of them give [log(1e-10)]; an argument that is not
    below [1e-10] is passed on as it is, NaN included. *)
Theorem X20_safe_log_clamps_small_arguments (np_log : float -> float) (x : float) :
  (PrimFloat.ltb x 1e-10 = true ->
     eviews_functions.safe_log np_log x = np_log 1e-10%float)
  /\ (PrimFloat.ltb x 1e-10 = false ->
     eviews_functions.safe_log np_log x = np_log x)
  /\ PrimFloat.ltb (eviews_functions.py_max x 1e-10) 1e-10 = false.
Proof.
  unfold eviews_functions.safe_log.
  change (lit 1 10) with 1e-10%float. unfold eviews_functions.py_max.
  destruct (PrimFloat.ltb x 1e-10) eqn:E; splits.
  - reflexivity.
  - discriminate.
  - reflexivity.
  - discriminate.
  - reflexivity.
  - exact E.
Qed.

(** ** The model's entry point *)

Lemma period_range_length (t0 t1 : Z) :
  length (period_range t0 t1) = Z.to_nat (t1 - t0 + 1).
Proof. unfold period_range. rewrite length_map, length_seq. reflexivity. Qed.

(** X21. Called without bounds ([None] or an empty string for [start] and
    [end]) on a model that holds data, [OBRModel.solve] solves the forecast
    horizon of the configuration: when it returns, its list has the 24
    quarters 2025Q1 to 2030Q4 in order, each with a count between 1 and
    the solver's [max_iter]. *)
Theorem X21_solve_defaults_to_the_forecast_horizon
    (pd_Period : string -> option Z) (self : OBRModel) (df : DataFrame)
    (start end_ : period_arg) (verbose : bool) (out : list model_event)
    (results : list (Z * Z)) :
  model_data self = Some df ->
  (start = ArgNone \/ start = ArgStr "") ->
  (end_ = ArgNone \/ end_ = ArgStr "") ->
  (solve pd_Period self start end_ verbose out).1.1 = inr results ->
  map fst results = period_range (quarter 2025 1) (quarter 2030 4)
  /\ length results = 24%nat
  /\ Forall (fun p => 1 <= snd p <= max_iter (solver self)) results.
Proof.
  intros Ed Hs He. unfold solve. rewrite Ed.
  assert (Es : period_or pd_Period start FORECAST_START = inr FORECAST_START)
    by (destruct Hs as [->| ->]; reflexivity).
  assert (Ee : period_or pd_Period end_ FORECAST_END = inr FORECAST_END)
    by (destruct He as [->| ->]; reflexivity).
  rewrite Es, Ee. cbn [fst snd].
  destruct (solve_range (solver self) FORECAST_START FORECAST_END verbose
              {| data := df; stdout := [] |}).1 as [res|e] eqn:E; [|discriminate].
  intros [= <-].
  destruct (solve_range_results_gen _ _ _ _ _ _ E) as [Hfst Hall].
  splits; [exact Hfst| |exact Hall].
  rewrite <- (length_map fst), Hfst, period_range_length. reflexivity.
Qed.

Lemma X21_witness :
  let self := {| model_data := Some forecast_df;
                 model_equations := [eq_X];
                 solver := __init__ [eq_X] None None None |} in
  exists results,
    (solve (fun _ => None) self ArgNone (ArgStr "") false []).1.1 = inr results
    /\ map fst results = period_range (quarter 2025 1) (quarter 2030 4)
    /\ length results = 24%nat
    /\ Forall (fun p => 1 <= snd p <= 200) results.
Proof.
  intros self.
  destruct (solve (fun _ => None) self ArgNone (ArgStr "") false []).1.1
    as [e|results] eqn:E; [vm_compute in E; discriminate E|].
  exists results. split; [reflexivity|].
  apply (X21_solve_defaults_to_the_forecast_horizon (fun _ => None) self forecast_df
           ArgNone (ArgStr "") false [] results).
  - reflexivity.
  - left. reflexivity.
  - right. reflexivity.
  - exact E.
Defined.

(** ** Solving a range in instalments *)

Lemma bind_ext_l {A B} (m m' : M A) (k : A -> M B) (st : state) :
  (forall s, m s = m' s) -> (m ≫= k) st = (m' ≫= k) st.
Proof. intros H. unfold mbind, M_bind. rewrite H. reflexivity. Qed.

Lemma solve_range_loop_results_prefix self verbose (end_period : Z) (fuel : nat) :
  forall t results st,
    solve_range_loop self fuel t end_period verbose results st
    = (new ← solve_range_loop self fuel t end_period verbose [];
       mret (results ++ new)%list) st.
Proof.
  induction fuel as [|k IH]; intros t results st; cbn [solve_range_loop].
  - rewrite bind_ret, app_nil_r. reflexivity.
  - destruct (t <=? end_period).
    2:{ rewrite bind_ret, app_nil_r. reflexivity. }
    rewrite !bind_assoc. apply bind_ext. intros [] s1.
    rewrite !bind_assoc. apply bind_ext. intros iters s2.
    rewrite !bind_assoc. apply bind_ext. intros [] s3.
    rewrite IH.
    rewrite (bind_ext_l _ _ _ _ (IH (t + 1) ([] ++ [(t, iters)])%list)).
    rewrite bind_assoc. apply bind_ext. intros new s4.
    rewrite bind_ret, <- app_assoc. reflexivity.
Qed.

(** X23. A range can be solved in instalments: solving [t0 .. t1] and then
    [t1 + 1 .. t2] from the table the first run left ends as one run over
    [t0 .. t2] does, with the same table and output; the single run
    returns the two lists concatenated, or raises what the second
    instalment raises, the periods solved before it staying solved. *)
Theorem X23_solve_range_in_instalments self verbose (t0 t1 t2 : Z) st res1 st1 r2 st2 :
  t0 <= t1 + 1 -> t1 <= t2 ->
  solve_range self t0 t1 verbose st = (Ok res1, st1) ->
  solve_range self (t1 + 1) t2 verbose st1 = (r2, st2) ->
  solve_range self t0 t2 verbose st
  = (match r2 with
     | Ok res2 => Ok (res1 ++ res2)%list
     | Raise e => Raise e
     end, st2).
Proof.
  intros H01 H12 E1 E2. unfold solve_range in *.
  rewrite (solve_range_loop_split self verbose t1 t2 (Z.to_nat (t1 - t0 + 1)) H12
             t0 [] st) by lia.
  rewrite (bind_Ok _ _ _ _ _ E1).
  replace (Z.to_nat (t2 - t1)) with (Z.to_nat (t2 - (t1 + 1) + 1)) by lia.
  rewrite solve_range_loop_results_prefix.
  destruct r2 as [res2|e].
  - rewrite (bind_Ok _ _ _ _ _ E2). reflexivity.
  - apply (bind_Raise _ _ _ _ _ E2).
Qed.

Lemma X23_witness :
  let run1 := solve_range sample_solver_short 1 1 false sample_state in
  let run2 := solve_range sample_solver_short 2 2 false run1.2 in
  solve_range sample_solver_short 1 2 false sample_state
  = (Ok ([(1, 3)] ++ [(2, 3)])%list, run2.2).
Proof.
  intros run1 run2.
  assert (H1 : run1.1 = Ok [(1, 3)]) by (vm_compute; reflexivity).
  assert (H2 : run2.1 = Ok [(2, 3)]) by (vm_compute; reflexivity).
  apply (X23_solve_range_in_instalments sample_solver_short false 1 1 2 sample_state
           [(1, 3)] run1.2 (Ok [(2, 3)]) run2.2).
  - lia.
  - lia.
  - rewrite <- H1. apply surjective_pairing.
  - rewrite <- H2. apply surjective_pairing.
Defined.

(** ** Values outside the range stay as they are *)

Lemma keeps_outside_refl t0 t1 df : keeps_outside t0 t1 df df.
Proof. split; [apply df_le_refl|auto]. Qed.

Lemma keeps_outside_trans t0 t1 df1 df2 df3 :
  keeps_outside t0 t1 df1 df2 -> keeps_outside t0 t1 df2 df3 -> keeps_outside t0 t1 df1 df3.
Proof.
  intros [Hl1 Hk1] [Hl2 Hk2]. split; [eapply df_le_trans; eassumption|].
  intros t' name x Ht' Hx. apply Hk2, Hk1; assumption.
Qed.

Lemma keeps_outside_row_frame t0 t1 t df df' :
  t0 <= t <= t1 -> row_frame t df df' -> keeps_outside t0 t1 df df'.
Proof.
  intros Ht Hf. split; [apply (row_frame_le t), Hf|].
  destruct Hf as (_ & _ & Hf). intros t' name x Ht' Hx. rewrite Hf; [exact Hx|lia].
Qed.

Lemma keeps_outside_set_at t0 t1 t df name v :
  t0 <= t <= t1 -> keeps_outside t0 t1 df (df_set_at df t name v).
Proof.
  intros Ht. split; [apply df_le_set_at|].
  intros t' n x Ht' Hx. rewrite df_at_set_at_general, Hx.
  destruct (df_at_Some_inv _ _ _ _ Hx) as (Hr & Hc & _).
  apply has_row_true in Hr. apply has_column_true in Hc. rewrite Hr, Hc.
  destruct (decide (t' = t /\ n = name)) as [[-> _]|_]; [lia|reflexivity].
Qed.

Lemma keeps_outside_new_column t0 t1 df name v :
  name ∉ df_columns df -> keeps_outside t0 t1 df (df_set_column df name v).
Proof.
  intros Hn. split; [apply df_le_set_column|].
  intros t' n x _ Hx. destruct (decide (n = name)) as [->|Hne].
  - rewrite (df_at_None_column _ _ _ Hn) in Hx. discriminate.
  - rewrite df_at_set_column_other; assumption.
Qed.

Lemma initialise_var_keeps t0 t1 t name st :
  t0 <= t <= t1 ->
  wp (initialise_var t name) (fun _ s => keeps_outside t0 t1 (data st) (data s)) st.
Proof.
  intros Ht. unfold initialise_var. apply wp_bind, wp_get_data.
  assert (Hrest : forall s1 : state,
    keeps_outside t0 t1 (data st) (data s1) ->
    wp (x ← at_get t name;
        if is_nan x
        then prev_val ← at_get (t - 1) name;
             (if negb (is_nan prev_val) then at_set t name prev_val
              else at_set t name (lit 10 1))
        else mret ())
       (fun _ s => keeps_outside t0 t1 (data st) (data s)) s1).
  { intros s1 H1. apply wp_bind, wp_at_get; [|intros _; exact H1].
    intros x _. destruct (is_nan x); [|apply wp_ret, H1].
    apply wp_bind, wp_at_get; [|intros _; exact H1].
    intros prev _.
    destruct (negb (is_nan prev)); apply wp_at_set; cbn [data];
      (eapply keeps_outside_trans; [exact H1|apply keeps_outside_set_at, Ht]). }
  destruct (has_column (data st) name) eqn:En.
  - apply wp_bind, wp_ret. apply Hrest, keeps_outside_refl.
  - apply wp_bind, wp_set_column. apply Hrest. cbn [data].
    apply keeps_outside_new_column. rewrite <- has_column_true, En. discriminate.
Qed.

Lemma for_each_keeps {A} t0 t1 (body : A -> M unit) (l : list A) :
  (forall x st, wp (body x) (fun _ s => keeps_outside t0 t1 (data st) (data s)) st) ->
  forall st, wp (for_each l body) (fun _ s => keeps_outside t0 t1 (data st) (data s)) st.
Proof.
  intros Hb. induction l as [|x xs IH]; intros st; cbn [for_each].
  - apply wp_ret, keeps_outside_refl.
  - apply wp_bind. eapply wp_conseq; [apply Hb|].
    intros [[]|e] s1 H1; [|exact H1].
    eapply wp_conseq; [apply IH|]. intros r s2 H2.
    eapply keeps_outside_trans; eassumption.
Qed.

Lemma _pre_solve_cost_block_keeps t0 t1 t st :
  t0 <= t <= t1 ->
  wp (_pre_solve_cost_block t) (fun _ s => keeps_outside t0 t1 (data st) (data s)) st.
Proof.
  intros Ht. unfold _pre_solve_cost_block. apply wp_bind, wp_get_data.
  destruct (negb (has_column (data st) "SCOST")); [apply wp_ret, keeps_outside_refl|].
  apply wp_try_except, wp_bind.
  eapply wp_conseq; [apply read_cost_inputs_effect|].
  intros [i|e] s [-> _]; [|apply wp_ret, keeps_outside_refl].
  destruct (linalg_solve cost_matrix (cost_rhs i)) as [[[x0 x1] x2]|];
    [|apply wp_raise, wp_ret, keeps_outside_refl].
  apply wp_bind, wp_at_set, wp_bind, wp_at_set, wp_at_set. cbn [data].
  eapply keeps_outside_trans; [eapply keeps_outside_trans|];
    apply keeps_outside_set_at, Ht.
Qed.

Lemma solve_period_keeps self t0 t1 t verbose st :
  t0 <= t <= t1 ->
  wp (solve_period self t verbose)
     (fun _ s => keeps_outside t0 t1 (data st) (data s)) st.
Proof.
  intros Ht. unfold solve_period. apply wp_bind.
  eapply wp_conseq;
    [apply (for_each_keeps t0 t1 (initialise_var t));
     intros x s; apply initialise_var_keeps, Ht|].
  intros [[]|e] s1 H1; [|exact H1].
  apply wp_bind. eapply wp_conseq; [apply _pre_solve_cost_block_keeps, Ht|].
  intros [[]|e] s2 H2; [|eapply keeps_outside_trans; eassumption].
  eapply wp_conseq; [apply sweep_loop_frame|].
  intros r s3 H3.
  eapply keeps_outside_trans; [exact H1|].
  eapply keeps_outside_trans; [exact H2|].
  apply (keeps_outside_row_frame t0 t1 t); assumption.
Qed.

Lemma solve_range_loop_keeps self (t0 t1 : Z) verbose (fuel : nat) :
  forall t results st,
    t0 <= t ->
    wp (solve_range_loop self fuel t t1 verbose results)
       (fun _ s => keeps_outside t0 t1 (data st) (data s)) st.
Proof.
  induction fuel as [|k IH]; intros t results st Ht; cbn [solve_range_loop].
  - apply wp_ret, keeps_outside_refl.
  - destruct (Z.leb_spec t t1) as [Hle|Hgt]; [|apply wp_ret, keeps_outside_refl].
    apply wp_bind.
    assert (Hrest : forall s0 : state,
      data s0 = data st ->
      wp (iters ← solve_period self t verbose;
          (if verbose then print (PrintConverged iters) else mret ());;
          solve_range_loop self k (t + 1) t1 verbose (results ++ [(t, iters)])%list)
         (fun _ s => keeps_outside t0 t1 (data st) (data s)) s0).
    { intros s0 E0. apply wp_bind.
      eapply wp_conseq; [apply (solve_period_keeps self t0 t1 t); lia|].
      intros [n|e] s1 H1; rewrite E0 in H1; [|exact H1].
      apply wp_bind.
      assert (Hloop : forall s2 : state,
        data s2 = data s1 ->
        wp (solve_range_loop self k (t + 1) t1 verbose (results ++ [(t, n)])%list)
           (fun _ s => keeps_outside t0 t1 (data st) (data s)) s2).
      { intros s2 E2. eapply wp_conseq; [apply IH; lia|].
        intros r s3 H3. rewrite E2 in H3. eapply keeps_outside_trans; eassumption. }
      destruct verbose; [apply wp_print|apply wp_ret]; apply Hloop; reflexivity. }
    destruct verbose; [apply wp_print|apply wp_ret]; apply Hrest; reflexivity.
Qed.

(** X24. [solve_range] never changes a value stored outside its range:
    whether it returns or raises, every cell that existed at a period
    before [start_period] or after [end_period] holds the value it held,
    and no row or column has been removed. *)
Theorem X24_values_outside_the_range_are_kept self t0 t1 verbose st :
  let st' := (solve_range self t0 t1 verbose st).2 in
  df_index (data st) ⊆ df_index (data st')
  /\ df_columns (data st) ⊆ df_columns (data st')
  /\ forall t name x,
       t < t0 \/ t1 < t ->
       df_at (data st) t name = Some x -> df_at (data st') t name = Some x.
Proof.
  pose proof (solve_range_loop_keeps self t0 t1 verbose (Z.to_nat (t1 - t0 + 1))
                t0 [] st (Z.le_refl t0)) as [[Hi Hc] Hk].
  cbn zeta. splits; [exact Hi|exact Hc|].
  intros t name x Ht. apply Hk. lia.
Qed.

(** ** The count a converged period returns *)

Lemma sweep_loop_converges self t verbose (k : nat) :
  forall (remaining : nat) iteration last st,
    cells_exist (data st) t (equations self) ->
    (k < remaining)%nat ->
    (forall j, (j < k)%nat ->
       PrimFloat.ltb
         (max_change (sweep_tracker self t (Nat.iter j (sweep_data self t) (data st))))
         (tol self) = false) ->
    PrimFloat.ltb
      (max_change (sweep_tracker self t (Nat.iter k (sweep_data self t) (data st))))
      (tol self) = true ->
    exists out,
      sweep_loop self t verbose remaining iteration last st
      = (Ok (iteration + Z.of_nat k + 1),
         {| data := adjustments_data t (Nat.iter (S k) (sweep_data self t) (data st));
            stdout := stdout st ++ out |})
      /\ forallb (fun e => negb (is_warning e)) out = true.
Proof.
  induction k as [|k IH]; intros remaining iteration last st Hc Hk Hbefore Hconv;
    (destruct remaining as [|rem]; [lia|]); cbn [sweep_loop];
    destruct (sweep_spec self t verbose iteration st Hc) as (out1 & E1 & Hw1);
    rewrite (bind_Ok _ _ _ _ _ E1);
    assert (Hc1 : cells_exist (sweep_data self t (data st)) t (equations self))
      by apply cells_exist_sweep_data, Hc.
  - change (Nat.iter 0 (sweep_data self t) (data st)) with (data st) in Hconv.
    rewrite Hconv.
    rewrite adjustments_then_ret by (cbn [data]; apply (cells_exist_row _ _ _ Hc1)).
    exists out1. split; [|exact Hw1].
    cbn [data stdout Nat.iter].
    replace (iteration + Z.of_nat 0 + 1) with (iteration + 1) by lia. reflexivity.
  - pose proof (Hbefore 0%nat ltac:(lia)) as H0.
    change (Nat.iter 0 (sweep_data self t) (data st)) with (data st) in H0.
    rewrite H0.
    edestruct (IH rem (iteration + 1) (Some (sweep_tracker self t (data st)))
                 {| data := sweep_data self t (data st); stdout := stdout st ++ out1 |})
      as (out2 & E2 & Hw2).
    + exact Hc1.
    + lia.
    + intros j Hj. cbn [data]. rewrite <- Nat.iter_succ_r. apply Hbefore. lia.
    + cbn [data]. rewrite <- Nat.iter_succ_r. exact Hconv.
    + exists (out1 ++ out2)%list. rewrite E2. cbn [data stdout]. split.
      * rewrite <- Nat.iter_succ_r, <- app_assoc.
        replace (iteration + Z.of_nat (S k) + 1) with (iteration + 1 + Z.of_nat k + 1)
          by lia.
        reflexivity.
      * rewrite forallb_app, Hw1, Hw2. reflexivity.
Qed.

(** X25. [solve_period] returns the number of the first pass after which
    [max_change] is below the tolerance: if pass [k + 1] is the first such
    pass and lies within the budget, it returns [k + 1], prints no warning,
    and leaves the table of that pass with the post-processor applied
    once. *)
Theorem X25_solve_period_returns_the_first_converged_pass self t verbose st (k : nat) :
  t ∈ df_index (data st) -> reaches_loop self t (data st) ->
  (k < Z.to_nat (max_iter self))%nat ->
  let df1 := prepared self t (data st) in
  (forall j, (j < k)%nat ->
     PrimFloat.ltb
       (max_change (sweep_tracker self t (Nat.iter j (sweep_data self t) df1)))
       (tol self) = false) ->
  PrimFloat.ltb
    (max_change (sweep_tracker self t (Nat.iter k (sweep_data self t) df1)))
    (tol self) = true ->
  exists out,
    solve_period self t verbose st
    = (Ok (Z.of_nat k + 1),
       {| data := adjustments_data t (Nat.iter (S k) (sweep_data self t) df1);
          stdout := stdout st ++ out |})
    /\ forallb (fun e => negb (is_warning e)) out = true.
Proof.
  intros Ht Hp Hk df1 Hbefore Hconv.
  rewrite (solve_period_prepared self t verbose st Ht Hp). fold df1.
  destruct (prepared_spec self t st Ht Hp) as [_ Hc]. fold df1 in Hc.
  destruct (sweep_loop_converges self t verbose k (Z.to_nat (max_iter self)) 0 None
              {| data := df1; stdout := stdout st |} Hc Hk Hbefore Hconv)
    as (out & E & Hw).
  exists out. split; [|exact Hw]. rewrite E. reflexivity.
Qed.

Lemma X25_witness :
  let self := __init__ [eq_X; eq_Y; eq_PRMIP] None (Some 0.05%float) None in
  exists out,
    solve_period self 1 false sample_state
    = (Ok (Z.of_nat 3 + 1),
       {| data := adjustments_data 1
                    (Nat.iter 4 (sweep_data self 1) (prepared self 1 sample_df));
          stdout := [] ++ out |})
    /\ forallb (fun e => negb (is_warning e)) out = true.
Proof.
  apply (X25_solve_period_returns_the_first_converged_pass
           (__init__ [eq_X; eq_Y; eq_PRMIP] None (Some 0.05%float) None)
           1 false sample_state 3).
  - vm_compute. reflexivity.
  - vm_compute. reflexivity.
  - change (3 < 200)%nat. lia.
  - intros j Hj. destruct j as [|[|[|j]]]; [vm_compute; reflexivity..|lia].
  - vm_compute. reflexivity.
Defined.
